(** * DesignGenius: design-tree parsing and token derivation

    A shallow embedding of the extraction engine
    ([backend-web/src/feature-breakdown-generator.ts], the part that is the
    Figma parser: [extractTextStyles], [extractColors],
    [extractAutoLayoutInfo], [extractSpacing], [parseFigmaNodes]) and of the
    token synthesizer ([generateColorTokens], [generateTypographyTokens],
    [generateSpacingTokens], [generateBorderRadiusTokens],
    [generateDesignTokens]).

    Numbers.  The source works on JavaScript numbers.  Pixel quantities
    (font size, font weight, line height, letter spacing, paddings, item
    spacing, corner radii) are modelled as integers [Z]; colour channels,
    alpha and opacity are IEEE 754 binary64 values ([float]), and the
    arithmetic and the comparisons on them are the floating-point ones.  The
    closures that mutate a [Map] or an array while walking the tree are
    modelled by explicit state passing. *)

From Stdlib Require Import ZArith QArith Qround Qabs List String Ascii Bool Lia Lqa.
From Stdlib Require Import Floats.
From Stdlib Require Import Sorted Permutation DecimalString HexadecimalString DecimalZ.
Import ListNotations.

Open Scope Z_scope.

(* ================================================================== *)
(** * JavaScript primitives used by the source *)
(* ================================================================== *)

Module JS.

(** [`${n}`] for an integer-valued number. *)
Definition num_to_string (n : Z) : string :=
  DecimalString.NilZero.string_of_int (Z.to_int n).

(** [n.toString(16)]: lower-case digits, a leading minus sign for
    negative numbers. *)
Definition toString16 (n : Z) : string :=
  HexadecimalString.NilZero.string_of_int (Z.to_hex_int n).

(** The exact value of a finite double, given by its sign, mantissa and
    exponent; nothing for [NaN] and the two infinities. *)
Definition value (f : spec_float) : option Q :=
  match f with
  | S754_zero _ => Some 0%Q
  | S754_finite s m e =>
      let n := if s then Z.neg m else Z.pos m in
      Some (if 0 <=? e then inject_Z (n * 2 ^ e)
            else Qmake n (Z.to_pos (2 ^ (- e))))
  | S754_infinity _ => None
  | S754_nan => None
  end.

Definition exact (x : float) : option Q := value (Prim2SF x).

(** [String(x)] for a double that is not finite; [toString(16)] and
    [toFixed(2)] give the same text. *)
Definition nonfinite_text (x : float) : string :=
  match Prim2SF x with
  | S754_infinity true => "-Infinity"
  | S754_infinity false => "Infinity"
  | _ => "NaN"
  end.

(** The integer [n] as a double; the source does this to the value of a
    two-digit [parseInt], where it is exact. *)
Definition of_int (n : Z) : float := PrimFloat.of_uint63 (Uint63.of_Z n).

(** [x < y], [x > y] and [x <= y] on doubles; all are false when an
    operand is [NaN]. *)
Definition lt (x y : float) : bool := PrimFloat.ltb x y.
Definition gt (x y : float) : bool := PrimFloat.ltb y x.
Definition le (x y : float) : bool := PrimFloat.leb x y.

(** The values of the literals [0.3], [0.7] and [0.01]: the doubles nearest
    to the decimal fractions. *)
Definition d0_3 : float := 0x1.3333333333333p-2.
Definition d0_7 : float := 0x1.6666666666666p-1.
Definition d0_01 : float := 0x1.47ae147ae147bp-7.

(** [Math.round] on the exact value of a finite number: the nearest
    integer, halves towards plus infinity. *)
Definition Math_round (x : Q) : Z := Qfloor (x + (1 # 2))%Q.

(** [Math.round(x)] for a double: an integer when [x] is finite, and [x]
    itself (so nothing here) when it is not. *)
Definition round (x : float) : option Z := option_map Math_round (exact x).

(** The text of [Math.round(x)], the integer printed by [print]. *)
Definition round_to_string (print : Z -> string) (x : float) : string :=
  match round x with
  | Some n => print n
  | None => nonfinite_text x
  end.

Definition upper_ascii (c : ascii) : ascii :=
  let n := nat_of_ascii c in
  if (andb (97 <=? n) (n <=? 122))%nat then ascii_of_nat (n - 32) else c.

(** [s.toUpperCase()] on the ASCII strings the source builds. *)
Fixpoint toUpperCase (s : string) : string :=
  match s with
  | EmptyString => EmptyString
  | String c s' => String (upper_ascii c) (toUpperCase s')
  end.

(** [x.toFixed(2)]: sign, integer part, a dot and two decimals, the
    magnitude rounded to the nearest hundredth (the larger one on a tie).
    The exponent notation JavaScript switches to from 1e21 on is not
    modelled.  The argument is the exact value of the double. *)
Definition toFixed2 (x : Q) : string :=
  let n := Qfloor (Qabs x * 100 + (1 # 2))%Q in
  let frac := n mod 100 in
  let pad := if frac <? 10 then "0"%string else ""%string in
  let body :=
    (num_to_string (n / 100) ++ "." ++ pad ++ num_to_string frac)%string in
  if Qlt_le_dec x 0%Q then ("-" ++ body)%string else body.

(** [x.toFixed(2)] for a double. *)
Definition toFixed (x : float) : string :=
  match exact x with
  | Some q => toFixed2 q
  | None => nonfinite_text x
  end.

(** [a || d] on an optional number: [undefined] and [0] are falsy. *)
Definition or_num (a : option Z) (d : Z) : Z :=
  match a with
  | Some v => if v =? 0 then d else v
  | None => d
  end.

(** [a || d] on an optional string: [undefined] and [''] are falsy. *)
Definition or_str (a : option string) (d : string) : string :=
  match a with
  | Some EmptyString | None => d
  | Some v => v
  end.

(** Truthiness of an optional number. *)
Definition truthy_num (a : option Z) : bool :=
  match a with
  | Some v => negb (v =? 0)
  | None => false
  end.

(** A [Map<string, V>]: JavaScript maps iterate in insertion order, so
    the model is an association list in insertion order with at most one
    binding per key. *)
Section StringMap.
Context {V : Type}.

Definition Map := list (string * V).

Definition has (m : Map) (k : string) : bool :=
  existsb (fun kv => String.eqb (fst kv) k) m.

Fixpoint replace (m : Map) (k : string) (v : V) : Map :=
  match m with
  | [] => []
  | (k', v') :: m' =>
      if String.eqb k' k then (k', v) :: m' else (k', v') :: replace m' k v
  end.

(** [m.set(k, v)]: an existing key keeps its position. *)
Definition set (m : Map) (k : string) (v : V) : Map :=
  if has m k then replace m k v else m ++ [(k, v)].

(** [Array.from(m.values())]. *)
Definition values (m : Map) : list V := List.map snd m.

Definition keys (m : Map) : list string := List.map fst m.
End StringMap.
Arguments Map : clear implicits.

(** [arr.includes(v)] on an array of numbers. *)
Definition includes (arr : list Z) (v : Z) : bool := existsb (Z.eqb v) arr.

(** [if (!arr.includes(v)) arr.push(v)]; adding [v] to a [Set] of numbers
    does the same on the set's insertion-ordered elements. *)
Definition push_unique (arr : list Z) (v : Z) : list Z :=
  if includes arr v then arr else arr ++ [v].

(** [[...new Set(arr)]]. *)
Definition spread_Set (arr : list Z) : list Z := fold_left push_unique arr [].

Fixpoint insert_sorted (x : Z) (l : list Z) : list Z :=
  match l with
  | [] => [x]
  | y :: l' => if x <? y then x :: l else y :: insert_sorted x l'
  end.

(** [arr.sort((a, b) => a - b)].  The comparator is a total order on
    integers, so every correct sorting algorithm returns the same array;
    the model is a stable insertion sort. *)
Definition sort_ascending (arr : list Z) : list Z :=
  fold_right insert_sorted [] arr.

(** [arr.map((value, index) => f(value, index))]. *)
Fixpoint mapi_from {A B : Type} (i : Z) (f : A -> Z -> B) (l : list A) : list B :=
  match l with
  | [] => []
  | x :: l' => f x i :: mapi_from (i + 1) f l'
  end.

Definition mapi {A B : Type} (f : A -> Z -> B) (l : list A) : list B :=
  mapi_from 0 f l.

End JS.

(* ================================================================== *)
(** * Data model *)
(* ================================================================== *)

(** [{ r, g, b, a }]; the source reads [a] with a default, so it is
    optional here. *)
Module Color.
Record t := mk { r : float; g : float; b : float; a : option float }.
End Color.

(** An entry of [fills], [strokes] or [effects]. *)
Module Paint.
Record t := mk { type : string; color : option Color.t; opacity : option float }.
End Paint.

(** [number | { value: number; unit: string }]. *)
Inductive Measure :=
| Plain (n : Z)
| WithUnit (value : Z) (unit : string).

Module Style.
Record t := mk {
  fontFamily : option string;
  fontSize : option Z;
  fontWeight : option Z;
  lineHeight : option Measure;
  letterSpacing : option Measure;
  textCase : option string
}.
End Style.

Inductive LayoutMode := HORIZONTAL | VERTICAL | NONE.

(** [number | { topLeft, topRight, bottomLeft, bottomRight }]. *)
Inductive CornerRadius :=
| Uniform (radius : Z)
| Corners (topLeft topRight bottomLeft bottomRight : Z).

(** [FigmaNode].  The geometry fields ([width], [height], [x], [y]) are read
    by none of the functions below and are left out. *)
Module FigmaNode.
#[warnings="-register-all"]
Inductive t := mk {
  id : string;
  name : string;
  type : string;
  children : option (list t);
  fills : option (list Paint.t);
  strokes : option (list Paint.t);
  effects : option (list Paint.t);
  characters : option string;
  style : option Style.t;
  layoutMode : option LayoutMode;
  paddingLeft : option Z;
  paddingRight : option Z;
  paddingTop : option Z;
  paddingBottom : option Z;
  itemSpacing : option Z;
  cornerRadius : option CornerRadius
}.
End FigmaNode.

Module ParsedTextStyle.
Record t := mk {
  fontFamily : string;
  fontSize : Z;
  fontWeight : Z;
  lineHeight : Z;
  letterSpacing : Z;
  textCase : option string
}.
End ParsedTextStyle.

Module ParsedColor.
Record t := mk {
  r : float; g : float; b : float; a : float;
  hex : string; rgba : string
}.
End ParsedColor.

Module Sides.
Record t := mk { left : Z; right : Z; top : Z; bottom : Z }.
End Sides.

Module ParsedAutoLayout.
Record t := mk { direction : LayoutMode; padding : Sides.t; spacing : Z }.
End ParsedAutoLayout.

Module ParsedSpacing.
Record t := mk {
  padding : option Sides.t;
  margin : option Sides.t;
  gap : option Z
}.
End ParsedSpacing.

Module ParsedDesign.
Record t := mk {
  textStyles : list ParsedTextStyle.t;
  colors : list ParsedColor.t;
  autoLayouts : list ParsedAutoLayout.t;
  spacing : list ParsedSpacing.t;
  borderRadius : list Z
}.
End ParsedDesign.

(* ================================================================== *)
(** * Extraction engine *)
(* ================================================================== *)

Section Traverse.
Context {S : Type}.
(** What a [traverse] closure does at the node itself, on the state it
    has captured. *)
Variable visit : FigmaNode.t -> S -> S.

(** The five [traverse] closures of the source share one shape: act on
    the node, then [node.children.forEach(traverse)] when the node has
    children. *)
Fixpoint traverse (node : FigmaNode.t) (s : S) : S :=
  let s1 := visit node s in
  match FigmaNode.children node with
  | Some cs => fold_left (fun acc c => traverse c acc) cs s1
  | None => s1
  end.

(** [nodes.forEach(traverse)]. *)
Definition forEach_traverse (nodes : list FigmaNode.t) (s : S) : S :=
  fold_left (fun acc c => traverse c acc) nodes s.
End Traverse.

(** The local function [toHex] of [rgbToHex]. *)
Definition toHex (n : float) : string :=
  let hex := JS.round_to_string JS.toString16 (n * 255)%float in
  if (String.length hex =? 1)%nat then ("0" ++ hex)%string else hex.

Definition rgbToHex (r g b : float) : string :=
  JS.toUpperCase ("#" ++ toHex r ++ toHex g ++ toHex b)%string.

(** The template literal prints a rounded level in decimal; the exponent
    notation JavaScript switches to from 1e21 on is not modelled. *)
Definition rgbToRgba (r g b a : float) : string :=
  ("rgba(" ++ JS.round_to_string JS.num_to_string (r * 255)%float ++ ", "
           ++ JS.round_to_string JS.num_to_string (g * 255)%float ++ ", "
           ++ JS.round_to_string JS.num_to_string (b * 255)%float ++ ", "
           ++ JS.toFixed a ++ ")")%string.

(** The key template of [extractTextStyles]. *)
Definition textStyleKey (style : Style.t) : string :=
  (JS.or_str (Style.fontFamily style) "Unknown" ++ "-"
   ++ JS.num_to_string (JS.or_num (Style.fontSize style) 0) ++ "-"
   ++ JS.num_to_string (JS.or_num (Style.fontWeight style) 400))%string.

(** The record [textStyle] that [extractTextStyles] builds from a node's
    [style] before storing it. *)
Definition toParsedTextStyle (style : Style.t) : ParsedTextStyle.t :=
  let lineHeight :=
    match Style.lineHeight style with
    | Some (WithUnit value _) => value
    | Some (Plain n) => JS.or_num (Some n) (JS.or_num (Style.fontSize style) 16)
    | None => JS.or_num (Style.fontSize style) 16
    end in
  let letterSpacing :=
    match Style.letterSpacing style with
    | Some (WithUnit value _) => value
    | Some (Plain n) => JS.or_num (Some n) 0
    | None => 0
    end in
  {| ParsedTextStyle.fontFamily := JS.or_str (Style.fontFamily style) "Inter";
     ParsedTextStyle.fontSize := JS.or_num (Style.fontSize style) 16;
     ParsedTextStyle.fontWeight := JS.or_num (Style.fontWeight style) 400;
     ParsedTextStyle.lineHeight := lineHeight;
     ParsedTextStyle.letterSpacing := letterSpacing;
     ParsedTextStyle.textCase := Style.textCase style |}.

(** What the [traverse] closure of [extractTextStyles] does at one node. *)
Definition extractTextStyles_visit (node : FigmaNode.t)
  (textStyles : JS.Map ParsedTextStyle.t) : JS.Map ParsedTextStyle.t :=
  match FigmaNode.style node with
  | Some style =>
      if String.eqb (FigmaNode.type node) "TEXT" then
        let key := textStyleKey style in
        if negb (JS.has textStyles key) then
          JS.set textStyles key (toParsedTextStyle style)
        else textStyles
      else textStyles
  | None => textStyles
  end.

Definition extractTextStyles (nodes : list FigmaNode.t) : list ParsedTextStyle.t :=
  JS.values (forEach_traverse extractTextStyles_visit nodes []).

(** The closure [extractColorFromFill] of [extractColors], as a transformer
    of the captured [colors] map; the colour it returns is dropped by every
    caller ([forEach]). *)
Definition extractColorFromFill (fill : Paint.t) (colors : JS.Map ParsedColor.t)
  : JS.Map ParsedColor.t :=
  match Paint.color fill with
  | Some c =>
      if String.eqb (Paint.type fill) "SOLID" then
        let r := Color.r c in
        let g := Color.g c in
        let b := Color.b c in
        let a := match Color.a c with Some a => a | None => 1%float end in
        let hex := rgbToHex r g b in
        let rgba := rgbToRgba r g b a in
        let key := hex in
        if negb (JS.has colors key) then
          JS.set colors key (ParsedColor.mk r g b a hex rgba)
        else colors
      else colors
  | None => colors
  end.

(** [list.forEach(f)] for a callback acting on captured state, on an
    optional array ([if (node.fills) ...]). *)
Definition forEach_opt {A S : Type} (f : A -> S -> S) (l : option (list A)) (s : S) : S :=
  match l with
  | Some l => fold_left (fun acc x => f x acc) l s
  | None => s
  end.

(** What the [traverse] closure of [extractColors] does at one node. *)
Definition extractColors_visit (node : FigmaNode.t) (colors : JS.Map ParsedColor.t)
  : JS.Map ParsedColor.t :=
  let colors1 := forEach_opt extractColorFromFill (FigmaNode.fills node) colors in
  let colors2 := forEach_opt extractColorFromFill (FigmaNode.strokes node) colors1 in
  forEach_opt
    (fun effect colors =>
       match Paint.color effect with
       | Some c => extractColorFromFill (Paint.mk "SOLID" (Some c) None) colors
       | None => colors
       end)
    (FigmaNode.effects node) colors2.

Definition extractColors (nodes : list FigmaNode.t) : list ParsedColor.t :=
  JS.values (forEach_traverse extractColors_visit nodes []).

(** What the [traverse] closure of [extractAutoLayoutInfo] does at one node. *)
Definition extractAutoLayoutInfo_visit (node : FigmaNode.t)
  (layouts : list ParsedAutoLayout.t) : list ParsedAutoLayout.t :=
    match FigmaNode.layoutMode node with
    | Some NONE | None => layouts
    | Some mode =>
        layouts ++
        [ {| ParsedAutoLayout.direction := mode;
             ParsedAutoLayout.padding :=
               {| Sides.left := JS.or_num (FigmaNode.paddingLeft node) 0;
                  Sides.right := JS.or_num (FigmaNode.paddingRight node) 0;
                  Sides.top := JS.or_num (FigmaNode.paddingTop node) 0;
                  Sides.bottom := JS.or_num (FigmaNode.paddingBottom node) 0 |};
             ParsedAutoLayout.spacing := JS.or_num (FigmaNode.itemSpacing node) 0 |} ]
    end.

Definition extractAutoLayoutInfo (nodes : list FigmaNode.t) : list ParsedAutoLayout.t :=
  forEach_traverse extractAutoLayoutInfo_visit nodes [].

(** What the [traverse] closure of [extractSpacing] does at one node. *)
Definition extractSpacing_visit (node : FigmaNode.t) (spacing : list ParsedSpacing.t)
  : list ParsedSpacing.t :=
    let padding :=
      if JS.truthy_num (FigmaNode.paddingLeft node)
         || JS.truthy_num (FigmaNode.paddingRight node)
         || JS.truthy_num (FigmaNode.paddingTop node)
         || JS.truthy_num (FigmaNode.paddingBottom node)
      then Some {| Sides.left := JS.or_num (FigmaNode.paddingLeft node) 0;
                   Sides.right := JS.or_num (FigmaNode.paddingRight node) 0;
                   Sides.top := JS.or_num (FigmaNode.paddingTop node) 0;
                   Sides.bottom := JS.or_num (FigmaNode.paddingBottom node) 0 |}
      else None in
    let gap := FigmaNode.itemSpacing node in
    let spacingData :=
      {| ParsedSpacing.padding := padding;
         ParsedSpacing.margin := None;
         ParsedSpacing.gap := gap |} in
    (* Object.keys(spacingData).length > 0 *)
    match padding, gap with
    | None, None => spacing
    | _, _ => spacing ++ [spacingData]
    end.

Definition extractSpacing (nodes : list FigmaNode.t) : list ParsedSpacing.t :=
  forEach_traverse extractSpacing_visit nodes [].

(** The closure [extractBorderRadius] of [parseFigmaNodes], at one node. *)
Definition extractBorderRadius_visit (node : FigmaNode.t) (borderRadius : list Z) : list Z :=
  match FigmaNode.cornerRadius node with
  | Some (Uniform radius) => JS.push_unique borderRadius radius
  | Some (Corners topLeft topRight bottomLeft bottomRight) =>
      fold_left JS.push_unique [topLeft; topRight; bottomLeft; bottomRight] borderRadius
  | None => borderRadius
  end.

Definition parseFigmaNodes (nodes : list FigmaNode.t) : ParsedDesign.t :=
  let textStyles := extractTextStyles nodes in
  let colors := extractColors nodes in
  let autoLayouts := extractAutoLayoutInfo nodes in
  let spacing := extractSpacing nodes in
  let borderRadius := forEach_traverse extractBorderRadius_visit nodes [] in
  {| ParsedDesign.textStyles := textStyles;
     ParsedDesign.colors := colors;
     ParsedDesign.autoLayouts := autoLayouts;
     ParsedDesign.spacing := spacing;
     ParsedDesign.borderRadius := JS.sort_ascending (JS.spread_Set borderRadius) |}.

(* ================================================================== *)
(** * Token synthesizer *)
(* ================================================================== *)

Inductive ColorCategory := primary | secondary | neutral | semantic.

Inductive SpacingCategory := padding | margin | gap.

Module ColorToken.
Record t := mk {
  name : string;
  value : string;
  hex : string;
  rgba : string;
  category : ColorCategory
}.
End ColorToken.

Module TypographyToken.
Record t := mk {
  name : string;
  fontFamily : string;
  fontSize : Z;
  fontWeight : Z;
  lineHeight : Z;
  letterSpacing : Z;
  textCase : option string
}.
End TypographyToken.

Module SpacingToken.
Record t := mk { name : string; value : Z; category : SpacingCategory }.
End SpacingToken.

Module BorderRadiusToken.
Record t := mk { name : string; value : Z }.
End BorderRadiusToken.

Module DesignTokens.
Record t := mk {
  colors : list ColorToken.t;
  typography : list TypographyToken.t;
  spacing : list SpacingToken.t;
  borderRadius : list BorderRadiusToken.t
}.
End DesignTokens.

(** [(color.r * 299 + color.g * 587 + color.b * 114) / 1000], the first line
    of both [generateColorName] and [categorizeColor]. *)
Definition brightness (color : ParsedColor.t) : float :=
  ((ParsedColor.r color * 299 + ParsedColor.g color * 587
    + ParsedColor.b color * 114) / 1000)%float.

Definition generateColorName (color : ParsedColor.t) (index : Z)
  (allColors : list ParsedColor.t) : string :=
  let brightness := brightness color in
  if JS.lt brightness JS.d0_3 then
    ("neutral-" ++ JS.num_to_string (index + 1) ++ "-dark")%string
  else if JS.gt brightness JS.d0_7 then
    ("neutral-" ++ JS.num_to_string (index + 1) ++ "-light")%string
  else if JS.gt (ParsedColor.r color) (ParsedColor.g color)
          && JS.gt (ParsedColor.r color) (ParsedColor.b color) then
    ("primary-" ++ JS.num_to_string (index + 1))%string
  else if JS.gt (ParsedColor.g color) (ParsedColor.r color)
          && JS.gt (ParsedColor.g color) (ParsedColor.b color) then
    ("secondary-" ++ JS.num_to_string (index + 1))%string
  else
    ("semantic-" ++ JS.num_to_string (index + 1))%string.

Definition categorizeColor (color : ParsedColor.t) (index : Z)
  (allColors : list ParsedColor.t) : ColorCategory :=
  let brightness := brightness color in
  if JS.lt brightness JS.d0_3 || JS.gt brightness JS.d0_7 then neutral
  else if JS.gt (ParsedColor.r color) (ParsedColor.g color)
          && JS.gt (ParsedColor.r color) (ParsedColor.b color) then primary
  else if JS.gt (ParsedColor.g color) (ParsedColor.r color)
          && JS.gt (ParsedColor.g color) (ParsedColor.b color) then secondary
  else semantic.

Definition generateColorTokens (colors : list ParsedColor.t) : list ColorToken.t :=
  JS.mapi
    (fun color index =>
       {| ColorToken.name := generateColorName color index colors;
          ColorToken.value := ParsedColor.hex color;
          ColorToken.hex := ParsedColor.hex color;
          ColorToken.rgba := ParsedColor.rgba color;
          ColorToken.category := categorizeColor color index colors |})
    colors.

Definition generateTypographyName (style : ParsedTextStyle.t) (index : Z) : string :=
  let size := ParsedTextStyle.fontSize style in
  let weight := ParsedTextStyle.fontWeight style in
  if size >=? 32 then
    ("heading-" ++ (if weight >=? 700 then "bold" else "regular"))%string
  else if size >=? 24 then
    ("subheading-" ++ (if weight >=? 600 then "semibold" else "regular"))%string
  else if size >=? 18 then
    ("body-large-" ++ (if weight >=? 500 then "medium" else "regular"))%string
  else if size >=? 16 then
    ("body-" ++ (if weight >=? 500 then "medium" else "regular"))%string
  else if size >=? 14 then
    ("body-small-" ++ (if weight >=? 500 then "medium" else "regular"))%string
  else
    ("caption-" ++ (if weight >=? 500 then "medium" else "regular"))%string.

(** The key template of [generateTypographyTokens]. *)
Definition typographyKey (style : ParsedTextStyle.t) : string :=
  (ParsedTextStyle.fontFamily style ++ "-"
   ++ JS.num_to_string (ParsedTextStyle.fontSize style) ++ "-"
   ++ JS.num_to_string (ParsedTextStyle.fontWeight style))%string.

(** The token that the [map] callback of [generateTypographyTokens] builds. *)
Definition toTypographyToken (style : ParsedTextStyle.t) (index : Z) : TypographyToken.t :=
  {| TypographyToken.name := generateTypographyName style index;
     TypographyToken.fontFamily := ParsedTextStyle.fontFamily style;
     TypographyToken.fontSize := ParsedTextStyle.fontSize style;
     TypographyToken.fontWeight := ParsedTextStyle.fontWeight style;
     TypographyToken.lineHeight := ParsedTextStyle.lineHeight style;
     TypographyToken.letterSpacing := ParsedTextStyle.letterSpacing style;
     TypographyToken.textCase := ParsedTextStyle.textCase style |}.

Definition generateTypographyTokens (textStyles : list ParsedTextStyle.t)
  : list TypographyToken.t :=
  let uniqueStyles :=
    fold_left
      (fun (uniqueStyles : JS.Map ParsedTextStyle.t) style =>
         let key := typographyKey style in
         if negb (JS.has uniqueStyles key) then JS.set uniqueStyles key style
         else uniqueStyles)
      textStyles [] in
  JS.mapi toTypographyToken (JS.values uniqueStyles).

Definition generateSpacingTokens (spacing : list Z) : list SpacingToken.t :=
  let uniqueSpacing := JS.sort_ascending (JS.spread_Set spacing) in
  JS.mapi
    (fun value index =>
       let name :=
         if value =? 0 then "none"%string
         else if value <=? 4 then ("xs-" ++ JS.num_to_string index)%string
         else if value <=? 8 then ("sm-" ++ JS.num_to_string index)%string
         else if value <=? 16 then ("md-" ++ JS.num_to_string index)%string
         else if value <=? 24 then ("lg-" ++ JS.num_to_string index)%string
         else if value <=? 32 then ("xl-" ++ JS.num_to_string index)%string
         else ("xxl-" ++ JS.num_to_string index)%string in
       {| SpacingToken.name := name;
          SpacingToken.value := value;
          SpacingToken.category := gap |})
    uniqueSpacing.

Definition generateBorderRadiusTokens (borderRadius : list Z) : list BorderRadiusToken.t :=
  let uniqueRadius := JS.sort_ascending (JS.spread_Set borderRadius) in
  JS.mapi
    (fun value index =>
       let name :=
         if value =? 0 then "none"%string
         else if value <=? 4 then ("sm-" ++ JS.num_to_string index)%string
         else if value <=? 8 then ("md-" ++ JS.num_to_string index)%string
         else if value <=? 16 then ("lg-" ++ JS.num_to_string index)%string
         else ("xl-" ++ JS.num_to_string index)%string in
       {| BorderRadiusToken.name := name; BorderRadiusToken.value := value |})
    uniqueRadius.

(** [[...].filter(v => v !== undefined)]. *)
Definition filter_defined (l : list (option Z)) : list Z :=
  flat_map (fun v => match v with Some v => [v] | None => [] end) l.

(** [s.padding?.left] and the like. *)
Definition side (s : option Sides.t) (f : Sides.t -> Z) : option Z :=
  option_map f s.

(** The array [allSpacingValues] of [generateDesignTokens]. *)
Definition allSpacingValues (parsedDesign : ParsedDesign.t) : list Z :=
  flat_map
    (fun l =>
       [ Sides.left (ParsedAutoLayout.padding l);
         Sides.right (ParsedAutoLayout.padding l);
         Sides.top (ParsedAutoLayout.padding l);
         Sides.bottom (ParsedAutoLayout.padding l);
         ParsedAutoLayout.spacing l ])
    (ParsedDesign.autoLayouts parsedDesign)
  ++
  flat_map
    (fun s =>
       filter_defined
         [ side (ParsedSpacing.padding s) Sides.left;
           side (ParsedSpacing.padding s) Sides.right;
           side (ParsedSpacing.padding s) Sides.top;
           side (ParsedSpacing.padding s) Sides.bottom;
           side (ParsedSpacing.margin s) Sides.left;
           side (ParsedSpacing.margin s) Sides.right;
           side (ParsedSpacing.margin s) Sides.top;
           side (ParsedSpacing.margin s) Sides.bottom;
           ParsedSpacing.gap s ])
    (ParsedDesign.spacing parsedDesign).

Definition generateDesignTokens (parsedDesign : ParsedDesign.t) : DesignTokens.t :=
  let colors := generateColorTokens (ParsedDesign.colors parsedDesign) in
  let typography := generateTypographyTokens (ParsedDesign.textStyles parsedDesign) in
  let spacing := generateSpacingTokens (allSpacingValues parsedDesign) in
  let borderRadius := generateBorderRadiusTokens (ParsedDesign.borderRadius parsedDesign) in
  {| DesignTokens.colors := colors;
     DesignTokens.typography := typography;
     DesignTokens.spacing := spacing;
     DesignTokens.borderRadius := borderRadius |}.

(* ================================================================== *)
(** * Notions used to state the properties *)
(* ================================================================== *)

(** ** The tree and its pre-order listing *)

(** Pre-order listing of a node: the node, then its children's listings in
    their order. *)
Fixpoint preorder_node (node : FigmaNode.t) : list FigmaNode.t :=
  node ::
  match FigmaNode.children node with
  | Some cs => flat_map preorder_node cs
  | None => []
  end.

(** Pre-order listing of a forest: roots in order. *)
Definition preorder (nodes : list FigmaNode.t) : list FigmaNode.t :=
  flat_map preorder_node nodes.

Section NodeInduction.
Variable P : FigmaNode.t -> Prop.
Hypothesis step :
  forall node,
    (forall cs, FigmaNode.children node = Some cs -> Forall P cs) -> P node.

Fixpoint FigmaNode_forall_ind (node : FigmaNode.t) : P node.
Proof.
  apply step.
  destruct node as [? ? ? ch ? ? ? ? ? ? ? ? ? ? ? ?]; simpl.
  intros cs Hcs. destruct ch as [l|]; [|discriminate].
  injection Hcs as <-.
  induction l as [|c l IHl]; constructor.
  - apply FigmaNode_forall_ind.
  - exact IHl.
Defined.
End NodeInduction.

(** ** First-seen deduplication *)

Section FirstSeen.
Context {A K : Type}.
Variable key : A -> K.
Variable K_eq_dec : forall x y : K, {x = y} + {x <> y}.

(** The elements of [l] whose key occurs neither in [seen] nor at an
    earlier element of [l], in the order of [l]. *)
Fixpoint first_seen (seen : list K) (l : list A) : list A :=
  match l with
  | [] => []
  | x :: l' =>
      if in_dec K_eq_dec (key x) seen then first_seen seen l'
      else x :: first_seen (seen ++ [key x]) l'
  end.
End FirstSeen.

Section SetIfNew.
Context {V A : Type}.
Variable key : A -> string.
Variable val : A -> V.

(** The loop body shared by the three [Map]-based deduplications of the
    source: [if (!m.has(key)) m.set(key, value)]. *)
Definition set_if_new (m : JS.Map V) (x : A) : JS.Map V :=
  if negb (JS.has m (key x)) then JS.set m (key x) (val x) else m.
End SetIfNew.

(** ** Colour naming and categorisation *)

(** The brightness in the words of the specification,
    [0.299 r + 0.587 g + 0.114 b], on exact values. *)
Definition spec_brightness (r g b : Q) : Q :=
  (0.299 * r + 0.587 * g + 0.114 * b)%Q.

(** The same sum in double precision: the doubles of the literals [0.299],
    [0.587] and [0.114], every product and sum rounded. *)
Definition spec_brightness_double (r g b : float) : float :=
  (0x1.322d0e5604189p-2 * r + 0x1.2c8b439581062p-1 * g
   + 0x1.d2f1a9fbe76c9p-4 * b)%float.

(** The five classes, in their precedence: each class applies only when
    all the earlier ones do not.  The brightness [B] is
    [(r * 299 + g * 587 + b * 114) / 1000] in double precision, compared
    with the doubles of [0.3] and [0.7]. *)
Definition color_class (color : ParsedColor.t) (k : Z)
  (name : string) (cat : ColorCategory) : Prop :=
  let r := ParsedColor.r color in
  let g := ParsedColor.g color in
  let b := ParsedColor.b color in
  let B := ((r * 299 + g * 587 + b * 114) / 1000)%float in
  let dark := JS.lt B JS.d0_3 = true in
  let light := JS.gt B JS.d0_7 = true in
  let red := JS.gt r g = true /\ JS.gt r b = true in
  let green := JS.gt g r = true /\ JS.gt g b = true in
  (dark ->
     cat = neutral /\ name = ("neutral-" ++ JS.num_to_string k ++ "-dark")%string)
  /\ (~ dark -> light ->
     cat = neutral /\ name = ("neutral-" ++ JS.num_to_string k ++ "-light")%string)
  /\ (~ dark -> ~ light -> red ->
     cat = primary /\ name = ("primary-" ++ JS.num_to_string k)%string)
  /\ (~ dark -> ~ light -> ~ red -> green ->
     cat = secondary /\ name = ("secondary-" ++ JS.num_to_string k)%string)
  /\ (~ dark -> ~ light -> ~ red -> ~ green ->
     cat = semantic /\ name = ("semantic-" ++ JS.num_to_string k)%string).

(** The values of the literals [0.1], [0.8] and [0.2]. *)
Definition d0_1 : float := 0x1.999999999999ap-4.
Definition d0_8 : float := 0x1.999999999999ap-1.
Definition d0_2 : float := 0x1.999999999999ap-3.

Definition sample_colors : list ParsedColor.t :=
  [ ParsedColor.mk d0_1 d0_1 d0_1 1 "#1A1A1A" "rgba(26, 26, 26, 1.00)";
    ParsedColor.mk d0_8 d0_2 d0_2 1 "#CC3333" "rgba(204, 51, 51, 1.00)" ].

(** The double that follows the double of [0.7]: 0.7000000000000001. *)
Definition after_0_7 : float := 0x1.6666666666667p-1.

(** The grey with the three channels at [after_0_7], as [extractColors]
    stores it. *)
Definition boundary_grey : ParsedColor.t :=
  ParsedColor.mk after_0_7 after_0_7 after_0_7 1
    "#B3B3B3" "rgba(179, 179, 179, 1.00)".

(** The name carries the category's prefix for the number [k], and no other
    category's. *)
Definition name_agrees_with_category (name : string) (k : Z) (cat : ColorCategory)
  : Prop :=
  (cat = neutral <->
     name = ("neutral-" ++ JS.num_to_string k ++ "-dark")%string
     \/ name = ("neutral-" ++ JS.num_to_string k ++ "-light")%string)
  /\ (cat = primary <-> name = ("primary-" ++ JS.num_to_string k)%string)
  /\ (cat = secondary <-> name = ("secondary-" ++ JS.num_to_string k)%string)
  /\ (cat = semantic <-> name = ("semantic-" ++ JS.num_to_string k)%string).

(** ** Border radius *)

(** The numbers a node's [cornerRadius] contributes: the single number, or
    the four corners. *)
Definition radius_values (node : FigmaNode.t) : list Z :=
  match FigmaNode.cornerRadius node with
  | Some (Uniform radius) => [radius]
  | Some (Corners topLeft topRight bottomLeft bottomRight) =>
      [topLeft; topRight; bottomLeft; bottomRight]
  | None => []
  end.

(** ** Spacing tokens *)

Definition sides_values (p : Sides.t) : list Z :=
  [Sides.left p; Sides.right p; Sides.top p; Sides.bottom p].

(** [v] is a padding, margin or gap value of one of the two extraction
    results. *)
Definition spacing_value_source (parsedDesign : ParsedDesign.t) (v : Z) : Prop :=
  (exists l, In l (ParsedDesign.autoLayouts parsedDesign)
             /\ (In v (sides_values (ParsedAutoLayout.padding l))
                 \/ v = ParsedAutoLayout.spacing l))
  \/ (exists s, In s (ParsedDesign.spacing parsedDesign)
                /\ ((exists p, ParsedSpacing.padding s = Some p
                               /\ In v (sides_values p))
                    \/ (exists m, ParsedSpacing.margin s = Some m
                                  /\ In v (sides_values m))
                    \/ ParsedSpacing.gap s = Some v)).

(** The name the specification gives to the value [v] at position [index]
    of the sorted, deduplicated sequence. *)
Definition spacing_name_rule (v index : Z) (name : string) : Prop :=
  (v = 0 -> name = "none"%string)
  /\ (v <> 0 -> v <= 4 -> name = ("xs-" ++ JS.num_to_string index)%string)
  /\ (4 < v <= 8 -> name = ("sm-" ++ JS.num_to_string index)%string)
  /\ (8 < v <= 16 -> name = ("md-" ++ JS.num_to_string index)%string)
  /\ (16 < v <= 24 -> name = ("lg-" ++ JS.num_to_string index)%string)
  /\ (24 < v <= 32 -> name = ("xl-" ++ JS.num_to_string index)%string)
  /\ (32 < v -> name = ("xxl-" ++ JS.num_to_string index)%string).

(** ** Spacing records never carry a margin *)

(** [v] comes from an auto-layout record (a padding side or the item
    spacing) or from a spacing record's padding side or gap. *)
Definition spacing_value_origin (nodes : list FigmaNode.t) (v : Z) : Prop :=
  (exists l, In l (extractAutoLayoutInfo nodes)
             /\ (In v (sides_values (ParsedAutoLayout.padding l))
                 \/ v = ParsedAutoLayout.spacing l))
  \/ (exists s, In s (extractSpacing nodes)
                /\ ((exists p, ParsedSpacing.padding s = Some p
                               /\ In v (sides_values p))
                    \/ ParsedSpacing.gap s = Some v)).

(** What the four margin reads of [generateDesignTokens] add for one
    spacing record. *)
Definition margin_reads (s : ParsedSpacing.t) : list Z :=
  filter_defined
    [ side (ParsedSpacing.margin s) Sides.left;
      side (ParsedSpacing.margin s) Sides.right;
      side (ParsedSpacing.margin s) Sides.top;
      side (ParsedSpacing.margin s) Sides.bottom ].

(** ** Text styles *)

(** The style a node offers to [extractTextStyles]: the [style] of a node
    of type TEXT. *)
Definition node_text_style (node : FigmaNode.t) : list Style.t :=
  match FigmaNode.style node with
  | Some style => if String.eqb (FigmaNode.type node) "TEXT" then [style] else []
  | None => []
  end.

(** The styles of the TEXT nodes of a forest, in pre-order. *)
Definition text_style_candidates (nodes : list FigmaNode.t) : list Style.t :=
  flat_map node_text_style (preorder nodes).

(** A TEXT node carrying the given typography fields and nothing else. *)
Definition text_node (style : Style.t) : FigmaNode.t :=
  {| FigmaNode.id := "1:1"; FigmaNode.name := "label"; FigmaNode.type := "TEXT";
     FigmaNode.children := None; FigmaNode.fills := None;
     FigmaNode.strokes := None; FigmaNode.effects := None;
     FigmaNode.characters := Some "hello"%string;
     FigmaNode.style := Some style;
     FigmaNode.layoutMode := None;
     FigmaNode.paddingLeft := None; FigmaNode.paddingRight := None;
     FigmaNode.paddingTop := None; FigmaNode.paddingBottom := None;
     FigmaNode.itemSpacing := None; FigmaNode.cornerRadius := None |}.

(** The line height and letter spacing that the stored record [t] has for
    the source style [style]. *)
Definition line_height_rule (style : Style.t) (t : ParsedTextStyle.t) : Prop :=
  match Style.lineHeight style with
  | Some (WithUnit value _) => ParsedTextStyle.lineHeight t = value
  | Some (Plain n) =>
      (n <> 0 -> ParsedTextStyle.lineHeight t = n)
      /\ (n = 0 -> ParsedTextStyle.lineHeight t = ParsedTextStyle.fontSize t)
  | None => ParsedTextStyle.lineHeight t = ParsedTextStyle.fontSize t
  end.

Definition letter_spacing_rule (style : Style.t) (t : ParsedTextStyle.t) : Prop :=
  match Style.letterSpacing style with
  | Some (WithUnit value _) => ParsedTextStyle.letterSpacing t = value
  | Some (Plain n) => ParsedTextStyle.letterSpacing t = n
  | None => ParsedTextStyle.letterSpacing t = 0
  end.

(** The font size of the stored record: the node's, or 16 when the node has
    none (or has 0). *)
Definition font_size_rule (style : Style.t) (t : ParsedTextStyle.t) : Prop :=
  match Style.fontSize style with
  | Some n => (n <> 0 -> ParsedTextStyle.fontSize t = n)
              /\ (n = 0 -> ParsedTextStyle.fontSize t = 16)
  | None => ParsedTextStyle.fontSize t = 16
  end.

Definition zero_line_height_style : Style.t :=
  Style.mk (Some "Inter"%string) (Some 20) (Some 400) (Some (Plain 0)) None None.

(** ** Colours *)

(** The colours of the entries of kind SOLID that carry a colour, in the
    order of the array; nothing for an absent array. *)
Definition solid_colors (paints : option (list Paint.t)) : list Color.t :=
  match paints with
  | Some l =>
      flat_map
        (fun p =>
           match Paint.color p with
           | Some c => if String.eqb (Paint.type p) "SOLID" then [c] else []
           | None => []
           end) l
  | None => []
  end.

(** The colours of the effects that carry a colour, whatever their type. *)
Definition effect_colors (effects : option (list Paint.t)) : list Color.t :=
  match effects with
  | Some l =>
      flat_map (fun p => match Paint.color p with Some c => [c] | None => [] end) l
  | None => []
  end.

(** The candidates of one node: fills, then strokes, then effects. *)
Definition node_color_candidates (node : FigmaNode.t) : list Color.t :=
  solid_colors (FigmaNode.fills node)
  ++ solid_colors (FigmaNode.strokes node)
  ++ effect_colors (FigmaNode.effects node).

(** The candidates of a forest, nodes in pre-order. *)
Definition color_candidates (nodes : list FigmaNode.t) : list Color.t :=
  flat_map node_color_candidates (preorder nodes).

(** The deduplication key of a candidate. *)
Definition color_key (c : Color.t) : string :=
  rgbToHex (Color.r c) (Color.g c) (Color.b c).

(** The record [extractColorFromFill] stores for a candidate. *)
Definition toParsedColor (c : Color.t) : ParsedColor.t :=
  let a := match Color.a c with Some a => a | None => 1%float end in
  ParsedColor.mk (Color.r c) (Color.g c) (Color.b c) a
    (rgbToHex (Color.r c) (Color.g c) (Color.b c))
    (rgbToRgba (Color.r c) (Color.g c) (Color.b c) a).

(** Upper-case hexadecimal digit of a number below 16. *)
Definition hex_digit (d : Z) : ascii :=
  match String.get (Z.to_nat d) "0123456789ABCDEF" with
  | Some c => c
  | None => "0"%char
  end.

(** Two upper-case hexadecimal digits of a number below 256. *)
Definition hex_byte (n : Z) : string :=
  String (hex_digit (n / 16)) (String (hex_digit (n mod 16)) EmptyString).

(** The 8-bit level of a channel: [Math.round(channel * 255)], an integer
    when the product is finite. *)
Definition channel_level (x : float) : option Z := JS.round (x * 255)%float.

(** A channel between 0 and 1. *)
Definition normalized (x : float) : Prop :=
  JS.le 0 x = true /\ JS.le x 1 = true.

(** The three channels lie between 0 and 1. *)
Definition normalized_color (c : Color.t) : Prop :=
  normalized (Color.r c) /\ normalized (Color.g c) /\ normalized (Color.b c).

(** The three channels of [c] round to the levels [lr], [lg], [lb], and
    these are 8-bit levels. *)
Definition has_levels (c : Color.t) (lr lg lb : Z) : Prop :=
  channel_level (Color.r c) = Some lr
  /\ channel_level (Color.g c) = Some lg
  /\ channel_level (Color.b c) = Some lb
  /\ 0 <= lr <= 255 /\ 0 <= lg <= 255 /\ 0 <= lb <= 255.

(** The weight of the exponent [e] at the scale [2^1200], at which the
    value of every finite double is an integer. *)
Definition scale (e : Z) : Z := 2 ^ (e + 1200).

(** A level over 255 in double precision is 0 for the level 0, and else a
    positive double that, times 255, is within [2^-40] of the level. *)
Definition decoded_ok (l : Z) (f : spec_float) : bool :=
  match f with
  | S754_zero false => l =? 0
  | S754_finite false my ey =>
      (0 <? l) && (-1074 <=? ey) && (ey <=? -52)
      && (Z.abs (255 * Zpos my - l * 2 ^ (- ey)) <=? 2 ^ (- ey - 40))
  | _ => false
  end.




(** [toHex] on an integer level, before the rounding. *)
Definition toHex_level (n : Z) : string :=
  let hex := JS.toString16 n in
  if (String.length hex =? 1)%nat then ("0" ++ hex)%string else hex.

(** ** Typography tokens *)

(** The (fontFamily, fontSize, fontWeight) triple of a style. *)
Definition style_triple (style : ParsedTextStyle.t) : string * Z * Z :=
  (ParsedTextStyle.fontFamily style, ParsedTextStyle.fontSize style,
   ParsedTextStyle.fontWeight style).

Definition token_triple (token : TypographyToken.t) : string * Z * Z :=
  (TypographyToken.fontFamily token, TypographyToken.fontSize token,
   TypographyToken.fontWeight token).

Definition triple_eq_dec (x y : string * Z * Z) : {x = y} + {x <> y}.
Proof. repeat decide equality. Defined.

(** Deduplication on the triple, as the specification words it: the first
    style of each triple, in input order. *)
Definition dedup_on_triple (textStyles : list ParsedTextStyle.t)
  : list ParsedTextStyle.t :=
  first_seen style_triple triple_eq_dec [] textStyles.

(** The name the specification gives to a font size and weight. *)
Definition typography_name_rule (size weight : Z) (name : string) : Prop :=
  (32 <= size ->
     (700 <= weight -> name = "heading-bold"%string)
     /\ (weight < 700 -> name = "heading-regular"%string))
  /\ (24 <= size < 32 ->
     (600 <= weight -> name = "subheading-semibold"%string)
     /\ (weight < 600 -> name = "subheading-regular"%string))
  /\ (18 <= size < 24 ->
     (500 <= weight -> name = "body-large-medium"%string)
     /\ (weight < 500 -> name = "body-large-regular"%string))
  /\ (16 <= size < 18 ->
     (500 <= weight -> name = "body-medium"%string)
     /\ (weight < 500 -> name = "body-regular"%string))
  /\ (14 <= size < 16 ->
     (500 <= weight -> name = "body-small-medium"%string)
     /\ (weight < 500 -> name = "body-small-regular"%string))
  /\ (size < 14 ->
     (500 <= weight -> name = "caption-medium"%string)
     /\ (weight < 500 -> name = "caption-regular"%string)).

(** No hyphen among the characters of a string. *)
Fixpoint hyphen_free (s : string) : bool :=
  match s with
  | EmptyString => true
  | String c s' => negb (Ascii.eqb c "-") && hyphen_free s'
  end.

(** Sizes and weights that are not negative print without a hyphen. *)
Definition nonnegative_style (style : ParsedTextStyle.t) : Prop :=
  0 <= ParsedTextStyle.fontSize style /\ 0 <= ParsedTextStyle.fontWeight style.

Definition sample_text_styles : list ParsedTextStyle.t :=
  [ ParsedTextStyle.mk "Inter" 32 700 40 0 None;
    ParsedTextStyle.mk "Inter" 16 400 24 0 None;
    ParsedTextStyle.mk "Inter" 32 700 36 0 None ].

(** ** A small design *)

(** A FRAME with the fill #3B82F6 and two TEXT children, the first with
    style Inter 32/700, the second with style Inter 16/400. *)
Definition sample_frame : FigmaNode.t :=
  {| FigmaNode.id := "0:1"; FigmaNode.name := "card"; FigmaNode.type := "FRAME";
     FigmaNode.children :=
       Some [ text_node (Style.mk (Some "Inter"%string) (Some 32) (Some 700)
                           None None None);
              text_node (Style.mk (Some "Inter"%string) (Some 16) (Some 400)
                           None None None) ];
     FigmaNode.fills :=
       Some [ Paint.mk "SOLID"
                (Some (Color.mk (59 / 255)%float (130 / 255)%float
                         (246 / 255)%float (Some 1%float)))
                None ];
     FigmaNode.strokes := None; FigmaNode.effects := None;
     FigmaNode.characters := None; FigmaNode.style := None;
     FigmaNode.layoutMode := None;
     FigmaNode.paddingLeft := None; FigmaNode.paddingRight := None;
     FigmaNode.paddingTop := None; FigmaNode.paddingBottom := None;
     FigmaNode.itemSpacing := None; FigmaNode.cornerRadius := None |}.

(* ================================================================== *)
(** * Code generator: the React component ([code-generator.ts]) *)
(* ================================================================== *)

Definition is_lower (c : ascii) : bool :=
  let n := nat_of_ascii c in ((97 <=? n) && (n <=? 122))%nat.

Definition is_upper (c : ascii) : bool :=
  let n := nat_of_ascii c in ((65 <=? n) && (n <=? 90))%nat.

Definition is_digit (c : ascii) : bool :=
  let n := nat_of_ascii c in ((48 <=? n) && (n <=? 57))%nat.

(** The character class [[a-zA-Z0-9]]. *)
Definition is_alnum (c : ascii) : bool := is_lower c || is_upper c || is_digit c.

(** [s.replace(/[^a-zA-Z0-9]/g, '')]. *)
Fixpoint strip_non_alnum (s : string) : string :=
  match s with
  | EmptyString => EmptyString
  | String c s' =>
      if is_alnum c then String c (strip_non_alnum s') else strip_non_alnum s'
  end.

(** [s.replace(/^[a-z]/, (match) => match.toUpperCase())]. *)
Definition upper_first_lower (s : string) : string :=
  match s with
  | String c s' => if is_lower c then String (JS.upper_ascii c) s' else s
  | EmptyString => EmptyString
  end.

(** [s.replace(/-([a-z])/g, (_, letter) => letter.toUpperCase())]. *)
Fixpoint camel_after_hyphen (s : string) : string :=
  match s with
  | EmptyString => EmptyString
  | String c s' =>
      match s' with
      | String d s'' =>
          if Ascii.eqb c "-" && is_lower d
          then String (JS.upper_ascii d) (camel_after_hyphen s'')
          else String c (camel_after_hyphen s')
      | EmptyString => String c EmptyString
      end
  end.

(** [a || d] on strings: the empty string is falsy. *)
Definition or_default (a d : string) : string :=
  match a with
  | EmptyString => d
  | _ => a
  end.

(** The [componentName] of [generateReactComponent]. *)
Definition componentName (node : FigmaNode.t) : string :=
  or_default
    (camel_after_hyphen (upper_first_lower (strip_non_alnum (FigmaNode.name node))))
    "Component".

(** [tokens.find(t => t.value === v)?.name || 'md-0'] on spacing tokens. *)
Definition spacing_name_for (spacing : list SpacingToken.t) (v : Z) : string :=
  match find (fun s => SpacingToken.value s =? v) spacing with
  | Some token => or_default (SpacingToken.name token) "md-0"
  | None => "md-0"%string
  end.

(** [tokens.borderRadius.find(r => r.value === v)?.name || 'md-0']. *)
Definition radius_name_for (borderRadius : list BorderRadiusToken.t) (v : Z) : string :=
  match find (fun r => BorderRadiusToken.value r =? v) borderRadius with
  | Some token => or_default (BorderRadiusToken.name token) "md-0"
  | None => "md-0"%string
  end.

(** The [gap] class of [generateReactComponent]. *)
Definition gapClass (node : FigmaNode.t) (tokens : DesignTokens.t) : string :=
  match FigmaNode.itemSpacing node with
  | Some v =>
      if negb (v =? 0)
      then ("gap-" ++ spacing_name_for (DesignTokens.spacing tokens) v)%string
      else ""%string
  | None => ""%string
  end.

(** One [if (node.paddingX) paddingClasses.push(...)] statement. *)
Definition push_padding_class (prefix : string) (side : option Z)
  (tokens : DesignTokens.t) (paddingClasses : list string) : list string :=
  match side with
  | Some v =>
      if negb (v =? 0)
      then paddingClasses
           ++ [(prefix ++ spacing_name_for (DesignTokens.spacing tokens) v)%string]
      else paddingClasses
  | None => paddingClasses
  end.

(** The array [paddingClasses] of [generateReactComponent]. *)
Definition paddingClasses (node : FigmaNode.t) (tokens : DesignTokens.t) : list string :=
  push_padding_class "pb-" (FigmaNode.paddingBottom node) tokens
    (push_padding_class "pt-" (FigmaNode.paddingTop node) tokens
       (push_padding_class "pr-" (FigmaNode.paddingRight node) tokens
          (push_padding_class "pl-" (FigmaNode.paddingLeft node) tokens []))).

(** [arr.join(sep)] on strings. *)
Fixpoint join (sep : string) (arr : list string) : string :=
  match arr with
  | [] => EmptyString
  | [x] => x
  | x :: arr' => (x ++ sep ++ join sep arr')%string
  end.

(** Value of a hexadecimal digit, either case. *)
Definition hex_value (c : ascii) : option Z :=
  let n := Z.of_nat (nat_of_ascii c) in
  if is_digit c then Some (n - 48)
  else if ((97 <=? n) && (n <=? 102))%Z then Some (n - 87)
  else if ((65 <=? n) && (n <=? 70))%Z then Some (n - 55)
  else None.

(** [parseInt(xy, 16)] for a group of the pattern: two hexadecimal digits. *)
Definition parse_hex_pair (x y : ascii) : option Z :=
  match hex_value x, hex_value y with
  | Some a, Some b => Some (16 * a + b)
  | _, _ => None
  end.

(** The local function [hexToRgb] of [generateReactComponent]: the pattern
    [/^#?([a-f\d]{2})([a-f\d]{2})([a-f\d]{2})$/i], then each group parsed
    in base 16 and divided by 255. *)
Definition hexToRgb (hex : string) : option (float * float * float) :=
  let digits :=
    match hex with
    | String "#" rest => rest
    | _ => hex
    end in
  match digits with
  | String r1 (String r2 (String g1 (String g2 (String b1 (String b2 EmptyString))))) =>
      match parse_hex_pair r1 r2, parse_hex_pair g1 g2, parse_hex_pair b1 b2 with
      | Some r, Some g, Some b =>
          Some ((JS.of_int r / 255)%float, (JS.of_int g / 255)%float,
                (JS.of_int b / 255)%float)
      | _, _, _ => None
      end
  | _ => None
  end.

(** The predicate handed to [tokens.colors.find] when looking for the
    background colour. *)
Definition matches_bgColor (bgColor : Color.t) (c : ColorToken.t) : bool :=
  match hexToRgb (ColorToken.hex c) with
  | Some (r, g, b) =>
      JS.lt (PrimFloat.abs (r - Color.r bgColor)) JS.d0_01
      && JS.lt (PrimFloat.abs (g - Color.g bgColor)) JS.d0_01
      && JS.lt (PrimFloat.abs (b - Color.b bgColor)) JS.d0_01
  | None => false
  end.

(** [node.fills?.[0]?.color]. *)
Definition bgColor (node : FigmaNode.t) : option Color.t :=
  match FigmaNode.fills node with
  | Some (fill :: _) => Paint.color fill
  | _ => None
  end.

(** The [bgClass] of [generateReactComponent]. *)
Definition bgClass (node : FigmaNode.t) (tokens : DesignTokens.t) : string :=
  match bgColor node with
  | Some bgColor =>
      let name :=
        match find (matches_bgColor bgColor) (DesignTokens.colors tokens) with
        | Some matchingToken => or_default (ColorToken.name matchingToken) "neutral-1"
        | None => "neutral-1"%string
        end in
      ("bg-" ++ name)%string
  | None => ""%string
  end.

(** The [radiusClass] of [generateReactComponent]. *)
Definition radiusClass (node : FigmaNode.t) (tokens : DesignTokens.t) : string :=
  match FigmaNode.cornerRadius node with
  | Some (Uniform borderRadius) =>
      if borderRadius >? 0
      then ("rounded-"
            ++ radius_name_for (DesignTokens.borderRadius tokens) borderRadius)%string
      else ""%string
  | _ => ""%string
  end.

Definition newline : string := String (ascii_of_nat 10) EmptyString.

(** The [children] text of [generateReactComponent]. *)
Definition childrenMarkup (node : FigmaNode.t) : string :=
  match FigmaNode.children node with
  | Some (c :: cs) =>
      join newline
        (map (fun child =>
                ("      <" ++ or_default (strip_non_alnum (FigmaNode.name child)) "Child"
                 ++ " />")%string)
             (c :: cs))
  | _ => "      {/* Add children here */}"%string
  end.

Definition generateReactComponent (node : FigmaNode.t) (tokens : DesignTokens.t)
  : string :=
  let componentName := componentName node in
  let hasAutoLayout :=
    match FigmaNode.layoutMode node with
    | Some HORIZONTAL | Some VERTICAL => true
    | _ => false
    end in
  let flexDirection :=
    match FigmaNode.layoutMode node with
    | Some HORIZONTAL => "row"%string
    | _ => "column"%string
    end in
  let gap := gapClass node tokens in
  let paddingClasses := paddingClasses node tokens in
  let bgClass := bgClass node tokens in
  let radiusClass := radiusClass node tokens in
  let children := childrenMarkup node in
  ("import React from 'react';" ++ newline
   ++ newline
   ++ "interface " ++ componentName ++ "Props {" ++ newline
   ++ "  className?: string;" ++ newline
   ++ "  children?: React.ReactNode;" ++ newline
   ++ "}" ++ newline
   ++ newline
   ++ "export const " ++ componentName ++ ": React.FC<" ++ componentName
   ++ "Props> = ({ className = '', children }) => {" ++ newline
   ++ "  return (" ++ newline
   ++ "    <div className={`"
   ++ (if hasAutoLayout then "flex flex-" ++ flexDirection else "") ++ " "
   ++ gap ++ " " ++ join " " paddingClasses ++ " " ++ bgClass ++ " "
   ++ radiusClass ++ " ${className}`}>" ++ newline
   ++ children ++ newline
   ++ "    </div>" ++ newline
   ++ "  );" ++ newline
   ++ "};" ++ newline
   ++ newline
   ++ "export default " ++ componentName ++ ";")%string.

(* ================================================================== *)
(** * Further notions *)
(* ================================================================== *)

(** [x || 0] on an optional number, spelled out: the number, or 0. *)
Definition number_or_zero (x : option Z) : Z :=
  match x with
  | Some v => v
  | None => 0
  end.

(** The node has an auto-layout direction: HORIZONTAL or VERTICAL. *)
Definition has_auto_layout (node : FigmaNode.t) : bool :=
  match FigmaNode.layoutMode node with
  | Some HORIZONTAL | Some VERTICAL => true
  | _ => false
  end.

(** The four paddings of a node, absent ones as 0. *)
Definition node_padding (node : FigmaNode.t) : Sides.t :=
  {| Sides.left := number_or_zero (FigmaNode.paddingLeft node);
     Sides.right := number_or_zero (FigmaNode.paddingRight node);
     Sides.top := number_or_zero (FigmaNode.paddingTop node);
     Sides.bottom := number_or_zero (FigmaNode.paddingBottom node) |}.

(** Some padding of the node is present and not 0. *)
Definition has_padding (node : FigmaNode.t) : bool :=
  negb (Sides.left (node_padding node) =? 0)
  || negb (Sides.right (node_padding node) =? 0)
  || negb (Sides.top (node_padding node) =? 0)
  || negb (Sides.bottom (node_padding node) =? 0).

(** The record [extractAutoLayoutInfo] pushes for a node with auto layout:
    the node's direction, its paddings and its item spacing, an absent
    value counted as 0. *)
Definition auto_layout_of (node : FigmaNode.t) : ParsedAutoLayout.t :=
  {| ParsedAutoLayout.direction :=
       match FigmaNode.layoutMode node with Some m => m | None => NONE end;
     ParsedAutoLayout.padding := node_padding node;
     ParsedAutoLayout.spacing := number_or_zero (FigmaNode.itemSpacing node) |}.

(** The node contributes a spacing record. *)
Definition has_spacing (node : FigmaNode.t) : bool :=
  has_padding node
  || match FigmaNode.itemSpacing node with Some _ => true | None => false end.

(** A HORIZONTAL frame with paddings 16, 16, 0 and none, item spacing 8,
    corner radius 8, a SOLID fill and one text child. *)
Definition sample_card : FigmaNode.t :=
  {| FigmaNode.id := "2:1"; FigmaNode.name := "card-item 1";
     FigmaNode.type := "FRAME";
     FigmaNode.children :=
       Some [ text_node (Style.mk (Some "Inter"%string) (Some 16) (Some 400)
                           None None None) ];
     FigmaNode.fills :=
       Some [ Paint.mk "SOLID" (Some (Color.mk d0_8 d0_2 d0_2 None)) None ];
     FigmaNode.strokes := None; FigmaNode.effects := None;
     FigmaNode.characters := None; FigmaNode.style := None;
     FigmaNode.layoutMode := Some HORIZONTAL;
     FigmaNode.paddingLeft := Some 16; FigmaNode.paddingRight := Some 16;
     FigmaNode.paddingTop := Some 0; FigmaNode.paddingBottom := None;
     FigmaNode.itemSpacing := Some 8;
     FigmaNode.cornerRadius := Some (Uniform 8) |}.

(** The style names a font family and a font size that the [||] defaults
    leave alone: a family that is not empty, a size that is not 0. *)
Definition names_family_and_size (style : Style.t) : Prop :=
  (exists f, Style.fontFamily style = Some f /\ f <> EmptyString)
  /\ (exists n, Style.fontSize style = Some n /\ n <> 0).

(** The token that the [map] callback of [generateSpacingTokens] builds. *)
Definition spacing_token_of (value index : Z) : SpacingToken.t :=
  let name :=
    if value =? 0 then "none"%string
    else if value <=? 4 then ("xs-" ++ JS.num_to_string index)%string
    else if value <=? 8 then ("sm-" ++ JS.num_to_string index)%string
    else if value <=? 16 then ("md-" ++ JS.num_to_string index)%string
    else if value <=? 24 then ("lg-" ++ JS.num_to_string index)%string
    else if value <=? 32 then ("xl-" ++ JS.num_to_string index)%string
    else ("xxl-" ++ JS.num_to_string index)%string in
  {| SpacingToken.name := name;
     SpacingToken.value := value;
     SpacingToken.category := gap |}.

(** The token that the [map] callback of [generateBorderRadiusTokens]
    builds. *)
Definition radius_token_of (value index : Z) : BorderRadiusToken.t :=
  let name :=
    if value =? 0 then "none"%string
    else if value <=? 4 then ("sm-" ++ JS.num_to_string index)%string
    else if value <=? 8 then ("md-" ++ JS.num_to_string index)%string
    else if value <=? 16 then ("lg-" ++ JS.num_to_string index)%string
    else ("xl-" ++ JS.num_to_string index)%string in
  {| BorderRadiusToken.name := name; BorderRadiusToken.value := value |}.

(** The name of the radius [v] at position [index]. *)
Definition radius_name_rule (v index : Z) (name : string) : Prop :=
  (v = 0 -> name = "none"%string)
  /\ (v <> 0 -> v <= 4 -> name = ("sm-" ++ JS.num_to_string index)%string)
  /\ (4 < v <= 8 -> name = ("md-" ++ JS.num_to_string index)%string)
  /\ (8 < v <= 16 -> name = ("lg-" ++ JS.num_to_string index)%string)
  /\ (16 < v -> name = ("xl-" ++ JS.num_to_string index)%string).

(** Every character of the string satisfies [p]. *)
Fixpoint string_all (p : ascii -> bool) (s : string) : bool :=
  match s with
  | EmptyString => true
  | String c s' => p c && string_all p s'
  end.

(* ================================================================== *)
(** * API converter: paints ([figma-api-converter.ts]) *)
(* ================================================================== *)

(** An entry of [fills], [strokes] or [effects] of a node as the Figma API
    returns it; [opacity] is read on fills and strokes, [visible] on
    effects. *)
Module ApiPaint.
Record t := mk {
  type : string;
  color : option Color.t;
  opacity : option float;
  visible : option bool
}.
End ApiPaint.

(** [a ?? b]. *)
Definition nullish {A : Type} (a : option A) (b : A) : A :=
  match a with
  | Some v => v
  | None => b
  end.

(** What the [filter], [map], [filter] chain of the block "Convert fills"
    of [convertApiNodeToInternal] makes of one fill: nothing, or the
    converted fill. *)
Definition convertFill (fill : ApiPaint.t) : list Paint.t :=
  match ApiPaint.color fill with
  | Some color =>
      if String.eqb (ApiPaint.type fill) "SOLID" then
        [ {| Paint.type := ApiPaint.type fill;
             Paint.color :=
               Some {| Color.r := Color.r color;
                       Color.g := Color.g color;
                       Color.b := Color.b color;
                       Color.a :=
                         Some (nullish (Color.a color)
                                 (nullish (ApiPaint.opacity fill) 1%float)) |};
             Paint.opacity := ApiPaint.opacity fill |} ]
      else []
  | None => []
  end.

(** The same for one stroke of the block "Convert strokes". *)
Definition convertStroke (stroke : ApiPaint.t) : list Paint.t :=
  match ApiPaint.color stroke with
  | Some color =>
      if String.eqb (ApiPaint.type stroke) "SOLID" then
        [ {| Paint.type := ApiPaint.type stroke;
             Paint.color :=
               Some {| Color.r := Color.r color;
                       Color.g := Color.g color;
                       Color.b := Color.b color;
                       Color.a :=
                         Some (nullish (Color.a color)
                                 (nullish (ApiPaint.opacity stroke) 1%float)) |};
             Paint.opacity := None |} ]
      else []
  | None => []
  end.

(** The same for one effect of the block "Convert effects". *)
Definition convertEffect (effect : ApiPaint.t) : list Paint.t :=
  match ApiPaint.visible effect, ApiPaint.color effect with
  | Some false, _ => []
  | _, Some color =>
      [ {| Paint.type := ApiPaint.type effect;
           Paint.color :=
             Some {| Color.r := Color.r color;
                     Color.g := Color.g color;
                     Color.b := Color.b color;
                     Color.a := Some (nullish (Color.a color) 1%float) |};
           Paint.opacity := None |} ]
  | _, None => []
  end.

(** [if (arr && arr.length > 0) internalNode.field = arr.filter(..).map(..)]:
    the value of the field, [None] when it is left unset. *)
Definition convertPaints (convert : ApiPaint.t -> list Paint.t)
  (arr : option (list ApiPaint.t)) : option (list Paint.t) :=
  match arr with
  | Some (x :: arr') => Some (flat_map convert (x :: arr'))
  | _ => None
  end.

Definition convertFills := convertPaints convertFill.
Definition convertStrokes := convertPaints convertStroke.
Definition convertEffects := convertPaints convertEffect.

(** The paints an array holds, none for an unset field. *)
Definition paints_of (field : option (list Paint.t)) : list Paint.t :=
  match field with
  | Some l => l
  | None => []
  end.

(* ================================================================== *)
(** * The tree and its pre-order listing *)
(* ================================================================== *)

Section TraverseFacts.
Context {S : Type}.
Variable visit : FigmaNode.t -> S -> S.

Lemma fold_left_traverse_flat (cs : list FigmaNode.t) :
  Forall (fun c => forall s,
              traverse visit c s
              = fold_left (fun acc n => visit n acc) (preorder_node c) s) cs ->
  forall s,
    fold_left (fun acc c => traverse visit c acc) cs s
    = fold_left (fun acc n => visit n acc) (flat_map preorder_node cs) s.
Proof.
  induction 1 as [|c cs Hc _ IH]; intros s; simpl.
  - reflexivity.
  - rewrite fold_left_app, <- Hc. apply IH.
Qed.

Lemma traverse_preorder_node (node : FigmaNode.t) :
  forall s,
    traverse visit node s
    = fold_left (fun acc n => visit n acc) (preorder_node node) s.
Proof.
  induction node as [node IH] using FigmaNode_forall_ind.
  intros s. destruct node as [? ? ? ch ? ? ? ? ? ? ? ? ? ? ? ?].
  simpl in *. destruct ch as [cs|]; [|reflexivity].
  apply fold_left_traverse_flat. apply IH. reflexivity.
Qed.

(** Walking a forest is a left fold of the per-node action over the
    pre-order listing. *)
Lemma forEach_traverse_preorder (nodes : list FigmaNode.t) (s : S) :
  forEach_traverse visit nodes s
  = fold_left (fun acc n => visit n acc) (preorder nodes) s.
Proof.
  unfold forEach_traverse, preorder.
  apply fold_left_traverse_flat.
  apply Forall_forall. intros c _. apply traverse_preorder_node.
Qed.
End TraverseFacts.

(* ================================================================== *)
(** * First-seen deduplication *)
(* ================================================================== *)

Section FirstSeenFacts.
Context {A K : Type}.
Variable key : A -> K.
Variable K_eq_dec : forall x y : K, {x = y} + {x <> y}.

Lemma first_seen_incl (l : list A) :
  forall seen x, In x (first_seen key K_eq_dec seen l) -> In x l /\ ~ In (key x) seen.
Proof.
  induction l as [|y l IH]; intros seen x Hx; simpl in *.
  - contradiction.
  - destruct (in_dec K_eq_dec (key y) seen) as [Hin|Hnin].
    + apply IH in Hx. tauto.
    + destruct Hx as [<-|Hx]; [tauto|].
      apply IH in Hx. destruct Hx as [Hl Hs]. split; [tauto|].
      intros Hk. apply Hs. apply in_or_app. now left.
Qed.

Lemma first_seen_NoDup (l : list A) :
  forall seen, NoDup (map key (first_seen key K_eq_dec seen l)).
Proof.
  induction l as [|y l IH]; intros seen; simpl.
  - constructor.
  - destruct (in_dec K_eq_dec (key y) seen) as [Hin|Hnin]; [apply IH|].
    simpl. constructor; [|apply IH].
    intros Hk. apply in_map_iff in Hk. destruct Hk as [z [Hz Hin]].
    apply first_seen_incl in Hin. destruct Hin as [_ Hs].
    apply Hs. rewrite Hz. apply in_or_app. right. now left.
Qed.

(** Every key of [l] that is not in [seen] is represented. *)
Lemma first_seen_complete (l : list A) :
  forall seen x,
    In x l -> ~ In (key x) seen ->
    exists y, In y (first_seen key K_eq_dec seen l) /\ key y = key x.
Proof.
  induction l as [|y l IH]; intros seen x Hx Hs; simpl in *.
  - contradiction.
  - destruct (in_dec K_eq_dec (key y) seen) as [Hin|Hnin].
    + destruct Hx as [->|Hx]; [contradiction|]. now apply IH.
    + destruct (K_eq_dec (key y) (key x)) as [Heq|Hne].
      * exists y. split; [now left|assumption].
      * destruct Hx as [->|Hx]; [contradiction|].
        destruct (IH (seen ++ [key y]) x Hx) as [z [Hz Hk]].
        { intros Hin. apply in_app_or in Hin. simpl in Hin.
          destruct Hin as [Hin|[Hin|[]]]; [now apply Hs|now apply Hne]. }
        exists z. split; [now right|assumption].
Qed.


(** Conversely, the first element of [l] carrying a fresh key survives. *)
Lemma first_seen_keeps_first (pre post : list A) (x : A) :
  forall seen,
    ~ In (key x) seen ->
    Forall (fun y => key y <> key x) pre ->
    In x (first_seen key K_eq_dec seen (pre ++ x :: post)).
Proof.
  induction pre as [|y pre IH]; intros seen Hs Hpre; simpl.
  - destruct (in_dec K_eq_dec (key x) seen); [contradiction|now left].
  - inversion Hpre as [|? ? Hy Hpre']; subst.
    destruct (in_dec K_eq_dec (key y) seen).
    + now apply IH.
    + right. apply IH; [|assumption].
      intros Hin. apply in_app_or in Hin. simpl in Hin.
      destruct Hin as [Hin|[Hin|[]]]; [now apply Hs|now apply Hy].
Qed.

End FirstSeenFacts.

(** Two key functions that identify the same elements of a list select the
    same first-seen elements. *)
Lemma first_seen_change_key {A K1 K2 : Type} (k1 : A -> K1) (k2 : A -> K2)
  (d1 : forall x y : K1, {x = y} + {x <> y})
  (d2 : forall x y : K2, {x = y} + {x <> y}) (l : list A) :
  forall s : list A,
    (forall x y, In x (s ++ l) -> In y (s ++ l) -> (k1 x = k1 y <-> k2 x = k2 y)) ->
    first_seen k1 d1 (map k1 s) l = first_seen k2 d2 (map k2 s) l.
Proof.
  induction l as [|x l IH]; intros s Hk; simpl; [reflexivity|].
  assert (Hstep : first_seen k1 d1 (map k1 (s ++ [x])) l
                  = first_seen k2 d2 (map k2 (s ++ [x])) l).
  { apply IH. intros a b Ha Hb. rewrite <- app_assoc in Ha, Hb. now apply Hk. }
  assert (Htail : first_seen k1 d1 (map k1 s) l = first_seen k2 d2 (map k2 s) l).
  { apply IH. intros a b Ha Hb. apply Hk.
    - apply in_app_or in Ha. apply in_or_app. simpl. tauto.
    - apply in_app_or in Hb. apply in_or_app. simpl. tauto. }
  rewrite !map_app in Hstep. simpl in Hstep.
  destruct (in_dec d1 (k1 x) (map k1 s)) as [H1|H1];
    destruct (in_dec d2 (k2 x) (map k2 s)) as [H2|H2].
  - exact Htail.
  - exfalso. apply H2. apply in_map_iff in H1. destruct H1 as [y [Hy Hin]].
    apply in_map_iff. exists y. split; [|assumption].
    apply Hk; [apply in_or_app; now left|apply in_or_app; right; now left|assumption].
  - exfalso. apply H1. apply in_map_iff in H2. destruct H2 as [y [Hy Hin]].
    apply in_map_iff. exists y. split; [|assumption].
    apply Hk; [apply in_or_app; now left|apply in_or_app; right; now left|assumption].
  - now rewrite Hstep.
Qed.

Section MapFacts.
Context {V : Type}.

Lemma has_true_iff (m : JS.Map V) (k : string) :
  JS.has m k = true <-> In k (JS.keys m).
Proof.
  unfold JS.has, JS.keys. rewrite existsb_exists. split.
  - intros [[k' v] [Hin Heq]]. simpl in Heq. apply String.eqb_eq in Heq.
    subst. apply in_map_iff. now exists (k, v).
  - intros Hin. apply in_map_iff in Hin. destruct Hin as [[k' v] [Hk Hin]].
    simpl in Hk. subst. exists (k, v). split; [assumption|apply String.eqb_refl].
Qed.

Context {A : Type}.
Variable key : A -> string.
Variable val : A -> V.

Lemma fold_set_if_new (l : list A) :
  forall m,
    fold_left (set_if_new key val) l m
    = m ++ map (fun x => (key x, val x))
               (first_seen key string_dec (JS.keys m) l).
Proof.
  induction l as [|x l IH]; intros m; simpl.
  - now rewrite app_nil_r.
  - rewrite IH. unfold set_if_new.
    destruct (in_dec string_dec (key x) (JS.keys m)) as [Hin|Hnin].
    + apply has_true_iff in Hin. now rewrite Hin.
    + assert (Hhas : JS.has m (key x) = false).
      { destruct (JS.has m (key x)) eqn:E; [|reflexivity].
        apply has_true_iff in E. contradiction. }
      rewrite Hhas. simpl. unfold JS.set. rewrite Hhas.
      unfold JS.keys. rewrite map_app. simpl.
      now rewrite <- app_assoc.
Qed.

Lemma values_fold_set_if_new (l : list A) :
  JS.values (fold_left (set_if_new key val) l [])
  = map val (first_seen key string_dec [] l).
Proof.
  rewrite fold_set_if_new. simpl. unfold JS.values.
  rewrite map_map. reflexivity.
Qed.
End MapFacts.

(* ================================================================== *)
(** * Sets of numbers and sorting *)
(* ================================================================== *)

Lemma includes_true_iff (arr : list Z) (v : Z) :
  JS.includes arr v = true <-> In v arr.
Proof.
  unfold JS.includes. rewrite existsb_exists. split.
  - intros [x [Hin Heq]]. apply Z.eqb_eq in Heq. now subst.
  - intros Hin. exists v. split; [assumption|apply Z.eqb_refl].
Qed.

Lemma push_unique_In (arr : list Z) (v x : Z) :
  In x (JS.push_unique arr v) <-> In x arr \/ x = v.
Proof.
  unfold JS.push_unique. destruct (JS.includes arr v) eqn:E.
  - apply includes_true_iff in E. split; [tauto|]. intros [H| ->]; assumption.
  - rewrite in_app_iff. simpl. intuition.
Qed.

Lemma push_unique_NoDup (arr : list Z) (v : Z) :
  NoDup arr -> NoDup (JS.push_unique arr v).
Proof.
  intros Hnd. unfold JS.push_unique. destruct (JS.includes arr v) eqn:E.
  - assumption.
  - apply NoDup_app; [assumption|repeat constructor; intros []|].
    intros x Hx [<-|[]].
    apply includes_true_iff in Hx. congruence.
Qed.

Lemma fold_push_unique_In (l : list Z) :
  forall arr x, In x (fold_left JS.push_unique l arr) <-> In x arr \/ In x l.
Proof.
  induction l as [|v l IH]; intros arr x; simpl.
  - tauto.
  - rewrite IH, push_unique_In. intuition.
Qed.

Lemma fold_push_unique_NoDup (l : list Z) :
  forall arr, NoDup arr -> NoDup (fold_left JS.push_unique l arr).
Proof.
  induction l as [|v l IH]; intros arr Hnd; simpl.
  - assumption.
  - apply IH. now apply push_unique_NoDup.
Qed.

Lemma spread_Set_In (l : list Z) (x : Z) : In x (JS.spread_Set l) <-> In x l.
Proof. unfold JS.spread_Set. rewrite fold_push_unique_In. simpl. tauto. Qed.

Lemma spread_Set_NoDup (l : list Z) : NoDup (JS.spread_Set l).
Proof. apply fold_push_unique_NoDup. constructor. Qed.

Lemma insert_sorted_In (x : Z) (l : list Z) (y : Z) :
  In y (JS.insert_sorted x l) <-> y = x \/ In y l.
Proof.
  induction l as [|z l IH]; simpl.
  - intuition.
  - destruct (x <? z); simpl; rewrite ?IH; intuition.
Qed.

Lemma insert_sorted_perm (x : Z) (l : list Z) :
  Permutation (x :: l) (JS.insert_sorted x l).
Proof.
  induction l as [|z l IH]; simpl.
  - reflexivity.
  - destruct (x <? z); [reflexivity|].
    rewrite perm_swap. now constructor.
Qed.

Lemma sort_ascending_perm (l : list Z) : Permutation l (JS.sort_ascending l).
Proof.
  induction l as [|x l IH]; simpl.
  - constructor.
  - rewrite <- insert_sorted_perm. now constructor.
Qed.

Lemma sort_ascending_In (l : list Z) (y : Z) :
  In y (JS.sort_ascending l) <-> In y l.
Proof.
  split; apply Permutation_in;
    [symmetry|]; apply sort_ascending_perm.
Qed.

Lemma insert_sorted_le (x : Z) (l : list Z) :
  StronglySorted Z.le l -> StronglySorted Z.le (JS.insert_sorted x l).
Proof.
  induction 1 as [|z l Hs IH Hz]; simpl.
  - repeat constructor.
  - destruct (x <? z) eqn:E.
    + apply Z.ltb_lt in E. constructor; [now constructor|].
      constructor; [lia|].
      rewrite Forall_forall in *. intros y Hy. specialize (Hz y Hy). lia.
    + apply Z.ltb_ge in E. constructor; [assumption|].
      rewrite Forall_forall in *. intros y Hy.
      apply insert_sorted_In in Hy. destruct Hy as [->|Hy]; [lia|now apply Hz].
Qed.

Lemma sort_ascending_le (l : list Z) : StronglySorted Z.le (JS.sort_ascending l).
Proof.
  induction l as [|x l IH]; simpl; [constructor|now apply insert_sorted_le].
Qed.

Lemma insert_sorted_lt (x : Z) (l : list Z) :
  StronglySorted Z.lt l -> ~ In x l -> StronglySorted Z.lt (JS.insert_sorted x l).
Proof.
  induction 1 as [|z l Hs IH Hz]; simpl; intros Hx.
  - repeat constructor.
  - destruct (x <? z) eqn:E.
    + apply Z.ltb_lt in E. constructor; [now constructor|].
      constructor; [lia|].
      rewrite Forall_forall in *. intros y Hy. specialize (Hz y Hy). lia.
    + apply Z.ltb_ge in E. simpl in Hx.
      constructor; [apply IH; intros Hin; apply Hx; now right|].
      rewrite Forall_forall in *. intros y Hy.
      apply insert_sorted_In in Hy.
      destruct Hy as [->|Hy]; [|now apply Hz].
      assert (z <> x) by (intros Heq; apply Hx; now left). lia.
Qed.

(** Sorting an array without duplicates gives a strictly increasing one. *)
Lemma sort_ascending_lt (l : list Z) :
  NoDup l -> StronglySorted Z.lt (JS.sort_ascending l).
Proof.
  induction 1 as [|x l Hx Hnd IH]; simpl; [constructor|].
  apply insert_sorted_lt; [assumption|].
  now rewrite sort_ascending_In.
Qed.

Lemma StronglySorted_lt_NoDup (l : list Z) : StronglySorted Z.lt l -> NoDup l.
Proof.
  induction 1 as [|x l Hs IH Hx]; constructor; [|assumption].
  intros Hin. rewrite Forall_forall in Hx. specialize (Hx x Hin). lia.
Qed.

Lemma mapi_from_nth_error {A B : Type} (f : A -> Z -> B) (l : list A) :
  forall i n,
    nth_error (JS.mapi_from i f l) n
    = option_map (fun x => f x (i + Z.of_nat n)) (nth_error l n).
Proof.
  induction l as [|x l IH]; intros i n; destruct n as [|n]; simpl; try reflexivity.
  - now rewrite Z.add_0_r.
  - rewrite IH. destruct (nth_error l n); simpl; [|reflexivity].
    f_equal. f_equal. lia.
Qed.

Lemma mapi_nth_error {A B : Type} (f : A -> Z -> B) (l : list A) (n : nat) :
  nth_error (JS.mapi f l) n
  = option_map (fun x => f x (Z.of_nat n)) (nth_error l n).
Proof. unfold JS.mapi. now rewrite mapi_from_nth_error. Qed.

Lemma mapi_from_map {A B C : Type} (f : A -> Z -> B) (g : B -> C) (h : A -> C)
  (l : list A) :
  (forall x i, g (f x i) = h x) ->
  forall i, map g (JS.mapi_from i f l) = map h l.
Proof.
  intros Hgf. induction l as [|x l IH]; intros i; simpl; [reflexivity|].
  now rewrite Hgf, IH.
Qed.

(* ================================================================== *)
(** * Colour naming and categorisation *)
(* ================================================================== *)

Lemma color_class_code (color : ParsedColor.t) (index : Z)
  (allColors : list ParsedColor.t) :
  color_class color (index + 1)
    (generateColorName color index allColors)
    (categorizeColor color index allColors).
Proof.
  unfold color_class, generateColorName, categorizeColor, brightness, JS.gt, JS.lt.
  cbv zeta.
  set (B := ((ParsedColor.r color * 299 + ParsedColor.g color * 587
              + ParsedColor.b color * 114) / 1000)%float).
  destruct (PrimFloat.ltb B JS.d0_3);
    destruct (PrimFloat.ltb JS.d0_7 B);
    destruct (PrimFloat.ltb (ParsedColor.g color) (ParsedColor.r color));
    destruct (PrimFloat.ltb (ParsedColor.b color) (ParsedColor.r color));
    destruct (PrimFloat.ltb (ParsedColor.r color) (ParsedColor.g color));
    destruct (PrimFloat.ltb (ParsedColor.b color) (ParsedColor.g color));
    simpl; repeat split; intros;
    try reflexivity; try congruence; try tauto;
    try (exfalso; intuition congruence).
Qed.

Lemma generateColorTokens_nth (colors : list ParsedColor.t) (n : nat) :
  nth_error (generateColorTokens colors) n
  = option_map
      (fun color =>
         {| ColorToken.name := generateColorName color (Z.of_nat n) colors;
            ColorToken.value := ParsedColor.hex color;
            ColorToken.hex := ParsedColor.hex color;
            ColorToken.rgba := ParsedColor.rgba color;
            ColorToken.category := categorizeColor color (Z.of_nat n) colors |})
      (nth_error colors n).
Proof. unfold generateColorTokens. now rewrite mapi_nth_error. Qed.

(** C2.  The token made from the colour at index [n] of the extracted
    sequence is named and categorised by the five brightness and dominance
    classes in their precedence, with [n + 1] in the name, the brightness
    being [(r * 299 + g * 587 + b * 114) / 1000] in double precision and
    the thresholds the doubles of 0.3 and 0.7; a colour with channels 0.1,
    0.1, 0.1 is [neutral] and named [neutral-{n+1}-dark], one with channels
    0.8, 0.2, 0.2 is [primary] and named [primary-{n+1}]. *)
Theorem C2_color_token_classes (colors : list ParsedColor.t) (n : nat)
  (color : ParsedColor.t) (Hn : nth_error colors n = Some color) :
  exists token,
    nth_error (generateColorTokens colors) n = Some token
    /\ color_class color (Z.of_nat n + 1)
         (ColorToken.name token) (ColorToken.category token)
    /\ (ParsedColor.r color = d0_1 -> ParsedColor.g color = d0_1 ->
        ParsedColor.b color = d0_1 ->
        ColorToken.category token = neutral
        /\ ColorToken.name token
           = ("neutral-" ++ JS.num_to_string (Z.of_nat n + 1) ++ "-dark")%string)
    /\ (ParsedColor.r color = d0_8 -> ParsedColor.g color = d0_2 ->
        ParsedColor.b color = d0_2 ->
        ColorToken.category token = primary
        /\ ColorToken.name token
           = ("primary-" ++ JS.num_to_string (Z.of_nat n + 1))%string).
Proof.
  eexists. rewrite generateColorTokens_nth, Hn. simpl.
  split; [reflexivity|]. simpl.
  pose proof (color_class_code color (Z.of_nat n) colors) as Hc.
  split; [exact Hc|].
  unfold color_class in Hc. cbv zeta in Hc.
  destruct Hc as [Hdark [_ [Hred _]]].
  split; intros Hr Hg Hb; rewrite Hr, Hg, Hb in *.
  - apply Hdark. reflexivity.
  - apply Hred.
    + intros H. vm_compute in H. discriminate.
    + intros H. vm_compute in H. discriminate.
    + split; reflexivity.
Qed.

Lemma C2_color_token_classes_witness :
  exists token,
    nth_error (generateColorTokens sample_colors) 1 = Some token
    /\ ColorToken.category token = primary
    /\ ColorToken.name token = "primary-2"%string.
Proof.
  destruct (C2_color_token_classes sample_colors 1
              (ParsedColor.mk d0_8 d0_2 d0_2 1 "#CC3333" "rgba(204, 51, 51, 1.00)")
              eq_refl) as [token [Hnth [_ [_ Hp]]]].
  exists token. split; [exact Hnth|].
  apply Hp; reflexivity.
Defined.

(** C2, the brightness as the specification words it.  The grey whose three
    channels are the double 0.7000000000000001 has a brightness above 0.7
    in the specification's formula, on exact values and in double precision
    alike, which would make it [neutral] and named [neutral-1-light]; the
    source's [(r * 299 + g * 587 + b * 114) / 1000] rounds to the double
    of 0.7, which is not above it, and the token is [semantic], named
    [semantic-1]. *)
Lemma C2_boundary_grey_counterexample :
  (exists q t : Q,
     JS.exact after_0_7 = Some q /\ JS.exact JS.d0_7 = Some t
     /\ (0.7 < spec_brightness q q q)%Q /\ (t < spec_brightness q q q)%Q)
  /\ JS.gt (spec_brightness_double after_0_7 after_0_7 after_0_7) JS.d0_7 = true
  /\ brightness boundary_grey = JS.d0_7
  /\ generateColorName boundary_grey 0 [boundary_grey] = "semantic-1"%string
  /\ categorizeColor boundary_grey 0 [boundary_grey] = semantic
  /\ nth_error (generateColorTokens [boundary_grey]) 0
     = Some (ColorToken.mk "semantic-1" "#B3B3B3" "#B3B3B3"
               "rgba(179, 179, 179, 1.00)" semantic).
Proof.
  split.
  { do 2 eexists. split; [reflexivity|]. split; [reflexivity|].
    split; vm_compute; reflexivity. }
  repeat split; vm_compute; reflexivity.
Qed.

(** Two colours at the thresholds, as the source classifies them: the grey
    0.3 has the brightness 0.3 and is not below it, and the colour (0.4,
    0.88, 0.56), whose brightness is 0.7 on exact values, is above 0.7 in
    double precision. *)
Example threshold_colours :
  let grey := ParsedColor.mk JS.d0_3 JS.d0_3 JS.d0_3 1
                "#4D4D4D" "rgba(77, 77, 77, 1.00)" in
  let green := ParsedColor.mk 0x1.999999999999ap-2 0x1.c28f5c28f5c29p-1
                 0x1.1eb851eb851ecp-1 1 "#66E08F" "rgba(102, 224, 143, 1.00)" in
  generateColorName grey 0 [grey; green] = "semantic-1"%string
  /\ categorizeColor grey 0 [grey; green] = semantic
  /\ generateColorName green 1 [grey; green] = "neutral-2-light"%string
  /\ categorizeColor green 1 [grey; green] = neutral.
Proof. repeat split; vm_compute; reflexivity. Qed.

Lemma name_category_code (color : ParsedColor.t) (index : Z)
  (allColors : list ParsedColor.t) :
  name_agrees_with_category
    (generateColorName color index allColors) (index + 1)
    (categorizeColor color index allColors).
Proof.
  unfold name_agrees_with_category, generateColorName, categorizeColor.
  destruct (JS.lt (brightness color) JS.d0_3);
    destruct (JS.gt (brightness color) JS.d0_7);
    destruct (JS.gt (ParsedColor.r color) (ParsedColor.g color)
              && JS.gt (ParsedColor.r color) (ParsedColor.b color));
    destruct (JS.gt (ParsedColor.g color) (ParsedColor.r color)
              && JS.gt (ParsedColor.g color) (ParsedColor.b color));
    simpl; repeat split; intros H;
    try reflexivity; try discriminate H; try tauto;
    try (destruct H as [H|H]; discriminate H).
Qed.

(** C7.  In the token made from the colour at index [n], the name carries
    the prefix of the token's category and of no other: a [neutral-{n+1}-dark]
    or [neutral-{n+1}-light] name exactly when the category is [neutral],
    [primary-{n+1}] exactly when [primary], [secondary-{n+1}] exactly when
    [secondary], [semantic-{n+1}] exactly when [semantic]; the two functions
    agree on every colour and index. *)
Theorem C7_name_and_category_agree (colors : list ParsedColor.t) (n : nat)
  (token : ColorToken.t)
  (Hn : nth_error (generateColorTokens colors) n = Some token) :
  name_agrees_with_category
    (ColorToken.name token) (Z.of_nat n + 1) (ColorToken.category token)
  /\ forall (color : ParsedColor.t) (index : Z) (allColors : list ParsedColor.t),
       name_agrees_with_category
         (generateColorName color index allColors) (index + 1)
         (categorizeColor color index allColors).
Proof.
  split; [|exact name_category_code].
  rewrite generateColorTokens_nth in Hn.
  destruct (nth_error colors n) as [color|]; [|discriminate].
  simpl in Hn. injection Hn as <-. simpl.
  apply name_category_code.
Qed.

Lemma C7_name_and_category_agree_witness :
  name_agrees_with_category "primary-2" 2 primary.
Proof.
  exact (proj1 (C7_name_and_category_agree sample_colors 1
                  (ColorToken.mk "primary-2" "#CC3333" "#CC3333"
                     "rgba(204, 51, 51, 1.00)" primary)
                  eq_refl)).
Defined.

(* ================================================================== *)
(** * Folds that append *)
(* ================================================================== *)

Lemma fold_left_flat_map {A B S : Type} (f : S -> B -> S) (g : A -> list B)
  (l : list A) :
  forall s,
    fold_left (fun acc x => fold_left f (g x) acc) l s
    = fold_left f (flat_map g l) s.
Proof.
  induction l as [|x l IH]; intros s; simpl; [reflexivity|].
  now rewrite fold_left_app, IH.
Qed.

Lemma fold_left_pointwise {A S : Type} (f g : S -> A -> S) (l : list A) :
  (forall s x, f s x = g s x) ->
  forall s, fold_left f l s = fold_left g l s.
Proof.
  intros Hfg. induction l as [|x l IH]; intros s; simpl; [reflexivity|].
  now rewrite Hfg, IH.
Qed.

Lemma fold_left_append {A B : Type} (g : A -> list B) (l : list A) :
  forall acc,
    fold_left (fun acc x => acc ++ g x) l acc = acc ++ flat_map g l.
Proof.
  induction l as [|x l IH]; intros acc; simpl.
  - now rewrite app_nil_r.
  - now rewrite IH, app_assoc.
Qed.

(* ================================================================== *)
(** * Border radius *)
(* ================================================================== *)

Lemma extractBorderRadius_visit_fold (node : FigmaNode.t) (acc : list Z) :
  extractBorderRadius_visit node acc
  = fold_left JS.push_unique (radius_values node) acc.
Proof.
  unfold extractBorderRadius_visit, radius_values.
  destruct (FigmaNode.cornerRadius node) as [[r|a b c d]|]; reflexivity.
Qed.

Lemma collected_radii (nodes : list FigmaNode.t) :
  forEach_traverse extractBorderRadius_visit nodes []
  = fold_left JS.push_unique (flat_map radius_values (preorder nodes)) [].
Proof.
  rewrite forEach_traverse_preorder, <- fold_left_flat_map.
  apply fold_left_pointwise. intros acc node. apply extractBorderRadius_visit_fold.
Qed.

(** C8.  The [borderRadius] array of [parseFigmaNodes] is strictly
    increasing, hence sorted ascending and free of duplicates, and its
    members are exactly the numbers contributed by the nodes of the forest:
    a single-number [cornerRadius] contributes that number, a four-corner
    record each of its four numbers. *)
Theorem C8_border_radius_sorted_unique (nodes : list FigmaNode.t) :
  let out := ParsedDesign.borderRadius (parseFigmaNodes nodes) in
  StronglySorted Z.lt out
  /\ StronglySorted Z.le out
  /\ NoDup out
  /\ forall v,
       In v out <->
       exists node, In node (preorder nodes) /\ In v (radius_values node).
Proof.
  simpl. rewrite collected_radii.
  set (raw := fold_left JS.push_unique (flat_map radius_values (preorder nodes)) []).
  assert (Hlt : StronglySorted Z.lt (JS.sort_ascending (JS.spread_Set raw))).
  { apply sort_ascending_lt, spread_Set_NoDup. }
  repeat split.
  - exact Hlt.
  - apply sort_ascending_le.
  - now apply StronglySorted_lt_NoDup.
  - rewrite sort_ascending_In, spread_Set_In. unfold raw.
    rewrite fold_push_unique_In, in_flat_map. simpl. tauto.
  - intros H. rewrite sort_ascending_In, spread_Set_In. unfold raw.
    rewrite fold_push_unique_In, in_flat_map. now right.
Qed.

(* ================================================================== *)
(** * Spacing tokens *)
(* ================================================================== *)

Lemma filter_defined_In (l : list (option Z)) (v : Z) :
  In v (filter_defined l) <-> In (Some v) l.
Proof.
  unfold filter_defined. rewrite in_flat_map. split.
  - intros [[x|] [Hin Hv]]; simpl in Hv; [|contradiction].
    destruct Hv as [->|[]]. assumption.
  - intros Hin. exists (Some v). split; [assumption|now left].
Qed.

Lemma allSpacingValues_In (parsedDesign : ParsedDesign.t) (v : Z) :
  In v (allSpacingValues parsedDesign) <-> spacing_value_source parsedDesign v.
Proof.
  unfold allSpacingValues, spacing_value_source.
  rewrite in_app_iff, !in_flat_map. split.
  - intros [[l [Hl Hv]]|[s [Hs Hv]]].
    + left. exists l. split; [assumption|]. unfold sides_values. simpl in *.
      intuition.
    + right. exists s. split; [assumption|].
      apply filter_defined_In in Hv. unfold side, sides_values in *.
      destruct (ParsedSpacing.padding s) as [p|],
               (ParsedSpacing.margin s) as [m|]; simpl in Hv.
      * decompose [or] Hv; try contradiction; try discriminate;
          repeat match goal with H : Some _ = Some _ |- _ => injection H as H end;
          subst;
          first [ left; exists p; split; [reflexivity|simpl; tauto]
                | right; left; exists m; split; [reflexivity|simpl; tauto]
                | right; right; congruence ].
      * decompose [or] Hv; try contradiction; try discriminate;
          repeat match goal with H : Some _ = Some _ |- _ => injection H as H end;
          subst;
          first [ left; exists p; split; [reflexivity|simpl; tauto]
                | right; right; congruence ].
      * decompose [or] Hv; try contradiction; try discriminate;
          repeat match goal with H : Some _ = Some _ |- _ => injection H as H end;
          subst;
          first [ right; left; exists m; split; [reflexivity|simpl; tauto]
                | right; right; congruence ].
      * decompose [or] Hv; try contradiction; try discriminate;
          right; right; congruence.
  - intros [[l [Hl Hv]]|[s [Hs Hv]]].
    + left. exists l. split; [assumption|]. unfold sides_values in Hv.
      simpl in *. intuition.
    + right. exists s. split; [assumption|].
      apply filter_defined_In. unfold side, sides_values in *.
      destruct Hv as [[p [Hp Hv]]|[[m [Hm Hv]]|Hg]].
      * rewrite Hp. simpl in *. intuition (subst; auto).
      * rewrite Hm. simpl in *. intuition (subst; auto 10).
      * rewrite Hg. simpl. auto 12.
Qed.

(** The token [generateSpacingTokens] builds for [value] at [index]. *)
Lemma generateSpacingTokens_nth (spacing : list Z) (n : nat) (token : SpacingToken.t) :
  nth_error (generateSpacingTokens spacing) n = Some token ->
  nth_error (JS.sort_ascending (JS.spread_Set spacing)) n
  = Some (SpacingToken.value token)
  /\ SpacingToken.category token = gap
  /\ spacing_name_rule (SpacingToken.value token) (Z.of_nat n)
       (SpacingToken.name token).
Proof.
  unfold generateSpacingTokens. rewrite mapi_nth_error.
  destruct (nth_error (JS.sort_ascending (JS.spread_Set spacing)) n) as [v|];
    [|discriminate].
  simpl. intros H. injection H as <-. simpl.
  split; [reflexivity|]. split; [reflexivity|].
  unfold spacing_name_rule.
  destruct (v =? 0) eqn:E0; [apply Z.eqb_eq in E0|apply Z.eqb_neq in E0].
  { repeat split; intros; try reflexivity; lia. }
  destruct (v <=? 4) eqn:E4; [apply Z.leb_le in E4|apply Z.leb_gt in E4].
  { repeat split; intros; try reflexivity; lia. }
  destruct (v <=? 8) eqn:E8; [apply Z.leb_le in E8|apply Z.leb_gt in E8].
  { repeat split; intros; try reflexivity; lia. }
  destruct (v <=? 16) eqn:E16; [apply Z.leb_le in E16|apply Z.leb_gt in E16].
  { repeat split; intros; try reflexivity; lia. }
  destruct (v <=? 24) eqn:E24; [apply Z.leb_le in E24|apply Z.leb_gt in E24].
  { repeat split; intros; try reflexivity; lia. }
  destruct (v <=? 32) eqn:E32; [apply Z.leb_le in E32|apply Z.leb_gt in E32].
  { repeat split; intros; try reflexivity; lia. }
  repeat split; intros; try reflexivity; lia.
Qed.

Lemma generateSpacingTokens_values (spacing : list Z) :
  map SpacingToken.value (generateSpacingTokens spacing)
  = JS.sort_ascending (JS.spread_Set spacing).
Proof.
  unfold generateSpacingTokens, JS.mapi.
  erewrite mapi_from_map; [apply map_id|]. reflexivity.
Qed.

(** C4.  The spacing tokens of [generateDesignTokens] carry, in strictly
    increasing order (sorted ascending, no duplicates), exactly the padding,
    margin and gap values found in the auto-layout and spacing extraction
    results; the token at 0-based position [n] has category [gap] and the
    name fixed by its value's threshold class and by [n]; the values 0, 2,
    6, 20 are named none, xs-1, sm-2, lg-3. *)
Theorem C4_spacing_tokens (parsedDesign : ParsedDesign.t) :
  let tokens := DesignTokens.spacing (generateDesignTokens parsedDesign) in
  StronglySorted Z.lt (map SpacingToken.value tokens)
  /\ (forall v, In v (map SpacingToken.value tokens)
                <-> spacing_value_source parsedDesign v)
  /\ (forall n token,
        nth_error tokens n = Some token ->
        SpacingToken.category token = gap
        /\ spacing_name_rule (SpacingToken.value token) (Z.of_nat n)
             (SpacingToken.name token))
  /\ map SpacingToken.name (generateSpacingTokens [0; 2; 6; 20])
     = ["none"; "xs-1"; "sm-2"; "lg-3"]%string.
Proof.
  simpl. rewrite generateSpacingTokens_values.
  split; [|split; [|split]].
  - apply sort_ascending_lt, spread_Set_NoDup.
  - intros v. rewrite sort_ascending_In, spread_Set_In. apply allSpacingValues_In.
  - intros n token H. now apply generateSpacingTokens_nth in H.
  - reflexivity.
Qed.

(* ================================================================== *)
(** * Spacing records never carry a margin *)
(* ================================================================== *)

Lemma extractSpacing_visit_app (node : FigmaNode.t) (acc : list ParsedSpacing.t) :
  extractSpacing_visit node acc = acc ++ extractSpacing_visit node [].
Proof.
  unfold extractSpacing_visit.
  destruct (JS.truthy_num (FigmaNode.paddingLeft node)
            || JS.truthy_num (FigmaNode.paddingRight node)
            || JS.truthy_num (FigmaNode.paddingTop node)
            || JS.truthy_num (FigmaNode.paddingBottom node));
    destruct (FigmaNode.itemSpacing node); simpl;
    try reflexivity; now rewrite app_nil_r.
Qed.

Lemma extractSpacing_flat (nodes : list FigmaNode.t) :
  extractSpacing nodes
  = flat_map (fun node => extractSpacing_visit node []) (preorder nodes).
Proof.
  unfold extractSpacing. rewrite forEach_traverse_preorder.
  rewrite (fold_left_pointwise _ (fun acc node => acc ++ extractSpacing_visit node [])).
  - now rewrite fold_left_append.
  - intros acc node. apply extractSpacing_visit_app.
Qed.

Lemma extractSpacing_visit_margin (node : FigmaNode.t) (s : ParsedSpacing.t) :
  In s (extractSpacing_visit node []) -> ParsedSpacing.margin s = None.
Proof.
  unfold extractSpacing_visit.
  destruct (JS.truthy_num (FigmaNode.paddingLeft node)
            || JS.truthy_num (FigmaNode.paddingRight node)
            || JS.truthy_num (FigmaNode.paddingTop node)
            || JS.truthy_num (FigmaNode.paddingBottom node));
    destruct (FigmaNode.itemSpacing node); simpl;
    intros H; try contradiction; destruct H as [<-|[]]; reflexivity.
Qed.

Lemma extractSpacing_margin (nodes : list FigmaNode.t) (s : ParsedSpacing.t) :
  In s (extractSpacing nodes) -> ParsedSpacing.margin s = None.
Proof.
  rewrite extractSpacing_flat, in_flat_map.
  intros [node [_ Hs]]. now apply extractSpacing_visit_margin in Hs.
Qed.

(** C10.  No record returned by [extractSpacing] has a margin; so for the
    design parsed from any forest the margin reads of the synthesizer add no
    value, and every spacing token's value is a padding side or the item
    spacing of an auto-layout record, or a padding side or the gap of a
    spacing record. *)
Theorem C10_no_margin_is_produced (nodes : list FigmaNode.t) :
  (forall s, In s (extractSpacing nodes) -> ParsedSpacing.margin s = None)
  /\ (forall s, In s (ParsedDesign.spacing (parseFigmaNodes nodes)) ->
                margin_reads s = [])
  /\ (forall token,
        In token (DesignTokens.spacing (generateDesignTokens (parseFigmaNodes nodes))) ->
        spacing_value_origin nodes (SpacingToken.value token)).
Proof.
  split; [|split].
  - intros s. apply extractSpacing_margin.
  - simpl. intros s Hs. apply extractSpacing_margin in Hs.
    unfold margin_reads. now rewrite Hs.
  - intros token Ht.
    apply (in_map SpacingToken.value) in Ht.
    pose proof generateSpacingTokens_values as Hvals.
    simpl in Ht. rewrite Hvals, sort_ascending_In, spread_Set_In in Ht.
    apply allSpacingValues_In in Ht. unfold spacing_value_origin.
    destruct Ht as [Hl|[s [Hs Hv]]]; [now left|].
    right. exists s. split; [exact Hs|].
    simpl in Hs. apply extractSpacing_margin in Hs.
    destruct Hv as [Hp|[[m [Hm _]]|Hg]]; [now left|congruence|now right].
Qed.

(* ================================================================== *)
(** * The empty forest *)
(* ================================================================== *)

(** C9.  On the empty forest every extraction function returns the empty
    sequence, [parseFigmaNodes] returns five empty collections, and the
    synthesis of that design (and each token generator on an empty input)
    returns empty token collections; the functions are total, so no input
    makes them fail. *)
Theorem C9_empty_forest :
  extractTextStyles [] = []
  /\ extractColors [] = []
  /\ extractAutoLayoutInfo [] = []
  /\ extractSpacing [] = []
  /\ parseFigmaNodes [] = ParsedDesign.mk [] [] [] [] []
  /\ generateDesignTokens (parseFigmaNodes []) = DesignTokens.mk [] [] [] []
  /\ generateColorTokens [] = []
  /\ generateTypographyTokens [] = []
  /\ generateSpacingTokens [] = []
  /\ generateBorderRadiusTokens [] = [].
Proof. repeat split. Qed.

(* ================================================================== *)
(** * Text styles *)
(* ================================================================== *)

Lemma extractTextStyles_visit_fold (node : FigmaNode.t)
  (textStyles : JS.Map ParsedTextStyle.t) :
  extractTextStyles_visit node textStyles
  = fold_left (set_if_new textStyleKey toParsedTextStyle)
      (node_text_style node) textStyles.
Proof.
  unfold extractTextStyles_visit, node_text_style.
  destruct (FigmaNode.style node) as [style|]; [|reflexivity].
  destruct (String.eqb (FigmaNode.type node) "TEXT"); reflexivity.
Qed.

(** [extractTextStyles] keeps, in pre-order, the first style seen for each
    value of the key template, converted to a [ParsedTextStyle]. *)
Lemma extractTextStyles_first_seen (nodes : list FigmaNode.t) :
  extractTextStyles nodes
  = map toParsedTextStyle
      (first_seen textStyleKey string_dec [] (text_style_candidates nodes)).
Proof.
  unfold extractTextStyles, text_style_candidates.
  rewrite forEach_traverse_preorder.
  rewrite (fold_left_pointwise _
             (fun acc node =>
                fold_left (set_if_new textStyleKey toParsedTextStyle)
                  (node_text_style node) acc)).
  - rewrite fold_left_flat_map. apply values_fold_set_if_new.
  - intros acc node. apply extractTextStyles_visit_fold.
Qed.

Lemma text_style_candidates_In (nodes : list FigmaNode.t) (style : Style.t) :
  In style (text_style_candidates nodes) <->
  exists node,
    In node (preorder nodes)
    /\ FigmaNode.type node = "TEXT"%string
    /\ FigmaNode.style node = Some style.
Proof.
  unfold text_style_candidates. rewrite in_flat_map. split.
  - intros [node [Hn Hs]]. exists node. split; [assumption|].
    unfold node_text_style in Hs.
    destruct (FigmaNode.style node) as [st|]; [|contradiction].
    destruct (String.eqb (FigmaNode.type node) "TEXT") eqn:E; [|contradiction].
    apply String.eqb_eq in E. destruct Hs as [->|[]]. tauto.
  - intros [node [Hn [Ht Hs]]]. exists node. split; [assumption|].
    unfold node_text_style. rewrite Hs, Ht. now left.
Qed.

(** C1.  The key of [extractTextStyles] defaults an absent font family to
    "Unknown" and an absent font size to 0, while the stored record defaults
    them to "Inter" and 16: a style without font family and a style with
    font family "Inter" of the same size and weight are both kept, as two
    records with one and the same (fontFamily, fontSize, fontWeight), each
    with its own line height; likewise a style without font size and one
    with font size 16. *)
Theorem C1_defaults_split_equal_styles :
  extractTextStyles
    [ text_node (Style.mk None (Some 12) (Some 400) (Some (Plain 18)) None None);
      text_node (Style.mk (Some "Inter"%string) (Some 12) (Some 400)
                   (Some (Plain 20)) None None) ]
  = [ ParsedTextStyle.mk "Inter" 12 400 18 0 None;
      ParsedTextStyle.mk "Inter" 12 400 20 0 None ]
  /\ extractTextStyles
       [ text_node (Style.mk (Some "Inter"%string) None (Some 400)
                      (Some (Plain 18)) None None);
         text_node (Style.mk (Some "Inter"%string) (Some 16) (Some 400)
                      (Some (Plain 20)) None None) ]
     = [ ParsedTextStyle.mk "Inter" 16 400 18 0 None;
         ParsedTextStyle.mk "Inter" 16 400 20 0 None ].
Proof. split; reflexivity. Qed.

Lemma toParsedTextStyle_rules (style : Style.t) :
  line_height_rule style (toParsedTextStyle style)
  /\ letter_spacing_rule style (toParsedTextStyle style)
  /\ font_size_rule style (toParsedTextStyle style).
Proof.
  unfold line_height_rule, letter_spacing_rule, font_size_rule, toParsedTextStyle.
  simpl. repeat split.
  - destruct (Style.lineHeight style) as [[n|v u]|]; try reflexivity.
    simpl. split; intros Hn.
    + apply Z.eqb_neq in Hn. now rewrite Hn.
    + subst. reflexivity.
  - destruct (Style.letterSpacing style) as [[n|v u]|]; try reflexivity.
    simpl. destruct (n =? 0) eqn:E; [|reflexivity].
    apply Z.eqb_eq in E. now subst.
  - destruct (Style.fontSize style) as [n|]; [|reflexivity].
    simpl. split; intros Hn.
    + apply Z.eqb_neq in Hn. now rewrite Hn.
    + subst. reflexivity.
Qed.

(** C6, as the code has it.  Every record returned by [extractTextStyles]
    is built from the style of a TEXT node of the forest; its line height is
    the style's numeric line height when that is present and not 0, the raw
    [value] of a {value, unit} pair (0 included), and the record's font size
    (the node's, defaulting to 16) when the line height is absent or is the
    number 0; its letter spacing is the style's number, or the [value] of a
    pair, and 0 when absent. *)
Theorem C6_line_height_and_letter_spacing (nodes : list FigmaNode.t)
  (t : ParsedTextStyle.t) (Ht : In t (extractTextStyles nodes)) :
  exists node style,
    In node (preorder nodes)
    /\ FigmaNode.type node = "TEXT"%string
    /\ FigmaNode.style node = Some style
    /\ t = toParsedTextStyle style
    /\ line_height_rule style t
    /\ letter_spacing_rule style t
    /\ font_size_rule style t.
Proof.
  rewrite extractTextStyles_first_seen in Ht.
  apply in_map_iff in Ht. destruct Ht as [style [<- Hin]].
  apply first_seen_incl in Hin. destruct Hin as [Hin _].
  apply text_style_candidates_In in Hin.
  destruct Hin as [node [Hn [Hty Hst]]].
  exists node, style.
  pose proof (toParsedTextStyle_rules style) as [Hl [Hs Hf]].
  repeat split; try assumption; reflexivity.
Qed.

Lemma C6_line_height_and_letter_spacing_witness :
  exists node style,
    In node (preorder [text_node zero_line_height_style])
    /\ FigmaNode.type node = "TEXT"%string
    /\ FigmaNode.style node = Some style
    /\ ParsedTextStyle.mk "Inter" 20 400 20 0 None = toParsedTextStyle style
    /\ line_height_rule style (ParsedTextStyle.mk "Inter" 20 400 20 0 None)
    /\ letter_spacing_rule style (ParsedTextStyle.mk "Inter" 20 400 20 0 None)
    /\ font_size_rule style (ParsedTextStyle.mk "Inter" 20 400 20 0 None).
Proof.
  apply (C6_line_height_and_letter_spacing [text_node zero_line_height_style]).
  simpl. left. reflexivity.
Defined.

(** A TEXT node whose style has the explicit numeric line height 0 and font
    size 20 is kept with line height 20, not 0. *)
Lemma C6_zero_line_height_counterexample :
  Style.lineHeight zero_line_height_style = Some (Plain 0)
  /\ exists t,
       extractTextStyles [text_node zero_line_height_style] = [t]
       /\ ParsedTextStyle.lineHeight t = 20
       /\ ParsedTextStyle.lineHeight t <> 0.
Proof.
  split; [reflexivity|].
  eexists. split; [reflexivity|]. simpl. split; [reflexivity|discriminate].
Qed.

(* ================================================================== *)
(** * Doubles between 0 and 1 *)
(* ================================================================== *)

(** The product of a double between 0 and 1 with 255, rounded to a double
    and then to an integer, is an 8-bit level, and the level over 255 lies
    within the 0.01 tolerance of the channel.  The proofs follow the
    rounding of the product and of the difference as IEEE 754 specifies
    them ([SFmul], [SFsub]), with the values of the doubles as integers at
    the scale [2^1200]. *)

Lemma digits2_pos_lower (p : positive) :
  2 ^ (Zpos (digits2_pos p) - 1) <= Zpos p.
Proof.
  induction p as [p IH|p IH|]; simpl digits2_pos.
  - rewrite Pos2Z.inj_succ.
    replace (Z.succ (Zpos (digits2_pos p)) - 1)
      with (Z.succ (Zpos (digits2_pos p) - 1)) by lia.
    rewrite Z.pow_succ_r by lia. lia.
  - rewrite Pos2Z.inj_succ.
    replace (Z.succ (Zpos (digits2_pos p)) - 1)
      with (Z.succ (Zpos (digits2_pos p) - 1)) by lia.
    rewrite Z.pow_succ_r by lia. lia.
  - simpl. lia.
Qed.

Lemma shr_1_m (mrs : shr_record) :
  0 <= shr_m mrs -> shr_m (shr_1 mrs) = shr_m mrs / 2.
Proof.
  destruct mrs as [m r s]. intros Hm. cbn [shr_m] in Hm.
  destruct m as [|[p|p|]|p]; cbn [shr_1 shr_m].
  - reflexivity.
  - apply (Z.div_unique (Zpos p~1) 2 (Zpos p) 1); lia.
  - apply (Z.div_unique (Zpos p~0) 2 (Zpos p) 0); lia.
  - reflexivity.
  - lia.
Qed.

Lemma iter_shr_1_m (p : positive) :
  forall mrs, 0 <= shr_m mrs ->
    shr_m (iter_pos shr_1 p mrs) = shr_m mrs / 2 ^ Zpos p.
Proof.
  induction p as [p IH|p IH|]; intros mrs Hm; cbn [iter_pos].
  - assert (H1 : 0 <= shr_m (shr_1 mrs)).
    { rewrite shr_1_m by assumption. apply Z.div_pos; lia. }
    assert (H2 : 0 <= shr_m (iter_pos shr_1 p (shr_1 mrs))).
    { rewrite IH by assumption. apply Z.div_pos; [assumption|]. apply Z.pow_pos_nonneg; lia. }
    assert (Hp : 0 < 2 ^ Zpos p) by (apply Z.pow_pos_nonneg; lia).
    rewrite IH, IH, shr_1_m by assumption.
    rewrite !Z.div_div by lia.
    f_equal.
    replace (Zpos p~1) with (1 + Zpos p + Zpos p) by lia.
    rewrite !Z.pow_add_r, Z.pow_1_r by lia. lia.
  - assert (H2 : 0 <= shr_m (iter_pos shr_1 p mrs)).
    { rewrite IH by assumption. apply Z.div_pos; [assumption|]. apply Z.pow_pos_nonneg; lia. }
    assert (Hp : 0 < 2 ^ Zpos p) by (apply Z.pow_pos_nonneg; lia).
    rewrite IH, IH by assumption.
    rewrite !Z.div_div by lia.
    f_equal.
    replace (Zpos p~0) with (Zpos p + Zpos p) by lia.
    rewrite Z.pow_add_r by lia. lia.
  - rewrite shr_1_m by assumption. reflexivity.
Qed.

Lemma round_nearest_even_bounds (m : Z) (l : location) :
  m <= round_nearest_even m l <= m + 1.
Proof.
  destruct l as [|[| |]]; simpl; try lia.
  destruct (Z.even m); lia.
Qed.

(** [shr_fexp] moves the exponent up to [fexp] of the magnitude and
    divides the mantissa accordingly. *)
Lemma shr_fexp_spec (m e : Z) (l : location) :
  0 <= m ->
  let e' := Z.max e (fexp prec emax (Zdigits2 m + e)) in
  snd (shr_fexp prec emax m e l) = e'
  /\ shr_m (fst (shr_fexp prec emax m e l)) = m / 2 ^ (e' - e).
Proof.
  intros Hm e'. unfold shr_fexp, shr.
  assert (Hrec : shr_m (shr_record_of_loc m l) = m)
    by (destruct l as [|[| |]]; reflexivity).
  destruct (fexp prec emax (Zdigits2 m + e) - e) as [|p|p] eqn:En; cbn [fst snd].
  - assert (e' = e) by (unfold e'; lia). rewrite H, Z.sub_diag, Z.pow_0_r, Z.div_1_r.
    split; [reflexivity|exact Hrec].
  - assert (e' = e + Zpos p) by (unfold e'; lia).
    rewrite H. split; [reflexivity|].
    rewrite iter_shr_1_m by (rewrite Hrec; exact Hm).
    rewrite Hrec. f_equal. f_equal. lia.
  - assert (e' = e) by (unfold e'; lia). rewrite H, Z.sub_diag, Z.pow_0_r, Z.div_1_r.
    split; [reflexivity|exact Hrec].
Qed.

(** What [binary_round_aux] returns, in terms of integer division. *)
Lemma binary_round_aux_spec (sx : bool) (M E : Z) (l : location) :
  0 <= M ->
  exists m1 : Z,
    let e1 := Z.max E (fexp prec emax (Zdigits2 M + E)) in
    let e2 := Z.max e1 (fexp prec emax (Zdigits2 m1 + e1)) in
    M / 2 ^ (e1 - E) <= m1 <= M / 2 ^ (e1 - E) + 1
    /\ binary_round_aux prec emax sx M E l
       = match m1 / 2 ^ (e2 - e1) with
         | Z0 => S754_zero sx
         | Zpos m => if e2 <=? emax - prec then S754_finite sx m e2
                     else S754_infinity sx
         | Zneg _ => S754_nan
         end.
Proof.
  intros HM. unfold binary_round_aux.
  destruct (shr_fexp_spec M E l HM) as [He1 Hm1].
  destruct (shr_fexp prec emax M E l) as [mrs1 e1]. cbn [fst snd] in He1, Hm1.
  set (m1 := round_nearest_even (shr_m mrs1) (loc_of_shr_record mrs1)).
  exists m1. cbv zeta.
  pose proof (round_nearest_even_bounds (shr_m mrs1) (loc_of_shr_record mrs1)) as Hb.
  fold m1 in Hb. rewrite Hm1 in Hb. subst e1.
  split; [exact Hb|].
  assert (H0 : 0 <= m1).
  { apply Z.le_trans with (2 := proj1 Hb). apply Z.div_pos; [assumption|].
    apply Z.pow_pos_nonneg; lia. }
  destruct (shr_fexp_spec m1 (Z.max E (fexp prec emax (Zdigits2 M + E))) loc_Exact H0)
    as [He2 Hm2].
  destruct (shr_fexp prec emax m1 (Z.max E (fexp prec emax (Zdigits2 M + E))) loc_Exact)
    as [mrs2 e2].
  cbn [fst snd] in He2, Hm2. rewrite Hm2, He2. reflexivity.
Qed.

Lemma fexp_eq (z : Z) : fexp prec emax z = Z.max (z - 53) (-1074).
Proof. reflexivity. Qed.

Lemma Zdigits2_lower (m : Z) : 0 < m -> 2 ^ (Zdigits2 m - 1) <= m.
Proof.
  destruct m as [|p|p]; try lia. intros _. apply digits2_pos_lower.
Qed.

Lemma Zdigits2_nonneg (m : Z) : 0 <= Zdigits2 m.
Proof. destruct m; simpl; lia. Qed.

Lemma pow2_pos (a : Z) : 0 <= a -> 0 < 2 ^ a.
Proof. intros H. apply Z.pow_pos_nonneg; lia. Qed.

(** A magnitude below [2^8], as a mantissa over [2^-(−E)], has few digits. *)
Lemma digits_below_256 (m s : Z) :
  0 <= s -> 0 < m -> m < 2 ^ (s + 8) -> Zdigits2 m <= s + 8.
Proof.
  intros Hs Hm Hlt.
  pose proof (Zdigits2_lower m Hm) as Hd.
  pose proof (Zdigits2_nonneg m) as Hn.
  destruct (Z.le_gt_cases (Zdigits2 m) (s + 8)) as [H|H]; [exact H|].
  exfalso.
  assert (2 ^ (s + 8) <= 2 ^ (Zdigits2 m - 1)) by (apply Z.pow_le_mono_r; lia).
  lia.
Qed.

Lemma binary_round_aux_below (M E : Z) (l : location) :
  0 <= M -> E <= -97 -> M <= 255 * 2 ^ (- E) ->
  match binary_round_aux prec emax false M E l with
  | S754_zero _ => True
  | S754_finite false m2 e2 =>
      e2 <= -45 /\ Zpos m2 <= 255 * 2 ^ (- e2) + 2 ^ (- e2 - 45)
  | _ => False
  end.
Proof.
  intros HM HE Hle.
  destruct (binary_round_aux_spec false M E l HM) as [m1 [Hm1 ->]].
  cbv zeta in Hm1.
  set (N := - E) in *.
  set (e1 := Z.max E (fexp prec emax (Zdigits2 M + E))) in *.
  set (e2 := Z.max e1 (fexp prec emax (Zdigits2 m1 + e1))).
  assert (HN : 97 <= N) by (unfold N; lia).
  assert (HpN : 0 < 2 ^ N) by (apply pow2_pos; lia).
  (* the first exponent *)
  assert (He1 : E <= e1 <= -45).
  { unfold e1. rewrite fexp_eq.
    destruct (Z.eq_dec M 0) as [->|HM0]; [simpl; lia|].
    assert (Hd : Zdigits2 M <= N + 8).
    { apply digits_below_256; try lia.
      rewrite Z.pow_add_r by lia. change (2 ^ 8) with 256. lia. }
    unfold N in Hd. lia. }
  assert (Hp1 : 0 < 2 ^ (e1 - E)) by (apply pow2_pos; lia).
  assert (H0 : 0 <= M / 2 ^ (e1 - E)) by (apply Z.div_pos; lia).
  assert (Hs1 : 2 ^ (e1 - E) * 2 ^ (N - 45 - (e1 - E)) = 2 ^ (N - 45)).
  { rewrite <- Z.pow_add_r by (unfold N; lia). f_equal. lia. }
  assert (Hq1 : 0 < 2 ^ (N - 45 - (e1 - E))) by (apply pow2_pos; unfold N; lia).
  (* the rounded mantissa, scaled back *)
  assert (Hv1 : m1 * 2 ^ (e1 - E) <= 255 * 2 ^ N + 2 ^ (N - 45)).
  { pose proof (Z.mul_div_le M (2 ^ (e1 - E)) Hp1) as Hd. nia. }
  assert (HpN45 : 2 ^ (N - 45) * 2 ^ 45 = 2 ^ N).
  { rewrite <- Z.pow_add_r by lia. f_equal. lia. }
  assert (Hlt : 255 * 2 ^ N + 2 ^ (N - 45) < 2 ^ (N + 8)).
  { rewrite Z.pow_add_r by lia. change (2 ^ 8) with 256.
    assert (0 < 2 ^ (N - 45)) by (apply pow2_pos; lia).
    assert (2 <= 2 ^ 45) by (change (2 ^ 45) with 35184372088832; lia).
    nia. }
  (* the second exponent *)
  assert (He2 : e1 <= e2 <= -45).
  { unfold e2. rewrite fexp_eq.
    destruct (Z.eq_dec m1 0) as [->|Hm0]; [simpl; lia|].
    assert (Hd : Zdigits2 m1 <= N - (e1 - E) + 8).
    { apply digits_below_256; try lia.
      assert (Hs : 2 ^ (N + 8) = 2 ^ (e1 - E) * 2 ^ (N - (e1 - E) + 8)).
      { rewrite <- Z.pow_add_r by (unfold N; lia). f_equal. lia. }
      assert (0 < 2 ^ (N - (e1 - E) + 8)) by (apply pow2_pos; unfold N; lia).
      nia. }
    unfold N in Hd. lia. }
  assert (Hp2 : 0 < 2 ^ (e2 - e1)) by (apply pow2_pos; lia).
  pose proof (Z.mul_div_le m1 (2 ^ (e2 - e1)) Hp2) as Hd2.
  assert (H2 : 0 <= m1 / 2 ^ (e2 - e1)) by (apply Z.div_pos; lia).
  destruct (m1 / 2 ^ (e2 - e1)) as [|m2|m2] eqn:Em2; [exact I| |lia].
  replace (e2 <=? emax - prec) with true
    by (symmetry; apply Z.leb_le; change (emax - prec) with 971; lia).
  split; [lia|].
  (* scale the bound down to the final exponent *)
  assert (Hs2 : 2 ^ (e2 - E) = 2 ^ (e2 - e1) * 2 ^ (e1 - E)).
  { rewrite <- Z.pow_add_r by lia. f_equal. lia. }
  assert (Hp3 : 0 < 2 ^ (e2 - E)) by (apply pow2_pos; lia).
  assert (Hv2 : Zpos m2 * 2 ^ (e2 - E) <= 255 * 2 ^ N + 2 ^ (N - 45)) by nia.
  assert (Hs3 : 2 ^ N = 2 ^ (- e2) * 2 ^ (e2 - E)).
  { rewrite <- Z.pow_add_r by lia. f_equal. unfold N. lia. }
  assert (Hs4 : 2 ^ (N - 45) = 2 ^ (- e2 - 45) * 2 ^ (e2 - E)).
  { rewrite <- Z.pow_add_r by lia. f_equal. unfold N. lia. }
  rewrite Hs3, Hs4 in Hv2.
  apply (Z.mul_le_mono_pos_r _ _ (2 ^ (e2 - E)) Hp3). nia.
Qed.

Lemma digits2_pos_upper (p : positive) : Zpos p < 2 ^ Zpos (digits2_pos p).
Proof.
  induction p as [p IH|p IH|]; simpl digits2_pos.
  - rewrite Pos2Z.inj_succ, Z.pow_succ_r by lia. lia.
  - rewrite Pos2Z.inj_succ, Z.pow_succ_r by lia. lia.
  - simpl. lia.
Qed.

Lemma switch_Eq_Eq (c : comparison) : Pos.switch_Eq Eq c = c.
Proof. destruct c; reflexivity. Qed.

Lemma Prim2SF_0 : Prim2SF 0 = S754_zero false.
Proof. vm_compute. reflexivity. Qed.

Lemma Prim2SF_1 : Prim2SF 1 = S754_finite false 4503599627370496 (-52).
Proof. vm_compute. reflexivity. Qed.

Lemma Prim2SF_255 : Prim2SF 255 = S754_finite false 8972014882652160 (-45).
Proof. vm_compute. reflexivity. Qed.

(** A double between 0 and 1, as a mantissa and an exponent. *)
Lemma normalized_finite (x : float) :
  normalized x ->
  (exists s, Prim2SF x = S754_zero s)
  \/ exists m e, Prim2SF x = S754_finite false m e
                 /\ -1074 <= e <= -52 /\ Zpos m <= 2 ^ (- e).
Proof.
  intros [H0 H1]. unfold JS.le in H0, H1. rewrite leb_spec in H0, H1.
  pose proof (Prim2SF_valid x) as Hv.
  rewrite Prim2SF_0 in H0. rewrite Prim2SF_1 in H1.
  destruct (Prim2SF x) as [s|s| |s m e].
  - left. now exists s.
  - destruct s; discriminate.
  - discriminate.
  - right. destruct s; [discriminate|].
    exists m, e. split; [reflexivity|].
    unfold SFleb, SFcompare in H1.
    cbn [valid_binary] in Hv. unfold bounded, canonical_mantissa in Hv.
    apply andb_true_iff in Hv. destruct Hv as [Hc _].
    apply Z.eqb_eq in Hc. rewrite fexp_eq in Hc.
    pose proof (digits2_pos_upper m) as Hd.
    rewrite Pos.compare_cont_spec, switch_Eq_Eq in H1.
    revert H1.
    destruct (Z.compare_spec e (-52)) as [He|He|He];
      [destruct (Pos.compare_spec m 4503599627370496) as [Hm|Hm|Hm]| |];
      intros H1; try discriminate H1.
    + subst e. split; [split; [discriminate|apply Z.le_refl]|].
      rewrite Hm. reflexivity.
    + subst e. split; [split; [discriminate|apply Z.le_refl]|].
      change (2 ^ (- -52)) with (Zpos 4503599627370496).
      apply Pos2Z.pos_lt_pos in Hm. apply Z.lt_le_incl. exact Hm.
    + split; [lia|].
      assert (Hle : 2 ^ Zpos (digits2_pos m) <= 2 ^ (- e))
        by (apply Z.pow_le_mono_r; lia).
      lia.
Qed.

Lemma Math_round_level (m : positive) (e : Z) :
  e <= -45 -> Zpos m <= 255 * 2 ^ (- e) + 2 ^ (- e - 45) ->
  exists q, JS.value (S754_finite false m e) = Some q
            /\ 0 <= JS.Math_round q <= 255.
Proof.
  intros He Hm. eexists. split; [reflexivity|].
  replace (0 <=? e) with false by (symmetry; apply Z.leb_gt; lia).
  assert (Hp : 0 < 2 ^ (- e)) by (apply pow2_pos; lia).
  assert (Hs : 2 ^ (- e) = 2 ^ (- e - 45) * 2 ^ 45).
  { rewrite <- Z.pow_add_r by lia. f_equal. lia. }
  assert (Hq : 0 < 2 ^ (- e - 45)) by (apply pow2_pos; lia).
  change (2 ^ 45) with 35184372088832 in Hs.
  unfold JS.Math_round. split.
  - change 0 with (Qfloor 0). apply Qfloor_resp_le.
    unfold Qle, Qplus. simpl. lia.
  - change 255 with (Qfloor (1023 # 4)). apply Qfloor_resp_le.
    unfold Qle, Qplus. cbn [Qnum Qden].
    rewrite !Pos2Z.inj_mul, Z2Pos.id by exact Hp. lia.
Qed.

(** A double between 0 and 1 rounds to an 8-bit level. *)
Lemma normalized_level (x : float) :
  normalized x -> exists l, channel_level x = Some l /\ 0 <= l <= 255.
Proof.
  intros Hx. unfold channel_level, JS.round, JS.exact.
  rewrite mul_spec.
  rewrite Prim2SF_255.
  destruct (normalized_finite x Hx) as [[s ->]|[m [e [-> [He Hm]]]]].
  - exists 0. split; [reflexivity|lia].
  - unfold SF64mul, SFmul. cbn [xorb].
    pose proof (binary_round_aux_below (Zpos (m * 8972014882652160)) (e + -45)
                  loc_Exact) as Hb.
    destruct (binary_round_aux prec emax false (Zpos (m * 8972014882652160))
                (e + -45) loc_Exact) as [s|s| |s m2 e2].
    + exists 0. split; [reflexivity|lia].
    + exfalso. apply Hb; try lia.
      rewrite Pos2Z.inj_mul.
      replace (- (e + -45)) with (- e + 45) by lia.
      rewrite Z.pow_add_r by lia.
      change (2 ^ 45) with 35184372088832. nia.
    + exfalso. apply Hb; try lia.
      rewrite Pos2Z.inj_mul.
      replace (- (e + -45)) with (- e + 45) by lia.
      rewrite Z.pow_add_r by lia.
      change (2 ^ 45) with 35184372088832. nia.
    + assert (Hb' : match s with
                    | false => e2 <= -45
                               /\ Zpos m2 <= 255 * 2 ^ (- e2) + 2 ^ (- e2 - 45)
                    | true => False
                    end).
      { apply Hb; try lia.
        rewrite Pos2Z.inj_mul.
        replace (- (e + -45)) with (- e + 45) by lia.
        rewrite Z.pow_add_r by lia.
        change (2 ^ 45) with 35184372088832. nia. }
      destruct s; [contradiction|]. destruct Hb' as [He2 Hm2].
      destruct (Math_round_level m2 e2 He2 Hm2) as [q [Hq Hr]].
      rewrite Hq. simpl. eexists. split; [reflexivity|exact Hr].
Qed.

Lemma scale_pos (e : Z) : -1200 <= e -> 0 < scale e.
Proof. intros H. unfold scale. apply pow2_pos. lia. Qed.

Lemma scale_shift (a b : Z) :
  -1200 <= a <= b -> scale b = scale a * 2 ^ (b - a).
Proof.
  intros H. unfold scale. rewrite <- Z.pow_add_r by lia. f_equal. lia.
Qed.

Lemma scale_le (a b : Z) : -1200 <= a <= b -> scale a <= scale b.
Proof. intros H. unfold scale. apply Z.pow_le_mono_r; lia. Qed.

Lemma scale_succ (a : Z) : -1200 <= a -> scale (a + 1) = 2 * scale a.
Proof.
  intros H. unfold scale.
  replace (a + 1 + 1200) with (Z.succ (a + 1200)) by lia.
  rewrite Z.pow_succ_r by lia. reflexivity.
Qed.

(** Digits and magnitude, at the scale. *)
Lemma digits_scale (m e k : Z) :
  0 < m -> -1200 <= e -> -1200 <= k -> m * scale e < scale k ->
  Zdigits2 m + e <= k.
Proof.
  intros Hm He Hk Hlt.
  pose proof (Zdigits2_lower m Hm) as Hd.
  assert (Hn : 1 <= Zdigits2 m) by (destruct m; simpl; lia).
  destruct (Z.le_gt_cases (Zdigits2 m + e) k) as [H|H]; [exact H|].
  exfalso.
  assert (Hs : scale k <= scale (Zdigits2 m - 1 + e)) by (apply scale_le; lia).
  assert (Hs2 : scale (Zdigits2 m - 1 + e) = scale e * 2 ^ (Zdigits2 m - 1)).
  { rewrite (scale_shift e (Zdigits2 m - 1 + e)) by lia. f_equal. f_equal. lia. }
  pose proof (scale_pos e He) as Hp.
  assert (scale e * 2 ^ (Zdigits2 m - 1) <= scale e * m)
    by (apply Z.mul_le_mono_nonneg_l; lia).
  lia.
Qed.

Lemma round_aux_scaled (s : bool) (M E : Z) (l : location) (k : Z) :
  0 <= M -> -1200 <= E -> E + 2 <= k -> -1020 <= k <= 900 ->
  M * scale E <= scale k ->
  exists m2 e2,
    0 <= m2
    /\ E <= e2 <= Z.max E (Z.max (k - 52) (-1074))
    /\ binary_round_aux prec emax s M E l
       = match m2 with
         | Z0 => S754_zero s
         | Zpos m => S754_finite s m e2
         | Zneg _ => S754_nan
         end
    /\ M * scale E - 2 * scale e2 < m2 * scale e2 <= M * scale E + scale e2.
Proof.
  intros HM HE Hk Hk2 Hle.
  destruct (binary_round_aux_spec s M E l HM) as [m1 [Hm1 ->]].
  cbv zeta in Hm1.
  set (e1 := Z.max E (fexp prec emax (Zdigits2 M + E))) in *.
  set (e2 := Z.max e1 (fexp prec emax (Zdigits2 m1 + e1))).
  pose proof (scale_pos E HE) as HpE.
  assert (Hlt : scale k < scale (k + 1)).
  { rewrite scale_succ by lia. pose proof (scale_pos k). lia. }
  (* the first exponent *)
  assert (He1 : E <= e1 <= Z.max E (Z.max (k - 52) (-1074))).
  { unfold e1. rewrite fexp_eq.
    destruct (Z.eq_dec M 0) as [->|HM0]; [simpl; lia|].
    assert (Hd : Zdigits2 M + E <= k + 1) by (apply digits_scale; lia).
    lia. }
  assert (He1k : e1 + 2 <= k) by lia.
  assert (Hp1 : 0 < 2 ^ (e1 - E)) by (apply pow2_pos; lia).
  assert (Hs1 : scale e1 = scale E * 2 ^ (e1 - E)) by (apply scale_shift; lia).
  pose proof (scale_pos e1 ltac:(lia)) as Hpe1.
  pose proof (Z.mul_div_le M (2 ^ (e1 - E)) Hp1) as Hd1.
  pose proof (Z.mul_succ_div_gt M (2 ^ (e1 - E)) Hp1) as Hd1'.
  assert (H0 : 0 <= M / 2 ^ (e1 - E)) by (apply Z.div_pos; lia).
  assert (Hv1 : M * scale E - scale e1 < m1 * scale e1 <= M * scale E + scale e1).
  { rewrite Hs1. nia. }
  (* the second exponent *)
  assert (He2 : e1 <= e2 <= Z.max E (Z.max (k - 52) (-1074))).
  { unfold e2. rewrite fexp_eq.
    destruct (Z.eq_dec m1 0) as [->|Hm0]; [simpl; lia|].
    assert (Hd : Zdigits2 m1 + e1 <= k + 1).
    { apply digits_scale; try lia.
      assert (scale e1 * 4 <= scale k).
      { rewrite (scale_shift e1 k) by lia.
        assert (4 <= 2 ^ (k - e1)).
        { change 4 with (2 ^ 2). apply Z.pow_le_mono_r; lia. }
        nia. }
      rewrite scale_succ by lia. lia. }
    lia. }
  assert (Hp2 : 0 < 2 ^ (e2 - e1)) by (apply pow2_pos; lia).
  assert (Hs2 : scale e2 = scale e1 * 2 ^ (e2 - e1)) by (apply scale_shift; lia).
  pose proof (scale_pos e2 ltac:(lia)) as Hpe2.
  pose proof (Z.mul_div_le m1 (2 ^ (e2 - e1)) Hp2) as Hd2.
  pose proof (Z.mul_succ_div_gt m1 (2 ^ (e2 - e1)) Hp2) as Hd2'.
  assert (H1 : 0 <= m1) by lia.
  assert (H2 : 0 <= m1 / 2 ^ (e2 - e1)) by (apply Z.div_pos; lia).
  exists (m1 / 2 ^ (e2 - e1)), e2.
  split; [exact H2|]. split; [lia|].
  split.
  { destruct (m1 / 2 ^ (e2 - e1)) as [|m2|m2]; try reflexivity.
    replace (e2 <=? emax - prec) with true; [reflexivity|].
    symmetry. apply Z.leb_le. change (emax - prec) with 971. lia. }
  assert (Hle12 : scale e1 <= scale e2) by (apply scale_le; lia).
  rewrite Hs2 in *. nia.
Qed.

Lemma iter_xO (d m : positive) : Zpos (Pos.iter xO m d) = Zpos m * 2 ^ Zpos d.
Proof.
  induction d as [|d IH] using Pos.peano_ind.
  - simpl. lia.
  - rewrite Pos.iter_succ, Pos2Z.inj_succ, Z.pow_succ_r by lia.
    rewrite Pos2Z.inj_xO, IH. lia.
Qed.

(** [shl_align] lowers the exponent without changing the value. *)
Lemma shl_align_spec (m : positive) (e e' : Z) :
  snd (shl_align m e e') = Z.min e e'
  /\ Zpos (fst (shl_align m e e'))
     = Zpos m * 2 ^ (e - snd (shl_align m e e')).
Proof.
  unfold shl_align.
  destruct (e' - e) as [|d|d] eqn:Ed; cbn [fst snd].
  - split; [lia|]. rewrite Z.sub_diag. simpl. lia.
  - split; [lia|]. rewrite Z.sub_diag. simpl. lia.
  - split; [lia|]. rewrite iter_xO. f_equal. f_equal. lia.
Qed.

Lemma Math_round_bounds (m K : Z) :
  0 <= K ->
  let l := Qfloor ((m # Z.to_pos (2 ^ K)) + (1 # 2)) in
  2 * l * 2 ^ K <= 2 * m + 2 ^ K < 2 * (l + 1) * 2 ^ K.
Proof.
  intros HK l.
  assert (Hp : 0 < 2 ^ K) by (apply pow2_pos; lia).
  pose proof (Qfloor_le ((m # Z.to_pos (2 ^ K)) + (1 # 2))) as Hle.
  pose proof (Qlt_floor ((m # Z.to_pos (2 ^ K)) + (1 # 2))) as Hlt.
  fold l in Hle, Hlt.
  unfold Qle, Qplus in Hle. unfold Qlt, Qplus in Hlt.
  cbn [Qnum Qden inject_Z] in Hle, Hlt.
  rewrite !Pos2Z.inj_mul, Z2Pos.id in Hle, Hlt by exact Hp.
  lia.
Qed.

Lemma scale_0_split (e : Z) : -1200 <= e <= 0 -> scale 0 = scale e * 2 ^ (- e).
Proof. intros H. rewrite (scale_shift e 0) by lia. f_equal. Qed.

(** The level of a channel between 0 and 1 is within a half, and a little
    more for the rounding of the product, of 255 times the channel. *)
Lemma level_near (x : float) (l : Z) :
  normalized x -> channel_level x = Some l ->
  match Prim2SF x with
  | S754_zero _ => l = 0
  | S754_finite false mx ex =>
      -1074 <= ex <= -52
      /\ Z.abs (255 * (Zpos mx * scale ex) - l * scale 0)
         <= scale (-1) + scale (-43)
  | _ => False
  end.
Proof.
  intros Hx. unfold channel_level, JS.round, JS.exact.
  rewrite mul_spec, Prim2SF_255.
  destruct (normalized_finite x Hx) as [[s ->]|[mx [ex [-> [He Hm]]]]].
  - simpl. intros H. injection H as <-. reflexivity.
  - unfold SF64mul, SFmul. cbn [xorb].
    pose proof (scale_pos ex ltac:(lia)) as Hpx.
    assert (HsE : scale ex = scale (ex + -45) * 35184372088832).
    { rewrite (scale_shift (ex + -45) ex) by lia.
      replace (ex - (ex + -45)) with 45 by lia. reflexivity. }
    assert (HM : Zpos (mx * 8972014882652160) * scale (ex + -45)
                 = 255 * (Zpos mx * scale ex)).
    { rewrite Pos2Z.inj_mul, HsE. lia. }
    assert (HU : Zpos mx * scale ex <= scale 0).
    { rewrite (scale_0_split ex) by lia. nia. }
    assert (H8 : scale 8 = 256 * scale 0).
    { rewrite (scale_shift 0 8) by lia. change (2 ^ (8 - 0)) with 256. lia. }
    destruct (round_aux_scaled false (Zpos (mx * 8972014882652160)) (ex + -45)
                loc_Exact 8) as [m2 [e2 [H0 [He2 [-> Hb]]]]]; try lia.
    rewrite HM in Hb. split; [exact He|].
    assert (He2' : e2 <= -44) by lia.
    pose proof (scale_pos e2 ltac:(lia)) as Hp2.
    assert (H43 : 2 * scale e2 <= scale (-43)).
    { replace (-43) with (-44 + 1) by lia. rewrite scale_succ by lia.
      pose proof (scale_le e2 (-44) ltac:(lia)). lia. }
    assert (H1 : scale 0 = 2 * scale (-1)).
    { replace 0 with (-1 + 1) at 1 by lia. now rewrite scale_succ by lia. }
    destruct m2 as [|m|m]; [| |lia].
    + simpl in H. injection H as <-.
      change (JS.Math_round 0) with 0.
      pose proof (scale_pos (-1) ltac:(lia)). lia.
    + cbn [JS.value] in H.
      replace (0 <=? e2) with false in H by (symmetry; apply Z.leb_gt; lia).
      cbn [option_map] in H. injection H as <-.
      pose proof (Math_round_bounds (Zpos m) (- e2) ltac:(lia)) as Hr.
      cbv zeta in Hr. unfold JS.Math_round.
      set (l := Qfloor ((Zpos m # Z.to_pos (2 ^ (- e2))) + (1 # 2))) in *.
      pose proof (scale_0_split e2 ltac:(lia)) as HU2.
      assert (Hr' : 2 * l * scale 0 <= 2 * (Zpos m * scale e2) + scale 0
                    < 2 * (l + 1) * scale 0).
      { rewrite HU2. nia. }
      lia.
Qed.

Lemma decoded_near (l : Z) :
  0 <= l <= 255 ->
  match Prim2SF (JS.of_int l / 255) with
  | S754_zero false => l = 0
  | S754_finite false my ey =>
      0 < l /\ -1074 <= ey <= -52
      /\ Z.abs (255 * (Zpos my * scale ey) - l * scale 0) <= scale (-40)
  | _ => False
  end.
Proof.
  intros Hl.
  assert (Hall : forallb
                   (fun k => decoded_ok (Z.of_nat k)
                               (Prim2SF (JS.of_int (Z.of_nat k) / 255)))
                   (seq 0 256) = true) by (vm_compute; reflexivity).
  rewrite forallb_forall in Hall.
  specialize (Hall (Z.to_nat l)). rewrite Z2Nat.id in Hall by lia.
  specialize (Hall ltac:(apply in_seq; lia)).
  destruct (Prim2SF (JS.of_int l / 255)) as [[|]|s| |[|] my ey];
    cbn [decoded_ok] in Hall; try discriminate Hall.
  - now apply Z.eqb_eq.
  - rewrite !andb_true_iff in Hall. destruct Hall as [[[H0 H1] H2] H3].
    apply Z.ltb_lt in H0. apply Z.leb_le in H1, H2, H3.
    split; [exact H0|]. split; [lia|].
    pose proof (scale_pos ey ltac:(lia)) as Hp.
    rewrite (scale_0_split ey) by lia.
    assert (Hs : scale (-40) = scale ey * 2 ^ (- ey - 40)).
    { rewrite (scale_shift ey (-40)) by lia. f_equal. f_equal. lia. }
    rewrite Hs.
    replace (255 * (Zpos my * scale ey) - l * (scale ey * 2 ^ (- ey)))
      with (scale ey * (255 * Zpos my - l * 2 ^ (- ey))) by ring.
    rewrite Z.abs_mul, (Z.abs_eq (scale ey)) by lia.
    apply Z.mul_le_mono_nonneg_l; lia.
Qed.

Lemma Prim2SF_d0_01 :
  Prim2SF JS.d0_01 = S754_finite false 5764607523034235 (-59).
Proof. vm_compute. reflexivity. Qed.

(** A valid positive double below [2^-8] is below the double of 0.01. *)
Lemma small_lt_tolerance (m : positive) (e : Z) :
  bounded prec emax m e = true ->
  Zpos m * scale e < scale (-8) ->
  SFltb (S754_finite false m e) (Prim2SF JS.d0_01) = true.
Proof.
  intros Hv Hs. rewrite Prim2SF_d0_01.
  unfold bounded, canonical_mantissa in Hv.
  apply andb_true_iff in Hv. destruct Hv as [Hc _].
  apply Z.eqb_eq in Hc. rewrite fexp_eq in Hc.
  unfold SFltb, SFcompare.
  destruct (Z.compare_spec e (-59)) as [He|He|He]; [| reflexivity |].
  - exfalso. subst e.
    pose proof (digits2_pos_lower m) as Hd.
    assert (Hd53 : Zpos (digits2_pos m) = 53) by lia.
    rewrite Hd53 in Hd. change (2 ^ (53 - 1)) with 4503599627370496 in Hd.
    assert (H7 : scale (-8) <= scale (-59) * 4503599627370496).
    { rewrite (scale_shift (-59) (-8)) by lia.
      pose proof (scale_pos (-59) ltac:(lia)).
      apply Z.mul_le_mono_nonneg_l; [lia|].
      change (2 ^ (-8 - -59)) with 2251799813685248. lia. }
    pose proof (scale_pos (-59) ltac:(lia)). nia.
  - exfalso.
    pose proof (digits2_pos_lower m) as Hd.
    assert (Hd53 : Zpos (digits2_pos m) = 53) by lia.
    rewrite Hd53 in Hd. change (2 ^ (53 - 1)) with 4503599627370496 in Hd.
    assert (H7 : scale (-8) <= scale e * 4503599627370496).
    { pose proof (scale_le (-59) e ltac:(lia)).
      assert (scale (-8) <= scale (-59) * 4503599627370496).
      { rewrite (scale_shift (-59) (-8)) by lia.
        pose proof (scale_pos (-59) ltac:(lia)).
        apply Z.mul_le_mono_nonneg_l; [lia|].
        change (2 ^ (-8 - -59)) with 2251799813685248. lia. }
      nia. }
    pose proof (scale_pos e ltac:(lia)). nia.
Qed.

(** Rounding a magnitude below [2^-8] gives zero or a double that is at
    most [2^-52] above the magnitude. *)
Lemma binary_round_small (s : bool) (d : positive) (ez : Z) :
  -1074 <= ez <= -52 -> Zpos d * scale ez <= scale (-8) ->
  exists m2 e2,
    0 <= m2 /\ -1074 <= e2 <= -52
    /\ binary_round prec emax s d ez
       = match m2 with
         | Z0 => S754_zero s
         | Zpos m => S754_finite s m e2
         | Zneg _ => S754_nan
         end
    /\ m2 * scale e2 <= Zpos d * scale ez + scale (-52).
Proof.
  intros He Hd. unfold binary_round.
  destruct (shl_align_spec d ez (fexp prec emax (Zpos (digits2_pos d) + ez)))
    as [Hs Hm].
  destruct (shl_align d ez (fexp prec emax (Zpos (digits2_pos d) + ez)))
    as [mz ez'].
  cbn [fst snd] in Hs, Hm. rewrite fexp_eq in Hs.
  assert (He' : -1074 <= ez' <= ez) by lia.
  assert (HM : Zpos mz * scale ez' = Zpos d * scale ez).
  { rewrite Hm, (scale_shift ez' ez) by lia. ring. }
  destruct (round_aux_scaled s (Zpos mz) ez' loc_Exact (-8))
    as [m2 [e2 [H0 [He2 [Hr Hb]]]]]; try lia.
  exists m2, e2. split; [exact H0|]. split; [lia|]. split; [exact Hr|].
  pose proof (scale_le e2 (-52) ltac:(lia)). lia.
Qed.

Lemma scale_m1 : scale (-1) = 2251799813685248 * scale (-52).
Proof. rewrite (scale_shift (-52) (-1)) by lia. simpl. lia. Qed.
Lemma scale_m8 : scale (-8) = 17592186044416 * scale (-52).
Proof. rewrite (scale_shift (-52) (-8)) by lia. simpl. lia. Qed.
Lemma scale_m40 : scale (-40) = 4096 * scale (-52).
Proof. rewrite (scale_shift (-52) (-40)) by lia. simpl. lia. Qed.
Lemma scale_m43 : scale (-43) = 512 * scale (-52).
Proof. rewrite (scale_shift (-52) (-43)) by lia. simpl. lia. Qed.
Lemma scale_0 : scale 0 = 4503599627370496 * scale (-52).
Proof. rewrite (scale_shift (-52) 0) by lia. simpl. lia. Qed.

Lemma SFltb_zero_tolerance (s : bool) :
  SFltb (SFabs (S754_zero s)) (Prim2SF JS.d0_01) = true.
Proof. rewrite Prim2SF_d0_01. reflexivity. Qed.

(** A channel between 0 and 1 passes the tolerance test against its own
    level over 255. *)
Lemma close_to_own_level (x : float) (l : Z) :
  normalized x -> channel_level x = Some l -> 0 <= l <= 255 ->
  JS.lt (PrimFloat.abs (JS.of_int l / 255 - x)) JS.d0_01 = true.
Proof.
  intros Hx Hl Rl. unfold JS.lt.
  rewrite ltb_spec, abs_spec.
  pose proof (Prim2SF_valid (JS.of_int l / 255 - x)) as Hv.
  pose proof (Prim2SF_valid x) as Hvx.
  rewrite sub_spec in Hv |- *.
  pose proof (level_near x l Hx Hl) as Hnx.
  pose proof (decoded_near l Rl) as Hny.
  pose proof (scale_pos (-52) ltac:(lia)) as Hp52.
  destruct (Prim2SF (JS.of_int l / 255)) as [[|]|sy| |[|] my ey]; try contradiction;
    destruct (Prim2SF x) as [sx|sx| |[|] mx ex]; try contradiction.
  - (* both zero *)
    destruct sx; apply SFltb_zero_tolerance.
  - (* the decoded level is 0, the channel is not *)
    subst l. destruct Hnx as [Hex Hnx]. cbn [SF64sub SFsub negb SFabs].
    apply small_lt_tolerance; [exact Hvx|].
    rewrite scale_m1, scale_m43 in Hnx. rewrite scale_m8.
    pose proof (scale_pos ex ltac:(lia)). lia.
  - (* the channel is zero, so is its level, and the decoded level *)
    lia.
  - (* both positive *)
    destruct Hnx as [Hex Hnx]. destruct Hny as [Hl0 [Hey Hny]].
    unfold SF64sub, SFsub in Hv |- *. cbn [cond_Zopp] in Hv |- *.
    destruct (shl_align_spec my ey (Z.min ey ex)) as [Hsy Hmy].
    destruct (shl_align_spec mx ex (Z.min ey ex)) as [Hsx Hmx].
    rewrite Hsy in Hmy. rewrite Hsx in Hmx.
    replace (Z.min ey (Z.min ey ex)) with (Z.min ey ex) in Hmy by lia.
    replace (Z.min ex (Z.min ey ex)) with (Z.min ey ex) in Hmx by lia.
    set (ez := Z.min ey ex) in *.
    assert (Hez : -1074 <= ez <= -52) by (unfold ez; lia).
    assert (HVY : Zpos (fst (shl_align my ey ez)) * scale ez = Zpos my * scale ey).
    { rewrite Hmy, (scale_shift ez ey) by lia. ring. }
    assert (HVX : Zpos (fst (shl_align mx ex ez)) * scale ez = Zpos mx * scale ex).
    { rewrite Hmx, (scale_shift ez ex) by lia. ring. }
    rewrite scale_m1, scale_m43, scale_0 in Hnx. rewrite scale_m40, scale_0 in Hny.
    destruct (Zpos (fst (shl_align my ey ez)) - Zpos (fst (shl_align mx ex ez)))
      as [|d|d] eqn:Ed; cbn [binary_normalize] in Hv |- *.
    + apply SFltb_zero_tolerance.
    + destruct (binary_round_small false d ez Hez) as [m2 [e2 [H0 [He2 [Hr Hb]]]]].
      { rewrite scale_m8. nia. }
      rewrite Hr in Hv |- *.
      destruct m2 as [|m|m]; [apply SFltb_zero_tolerance| |lia].
      cbn [SFabs]. apply small_lt_tolerance; [exact Hv|].
      rewrite scale_m8. nia.
    + destruct (binary_round_small true d ez Hez) as [m2 [e2 [H0 [He2 [Hr Hb]]]]].
      { rewrite scale_m8. nia. }
      rewrite Hr in Hv |- *.
      destruct m2 as [|m|m]; [apply SFltb_zero_tolerance| |lia].
      cbn [SFabs]. apply small_lt_tolerance; [exact Hv|].
      rewrite scale_m8. nia.
Qed.

Lemma normalized_has_levels (c : Color.t) :
  normalized_color c -> exists lr lg lb, has_levels c lr lg lb.
Proof.
  intros [Hr [Hg Hb]].
  destruct (normalized_level _ Hr) as [lr [Er Rr]].
  destruct (normalized_level _ Hg) as [lg [Eg Rg]].
  destruct (normalized_level _ Hb) as [lb [Eb Rb]].
  exists lr, lg, lb. unfold has_levels. tauto.
Qed.

(* ================================================================== *)
(** * Colours *)
(* ================================================================== *)

Lemma extractColorFromFill_solid (ty : string) (c : Color.t) (o : option float)
  (colors : JS.Map ParsedColor.t) :
  extractColorFromFill (Paint.mk ty (Some c) o) colors
  = if String.eqb ty "SOLID" then set_if_new color_key toParsedColor colors c
    else colors.
Proof. reflexivity. Qed.

Lemma forEach_fills_fold (paints : option (list Paint.t))
  (colors : JS.Map ParsedColor.t) :
  forEach_opt extractColorFromFill paints colors
  = fold_left (set_if_new color_key toParsedColor) (solid_colors paints) colors.
Proof.
  destruct paints as [l|]; [|reflexivity]. simpl.
  revert colors. induction l as [|p l IH]; intros colors; simpl; [reflexivity|].
  rewrite fold_left_app, IH. f_equal.
  destruct p as [ty [c|] o]; [|reflexivity].
  rewrite extractColorFromFill_solid. simpl.
  destruct (String.eqb ty "SOLID"); reflexivity.
Qed.

Lemma forEach_effects_fold (effects : option (list Paint.t))
  (colors : JS.Map ParsedColor.t) :
  forEach_opt
    (fun effect colors =>
       match Paint.color effect with
       | Some c => extractColorFromFill (Paint.mk "SOLID" (Some c) None) colors
       | None => colors
       end) effects colors
  = fold_left (set_if_new color_key toParsedColor) (effect_colors effects) colors.
Proof.
  destruct effects as [l|]; [|reflexivity]. simpl.
  revert colors. induction l as [|p l IH]; intros colors; simpl; [reflexivity|].
  rewrite fold_left_app, IH. f_equal.
  destruct p as [ty [c|] o]; reflexivity.
Qed.

Lemma extractColors_visit_fold (node : FigmaNode.t) (colors : JS.Map ParsedColor.t) :
  extractColors_visit node colors
  = fold_left (set_if_new color_key toParsedColor)
      (node_color_candidates node) colors.
Proof.
  unfold extractColors_visit, node_color_candidates.
  now rewrite forEach_effects_fold, !forEach_fills_fold, !fold_left_app.
Qed.

(** [extractColors] keeps, in visiting order, the first candidate seen for
    each hex key. *)
Lemma extractColors_first_seen (nodes : list FigmaNode.t) :
  extractColors nodes
  = map toParsedColor
      (first_seen color_key string_dec [] (color_candidates nodes)).
Proof.
  unfold extractColors, color_candidates.
  rewrite forEach_traverse_preorder.
  rewrite (fold_left_pointwise _
             (fun acc node =>
                fold_left (set_if_new color_key toParsedColor)
                  (node_color_candidates node) acc)).
  - rewrite fold_left_flat_map. apply values_fold_set_if_new.
  - intros acc node. apply extractColors_visit_fold.
Qed.

Lemma toUpperCase_app (s1 s2 : string) :
  JS.toUpperCase (s1 ++ s2) = (JS.toUpperCase s1 ++ JS.toUpperCase s2)%string.
Proof.
  induction s1 as [|c s1 IH]; simpl; [reflexivity|now rewrite IH].
Qed.

Lemma toHex_level_byte (n : Z) :
  0 <= n <= 255 -> JS.toUpperCase (toHex_level n) = hex_byte n.
Proof.
  intros Hn.
  assert (Hall : forallb
                   (fun k => String.eqb (JS.toUpperCase (toHex_level (Z.of_nat k)))
                                        (hex_byte (Z.of_nat k)))
                   (seq 0 256) = true) by (vm_compute; reflexivity).
  rewrite forallb_forall in Hall.
  specialize (Hall (Z.to_nat n)).
  rewrite Z2Nat.id in Hall by lia.
  apply String.eqb_eq, Hall, in_seq. lia.
Qed.

(** [toHex] prints the level the channel rounds to. *)
Lemma toHex_of_level (x : float) (l : Z) :
  channel_level x = Some l -> toHex x = toHex_level l.
Proof.
  unfold channel_level, toHex, toHex_level, JS.round_to_string.
  now intros ->.
Qed.


(** When the three channels round to 8-bit levels the key is a number sign
    followed by six upper-case hexadecimal digits, two per level. *)
Lemma rgbToHex_bytes (r g b : float) (lr lg lb : Z) :
  channel_level r = Some lr -> channel_level g = Some lg ->
  channel_level b = Some lb ->
  0 <= lr <= 255 -> 0 <= lg <= 255 -> 0 <= lb <= 255 ->
  rgbToHex r g b = String "#" (hex_byte lr ++ hex_byte lg ++ hex_byte lb).
Proof.
  intros Hr Hg Hb Rr Rg Rb. unfold rgbToHex.
  change ("#" ++ toHex r ++ toHex g ++ toHex b)%string
    with (String "#" (toHex r ++ toHex g ++ toHex b)).
  simpl JS.toUpperCase at 1. rewrite !toUpperCase_app.
  rewrite (toHex_of_level r lr Hr), (toHex_of_level g lg Hg),
    (toHex_of_level b lb Hb).
  rewrite !toHex_level_byte by assumption.
  reflexivity.
Qed.




(** The double product is what gets rounded: the channel
    [0x1.010101010101p-9] has an exact product with 255 just below one
    half, the double product is one half, and the level is 1. *)
Example rgbToHex_rounds_the_double_product :
  rgbToHex 0x1.0101010101010p-9 0x1.0101010101010p-9 0x1.0101010101010p-9
  = "#010101"%string.
Proof. vm_compute. reflexivity. Qed.


(* ================================================================== *)
(** * Typography tokens *)
(* ================================================================== *)

Lemma generateTypographyName_rule (style : ParsedTextStyle.t) (index : Z) :
  typography_name_rule (ParsedTextStyle.fontSize style)
    (ParsedTextStyle.fontWeight style) (generateTypographyName style index).
Proof.
  unfold typography_name_rule, generateTypographyName.
  set (size := ParsedTextStyle.fontSize style).
  set (weight := ParsedTextStyle.fontWeight style).
  destruct (size >=? 32) eqn:E32; [apply Z.geb_le in E32|rewrite Z.geb_leb in E32; apply Z.leb_gt in E32].
  { destruct (weight >=? 700) eqn:W; [apply Z.geb_le in W|rewrite Z.geb_leb in W; apply Z.leb_gt in W];
      repeat split; intros; try reflexivity; lia. }
  destruct (size >=? 24) eqn:E24; [apply Z.geb_le in E24|rewrite Z.geb_leb in E24; apply Z.leb_gt in E24].
  { destruct (weight >=? 600) eqn:W; [apply Z.geb_le in W|rewrite Z.geb_leb in W; apply Z.leb_gt in W];
      repeat split; intros; try reflexivity; lia. }
  destruct (weight >=? 500) eqn:W; [apply Z.geb_le in W|rewrite Z.geb_leb in W; apply Z.leb_gt in W].
  - destruct (size >=? 18) eqn:E18; [apply Z.geb_le in E18|rewrite Z.geb_leb in E18; apply Z.leb_gt in E18].
    { repeat split; intros; try reflexivity; lia. }
    destruct (size >=? 16) eqn:E16; [apply Z.geb_le in E16|rewrite Z.geb_leb in E16; apply Z.leb_gt in E16].
    { repeat split; intros; try reflexivity; lia. }
    destruct (size >=? 14) eqn:E14; [apply Z.geb_le in E14|rewrite Z.geb_leb in E14; apply Z.leb_gt in E14];
      repeat split; intros; try reflexivity; lia.
  - destruct (size >=? 18) eqn:E18; [apply Z.geb_le in E18|rewrite Z.geb_leb in E18; apply Z.leb_gt in E18].
    { repeat split; intros; try reflexivity; lia. }
    destruct (size >=? 16) eqn:E16; [apply Z.geb_le in E16|rewrite Z.geb_leb in E16; apply Z.leb_gt in E16].
    { repeat split; intros; try reflexivity; lia. }
    destruct (size >=? 14) eqn:E14; [apply Z.geb_le in E14|rewrite Z.geb_leb in E14; apply Z.leb_gt in E14];
      repeat split; intros; try reflexivity; lia.
Qed.

(** [generateTypographyTokens] keeps the first style seen for each value
    of its key template. *)
Lemma generateTypographyTokens_first_seen (textStyles : list ParsedTextStyle.t) :
  generateTypographyTokens textStyles
  = JS.mapi toTypographyToken
      (first_seen typographyKey string_dec [] textStyles).
Proof.
  unfold generateTypographyTokens. f_equal.
  change (fold_left _ textStyles [])
    with (fold_left (set_if_new typographyKey (fun s : ParsedTextStyle.t => s))
            textStyles []).
  rewrite values_fold_set_if_new. apply map_id.
Qed.

Lemma typographyKey_of_triple (s1 s2 : ParsedTextStyle.t) :
  style_triple s1 = style_triple s2 -> typographyKey s1 = typographyKey s2.
Proof.
  unfold style_triple, typographyKey. intros H. injection H as -> -> ->.
  reflexivity.
Qed.

Lemma string_app_assoc (a b c : string) :
  ((a ++ b) ++ c)%string = (a ++ (b ++ c))%string.
Proof. induction a as [|x a IH]; simpl; [reflexivity|now rewrite IH]. Qed.

Lemma hyphen_free_app (a b : string) :
  hyphen_free (a ++ b) = hyphen_free a && hyphen_free b.
Proof.
  induction a as [|x a IH]; simpl; [reflexivity|].
  now rewrite IH, andb_assoc.
Qed.

(** A string is cut in one way only at its last hyphen. *)
Lemma cut_at_last_hyphen (a : string) :
  forall b x y,
    hyphen_free x = true -> hyphen_free y = true ->
    (a ++ "-" ++ x)%string = (b ++ "-" ++ y)%string ->
    a = b /\ x = y.
Proof.
  induction a as [|c a IH]; intros [|c' b] x y Hx Hy Heq; simpl in Heq.
  - injection Heq as ->. tauto.
  - injection Heq as <- ->.
    rewrite hyphen_free_app in Hx. simpl in Hx.
    rewrite andb_false_r in Hx. discriminate.
  - injection Heq as -> <-.
    rewrite hyphen_free_app in Hy. simpl in Hy.
    rewrite andb_false_r in Hy. discriminate.
  - injection Heq as -> Heq.
    destruct (IH _ _ _ Hx Hy Heq) as [-> ->]. tauto.
Qed.

Lemma uint_digits_hyphen_free (d : Decimal.uint) :
  hyphen_free (DecimalString.NilEmpty.string_of_uint d) = true.
Proof. induction d; simpl; assumption || reflexivity. Qed.

Lemma num_to_string_hyphen_free (n : Z) :
  0 <= n -> hyphen_free (JS.num_to_string n) = true.
Proof.
  intros Hn. destruct n as [|p|p]; [reflexivity| |lia].
  unfold JS.num_to_string. simpl.
  unfold DecimalString.NilZero.string_of_uint.
  destruct (Pos.to_uint p) eqn:E; try reflexivity;
    rewrite <- E; apply uint_digits_hyphen_free.
Qed.

Lemma num_to_string_inj (a b : Z) :
  JS.num_to_string a = JS.num_to_string b -> a = b.
Proof.
  unfold JS.num_to_string. intros H.
  assert (Hnn : forall n, Z.to_int n <> Decimal.Pos Decimal.Nil
                          /\ Z.to_int n <> Decimal.Neg Decimal.Nil).
  { intros [|p|p]; simpl; split; try discriminate;
      intros E; injection E as E; now apply DecimalPos.Unsigned.to_uint_nonnil in E. }
  apply (f_equal DecimalString.NilZero.int_of_string) in H.
  rewrite !DecimalString.NilZero.isi in H by apply Hnn.
  injection H as H. now apply DecimalZ.to_int_inj.
Qed.

Lemma typographyKey_inj (s1 s2 : ParsedTextStyle.t) :
  nonnegative_style s1 -> nonnegative_style s2 ->
  typographyKey s1 = typographyKey s2 -> style_triple s1 = style_triple s2.
Proof.
  intros [Hs1 Hw1] [Hs2 Hw2]. unfold typographyKey, style_triple.
  set (f1 := ParsedTextStyle.fontFamily s1).
  set (f2 := ParsedTextStyle.fontFamily s2).
  intros Heq.
  assert (Hre : forall f s w : string,
             (f ++ "-" ++ s ++ "-" ++ w)%string
             = ((f ++ "-" ++ s) ++ "-" ++ w)%string).
  { intros f s w. now rewrite !string_app_assoc. }
  rewrite !Hre in Heq.
  apply cut_at_last_hyphen in Heq; try now apply num_to_string_hyphen_free.
  destruct Heq as [Heq Hw].
  apply cut_at_last_hyphen in Heq; try now apply num_to_string_hyphen_free.
  destruct Heq as [Hf Hs].
  apply num_to_string_inj in Hw, Hs. congruence.
Qed.

Lemma first_seen_key_is_triple (textStyles : list ParsedTextStyle.t) :
  Forall nonnegative_style textStyles ->
  first_seen typographyKey string_dec [] textStyles = dedup_on_triple textStyles.
Proof.
  intros Hall. unfold dedup_on_triple.
  apply (first_seen_change_key typographyKey style_triple
           string_dec triple_eq_dec textStyles []).
  simpl. intros x y Hx Hy. rewrite Forall_forall in Hall. split.
  - apply typographyKey_inj; now apply Hall.
  - apply typographyKey_of_triple.
Qed.

Lemma token_triple_of_style (style : ParsedTextStyle.t) (index : Z) :
  token_triple (toTypographyToken style index) = style_triple style.
Proof. reflexivity. Qed.

(** Styles whose keys differ pairwise have pairwise different triples. *)
Lemma NoDup_keys_triples (l : list ParsedTextStyle.t) :
  NoDup (map typographyKey l) -> NoDup (map style_triple l).
Proof.
  induction l as [|s l IH]; simpl; intros Hnd; [constructor|].
  inversion Hnd as [|? ? Hs Hl]; subst. constructor; [|now apply IH].
  intros Hin. apply Hs. apply in_map_iff in Hin.
  destruct Hin as [s' [Ht Hin]]. apply in_map_iff. exists s'.
  split; [now apply typographyKey_of_triple|assumption].
Qed.

(** C5.  [generateTypographyTokens] makes one token from the first style
    seen under each key, so no two of its tokens share a (fontFamily,
    fontSize, fontWeight) triple, whatever duplicates the input has; each
    token copies its style's fields and is named by the size bands 32, 24,
    18, 16, 14 with the band's weight qualifier; for sizes and weights that
    are not negative the styles kept are exactly the first of each triple;
    size 32 with weight 700 is named heading-bold and size 16 with weight
    400 body-regular. *)
Theorem C5_typography_tokens (textStyles : list ParsedTextStyle.t) :
  let tokens := generateTypographyTokens textStyles in
  NoDup (map token_triple tokens)
  /\ (forall n token,
        nth_error tokens n = Some token ->
        exists style,
          In style textStyles
          /\ token = toTypographyToken style (Z.of_nat n)
          /\ typography_name_rule (TypographyToken.fontSize token)
               (TypographyToken.fontWeight token) (TypographyToken.name token))
  /\ (forall style, In style textStyles ->
        exists token, In token tokens
                      /\ typographyKey style
                         = (TypographyToken.fontFamily token ++ "-"
                            ++ JS.num_to_string (TypographyToken.fontSize token) ++ "-"
                            ++ JS.num_to_string (TypographyToken.fontWeight token))%string)
  /\ (Forall nonnegative_style textStyles ->
        tokens = JS.mapi toTypographyToken (dedup_on_triple textStyles))
  /\ (forall style index,
        ParsedTextStyle.fontSize style = 32 -> ParsedTextStyle.fontWeight style = 700 ->
        generateTypographyName style index = "heading-bold"%string)
  /\ (forall style index,
        ParsedTextStyle.fontSize style = 16 -> ParsedTextStyle.fontWeight style = 400 ->
        generateTypographyName style index = "body-regular"%string).
Proof.
  simpl. rewrite generateTypographyTokens_first_seen.
  set (kept := first_seen typographyKey string_dec [] textStyles).
  split.
  { unfold JS.mapi.
    rewrite (mapi_from_map toTypographyToken token_triple style_triple);
      [|apply token_triple_of_style].
    apply NoDup_keys_triples. apply first_seen_NoDup. }
  split.
  { intros n token Hn. rewrite mapi_nth_error in Hn.
    destruct (nth_error kept n) as [style|] eqn:E; [|discriminate].
    simpl in Hn. injection Hn as <-.
    exists style. split; [|split; [reflexivity|]].
    - apply nth_error_In in E. now apply first_seen_incl in E.
    - apply generateTypographyName_rule. }
  split.
  { intros style Hin.
    destruct (first_seen_complete typographyKey string_dec _ [] style Hin)
      as [y [Hy Hk]]; [intros []|].
    apply In_nth_error in Hy. destruct Hy as [n Hn].
    exists (toTypographyToken y (Z.of_nat n)). split.
    - apply (nth_error_In _ n). unfold kept. rewrite mapi_nth_error, Hn. reflexivity.
    - rewrite <- Hk. reflexivity. }
  split.
  { intros Hall. unfold kept. now rewrite first_seen_key_is_triple. }
  split; intros style index Hs Hw; unfold generateTypographyName;
    rewrite Hs, Hw; reflexivity.
Qed.

Lemma C5_typography_tokens_witness :
  generateTypographyTokens sample_text_styles
  = JS.mapi toTypographyToken (dedup_on_triple sample_text_styles).
Proof.
  apply (C5_typography_tokens sample_text_styles).
  repeat constructor; simpl; lia.
Defined.

(* ================================================================== *)
(** * A small design, end to end *)
(* ================================================================== *)

(** The frame with one fill and two text children gives one colour token
    (blue dominates, so neither red nor green does: [semantic]), the two
    typography tokens heading-bold and body-regular, and no spacing or
    border-radius token. *)
Example sample_frame_tokens :
  let tokens := generateDesignTokens (parseFigmaNodes [sample_frame]) in
  map (fun t => (ColorToken.name t, ColorToken.hex t, ColorToken.category t))
      (DesignTokens.colors tokens)
  = [("semantic-1"%string, "#3B82F6"%string, semantic)]
  /\ map TypographyToken.name (DesignTokens.typography tokens)
     = ["heading-bold"; "body-regular"]%string
  /\ DesignTokens.spacing tokens = []
  /\ DesignTokens.borderRadius tokens = [].
Proof. vm_compute. repeat split. Qed.

(* ================================================================== *)
(** * Auto-layout and spacing records *)
(* ================================================================== *)

Lemma or_num_zero (x : option Z) : JS.or_num x 0 = number_or_zero x.
Proof.
  destruct x as [v|]; simpl; [|reflexivity].
  destruct (v =? 0) eqn:E; [|reflexivity]. apply Z.eqb_eq in E. now subst.
Qed.

Lemma truthy_num_nonzero (x : option Z) :
  JS.truthy_num x = negb (number_or_zero x =? 0).
Proof. destruct x; reflexivity. Qed.

Lemma extractAutoLayoutInfo_visit_app (node : FigmaNode.t)
  (acc : list ParsedAutoLayout.t) :
  extractAutoLayoutInfo_visit node acc
  = acc ++ extractAutoLayoutInfo_visit node [].
Proof.
  unfold extractAutoLayoutInfo_visit.
  destruct (FigmaNode.layoutMode node) as [[| |]|]; simpl;
    try reflexivity; now rewrite app_nil_r.
Qed.

Lemma extractAutoLayoutInfo_flat (nodes : list FigmaNode.t) :
  extractAutoLayoutInfo nodes
  = flat_map (fun node => extractAutoLayoutInfo_visit node []) (preorder nodes).
Proof.
  unfold extractAutoLayoutInfo. rewrite forEach_traverse_preorder.
  rewrite (fold_left_pointwise _
             (fun acc node => acc ++ extractAutoLayoutInfo_visit node [])).
  - now rewrite fold_left_append.
  - intros acc node. apply extractAutoLayoutInfo_visit_app.
Qed.

Lemma extractAutoLayoutInfo_visit_record (node : FigmaNode.t) :
  extractAutoLayoutInfo_visit node []
  = if has_auto_layout node
    then [ {| ParsedAutoLayout.direction :=
                match FigmaNode.layoutMode node with Some m => m | None => NONE end;
              ParsedAutoLayout.padding := node_padding node;
              ParsedAutoLayout.spacing := number_or_zero (FigmaNode.itemSpacing node) |} ]
    else [].
Proof.
  unfold extractAutoLayoutInfo_visit, has_auto_layout, node_padding.
  rewrite !or_num_zero.
  destruct (FigmaNode.layoutMode node) as [[| |]|]; reflexivity.
Qed.

Lemma flat_map_if_length {A B : Type} (p : A -> bool) (f : A -> B) (l : list A) :
  List.length (flat_map (fun x => if p x then [f x] else []) l)
  = List.length (filter p l).
Proof.
  induction l as [|x l IH]; simpl; [reflexivity|].
  destruct (p x); simpl; now rewrite IH.
Qed.

Lemma flat_map_if_map {A B : Type} (p : A -> bool) (f : A -> B) (l : list A) :
  flat_map (fun x => if p x then [f x] else []) l = map f (filter p l).
Proof.
  induction l as [|x l IH]; simpl; [reflexivity|].
  destruct (p x); simpl; now rewrite IH.
Qed.

Lemma extractAutoLayoutInfo_records (nodes : list FigmaNode.t) :
  extractAutoLayoutInfo nodes
  = map auto_layout_of (filter has_auto_layout (preorder nodes)).
Proof.
  rewrite extractAutoLayoutInfo_flat.
  rewrite (flat_map_ext _
             (fun node => if has_auto_layout node then [auto_layout_of node] else [])).
  - apply flat_map_if_map.
  - intros node. apply extractAutoLayoutInfo_visit_record.
Qed.

(** X1.  [extractAutoLayoutInfo] returns exactly one record for each node
    of the forest whose [layoutMode] is HORIZONTAL or VERTICAL, in pre-order
    of the nodes, and none for any other node: the result is the sequence of
    those nodes, each replaced by its record.  No record has direction NONE,
    the number of records is the number of such nodes, and a record is
    returned exactly when some such node has its direction, its four
    paddings (an absent padding counted as 0) and its item spacing (absent
    counted as 0). *)
Theorem X1_auto_layout_records (nodes : list FigmaNode.t) :
  let out := extractAutoLayoutInfo nodes in
  out = map auto_layout_of (filter has_auto_layout (preorder nodes))
  /\ (forall node, has_auto_layout node = true ->
        FigmaNode.layoutMode node
        = Some (ParsedAutoLayout.direction (auto_layout_of node))
        /\ ParsedAutoLayout.padding (auto_layout_of node)
           = {| Sides.left := JS.or_num (FigmaNode.paddingLeft node) 0;
                Sides.right := JS.or_num (FigmaNode.paddingRight node) 0;
                Sides.top := JS.or_num (FigmaNode.paddingTop node) 0;
                Sides.bottom := JS.or_num (FigmaNode.paddingBottom node) 0 |}
        /\ ParsedAutoLayout.spacing (auto_layout_of node)
           = JS.or_num (FigmaNode.itemSpacing node) 0)
  /\ (forall node, has_auto_layout node = true <->
        FigmaNode.layoutMode node = Some HORIZONTAL
        \/ FigmaNode.layoutMode node = Some VERTICAL)
  /\ Forall (fun l => ParsedAutoLayout.direction l <> NONE) out
  /\ List.length out = List.length (filter has_auto_layout (preorder nodes))
  /\ forall l,
       In l out <->
       exists node,
         In node (preorder nodes)
         /\ FigmaNode.layoutMode node = Some (ParsedAutoLayout.direction l)
         /\ ParsedAutoLayout.direction l <> NONE
         /\ ParsedAutoLayout.padding l = node_padding node
         /\ ParsedAutoLayout.spacing l = number_or_zero (FigmaNode.itemSpacing node).
Proof.
  simpl.
  split; [apply extractAutoLayoutInfo_records|].
  split.
  { intros node Hh. unfold auto_layout_of, node_padding, has_auto_layout in *.
    simpl. rewrite !or_num_zero.
    destruct (FigmaNode.layoutMode node) as [[| |]|];
      try discriminate Hh; repeat split. }
  split.
  { intros node. unfold has_auto_layout.
    destruct (FigmaNode.layoutMode node) as [[| |]|]; split;
      try (intros H; discriminate H);
      try (intros [H|H]; discriminate H);
      intros _; try reflexivity; [now left|now right]. }
  rewrite extractAutoLayoutInfo_flat.
  assert (Hin : forall l,
             In l (flat_map (fun node => extractAutoLayoutInfo_visit node [])
                     (preorder nodes)) <->
             exists node,
               In node (preorder nodes)
               /\ FigmaNode.layoutMode node = Some (ParsedAutoLayout.direction l)
               /\ ParsedAutoLayout.direction l <> NONE
               /\ ParsedAutoLayout.padding l = node_padding node
               /\ ParsedAutoLayout.spacing l
                  = number_or_zero (FigmaNode.itemSpacing node)).
  { intros l. rewrite in_flat_map. split.
    - intros [node [Hn Hl]]. exists node. split; [assumption|].
      rewrite extractAutoLayoutInfo_visit_record in Hl. unfold has_auto_layout in Hl.
      destruct (FigmaNode.layoutMode node) as [[| |]|]; simpl in Hl;
        try contradiction; destruct Hl as [<-|[]]; simpl;
        repeat split; discriminate.
    - intros [node [Hn [Hm [Hd [Hp Hs]]]]]. exists node. split; [assumption|].
      rewrite extractAutoLayoutInfo_visit_record. unfold has_auto_layout.
      rewrite Hm. destruct l as [d p sp]. simpl in *. subst.
      destruct d; simpl; [now left|now left|contradiction]. }
  split; [|split].
  - apply Forall_forall. intros l Hl. apply Hin in Hl.
    destruct Hl as [_ [_ [_ [Hd _]]]]. exact Hd.
  - rewrite (flat_map_ext _
               (fun node =>
                  if has_auto_layout node
                  then [ {| ParsedAutoLayout.direction :=
                              match FigmaNode.layoutMode node with
                              | Some m => m | None => NONE end;
                            ParsedAutoLayout.padding := node_padding node;
                            ParsedAutoLayout.spacing :=
                              number_or_zero (FigmaNode.itemSpacing node) |} ]
                  else [])).
    + apply flat_map_if_length.
    + intros node. apply extractAutoLayoutInfo_visit_record.
  - exact Hin.
Qed.

Lemma extractSpacing_visit_record (node : FigmaNode.t) :
  extractSpacing_visit node []
  = if has_spacing node
    then [ {| ParsedSpacing.padding :=
                if has_padding node then Some (node_padding node) else None;
              ParsedSpacing.margin := None;
              ParsedSpacing.gap := FigmaNode.itemSpacing node |} ]
    else [].
Proof.
  unfold extractSpacing_visit, has_spacing, has_padding, node_padding. simpl.
  rewrite !truthy_num_nonzero, !or_num_zero.
  destruct (negb (number_or_zero (FigmaNode.paddingLeft node) =? 0)
            || negb (number_or_zero (FigmaNode.paddingRight node) =? 0)
            || negb (number_or_zero (FigmaNode.paddingTop node) =? 0)
            || negb (number_or_zero (FigmaNode.paddingBottom node) =? 0));
    destruct (FigmaNode.itemSpacing node); reflexivity.
Qed.

Lemma extractSpacing_In (nodes : list FigmaNode.t) (s : ParsedSpacing.t) :
  In s (extractSpacing nodes) <->
  exists node,
    In node (preorder nodes)
    /\ has_spacing node = true
    /\ s = {| ParsedSpacing.padding :=
                if has_padding node then Some (node_padding node) else None;
              ParsedSpacing.margin := None;
              ParsedSpacing.gap := FigmaNode.itemSpacing node |}.
Proof.
  rewrite extractSpacing_flat, in_flat_map. split.
  - intros [node [Hn Hs]]. exists node. split; [assumption|].
    rewrite extractSpacing_visit_record in Hs.
    destruct (has_spacing node); [|contradiction].
    destruct Hs as [<-|[]]. tauto.
  - intros [node [Hn [Hh ->]]]. exists node. split; [assumption|].
    rewrite extractSpacing_visit_record, Hh. now left.
Qed.

(** X2.  Every record of [extractSpacing] comes from a node that has a
    padding different from 0 or a defined item spacing: the record is never
    empty (it has a padding part or a gap), a padding part has at least one
    side different from 0 and carries the node's four paddings with absent
    ones as 0, and the gap is the node's item spacing exactly when that is
    defined, 0 included.  The number of records is the number of such
    nodes. *)
Theorem X2_spacing_records (nodes : list FigmaNode.t) :
  let out := extractSpacing nodes in
  List.length out = List.length (filter has_spacing (preorder nodes))
  /\ forall s, In s out ->
       (ParsedSpacing.padding s <> None \/ ParsedSpacing.gap s <> None)
       /\ (forall p, ParsedSpacing.padding s = Some p ->
             Sides.left p <> 0 \/ Sides.right p <> 0
             \/ Sides.top p <> 0 \/ Sides.bottom p <> 0)
       /\ exists node,
            In node (preorder nodes)
            /\ ParsedSpacing.gap s = FigmaNode.itemSpacing node
            /\ (forall p, ParsedSpacing.padding s = Some p -> p = node_padding node).
Proof.
  simpl. split.
  - rewrite extractSpacing_flat.
    rewrite (flat_map_ext _
               (fun node =>
                  if has_spacing node
                  then [ {| ParsedSpacing.padding :=
                              if has_padding node then Some (node_padding node)
                              else None;
                            ParsedSpacing.margin := None;
                            ParsedSpacing.gap := FigmaNode.itemSpacing node |} ]
                  else [])).
    + apply flat_map_if_length.
    + intros node. apply extractSpacing_visit_record.
  - intros s Hs. apply extractSpacing_In in Hs.
    destruct Hs as [node [Hn [Hh ->]]]. simpl.
    split; [|split].
    + unfold has_spacing in Hh. destruct (has_padding node); [left; discriminate|].
      simpl in Hh. destruct (FigmaNode.itemSpacing node); [right|]; discriminate.
    + intros p Hp. destruct (has_padding node) eqn:E; [|discriminate].
      injection Hp as <-. unfold has_padding in E.
      rewrite !orb_true_iff, !negb_true_iff, !Z.eqb_neq in E. tauto.
    + exists node. split; [assumption|]. split; [reflexivity|].
      intros p Hp. destruct (has_padding node); [|discriminate]. congruence.
Qed.

(** X3.  Nothing of a node's spacing is lost: for every node of the forest,
    a defined item spacing (0 included) is the gap of some record of
    [extractSpacing], and when one of its paddings is not 0 some record
    carries its four paddings. *)
Theorem X3_spacing_of_every_node (nodes : list FigmaNode.t) (node : FigmaNode.t)
  (Hn : In node (preorder nodes)) :
  (forall v, FigmaNode.itemSpacing node = Some v ->
     exists s, In s (extractSpacing nodes) /\ ParsedSpacing.gap s = Some v)
  /\ (has_padding node = true ->
     exists s, In s (extractSpacing nodes)
               /\ ParsedSpacing.padding s = Some (node_padding node)).
Proof.
  split.
  - intros v Hv. eexists. split.
    + apply extractSpacing_In. exists node. split; [assumption|].
      split; [|reflexivity]. unfold has_spacing. rewrite Hv. apply orb_true_r.
    + exact Hv.
  - intros Hp. eexists. split.
    + apply extractSpacing_In. exists node. split; [assumption|].
      split; [|reflexivity]. unfold has_spacing. now rewrite Hp.
    + simpl. now rewrite Hp.
Qed.

Lemma X3_spacing_of_every_node_witness :
  exists s, In s (extractSpacing [sample_card]) /\ ParsedSpacing.gap s = Some 8.
Proof.
  apply (X3_spacing_of_every_node [sample_card] sample_card).
  - simpl. now left.
  - reflexivity.
Defined.

(* ================================================================== *)
(** * More on text styles *)
(* ================================================================== *)

Lemma or_str_nonempty (a : option string) (d : string) :
  d <> EmptyString -> JS.or_str a d <> EmptyString.
Proof. intros Hd. destruct a as [[|c s]|]; simpl; [assumption|discriminate|assumption]. Qed.

Lemma or_num_nonzero (a : option Z) (d : Z) : d <> 0 -> JS.or_num a d <> 0.
Proof.
  intros Hd. destruct a as [v|]; simpl; [|assumption].
  destruct (v =? 0) eqn:E; [assumption|now apply Z.eqb_neq].
Qed.

(** X4.  Every record of [extractTextStyles] has a font family that is not
    empty and a font size and weight that are not 0.  It is the record made
    from the style of a TEXT node of the forest, and its line height can be
    0 only when that very style gives the line height as a {value, unit}
    pair with value 0. *)
Theorem X4_text_style_fields_defined (nodes : list FigmaNode.t) :
  Forall
    (fun t =>
       ParsedTextStyle.fontFamily t <> EmptyString
       /\ ParsedTextStyle.fontSize t <> 0
       /\ ParsedTextStyle.fontWeight t <> 0
       /\ exists node style,
            In node (preorder nodes)
            /\ FigmaNode.type node = "TEXT"%string
            /\ FigmaNode.style node = Some style
            /\ t = toParsedTextStyle style
            /\ (ParsedTextStyle.lineHeight t = 0 ->
                exists unit, Style.lineHeight style = Some (WithUnit 0 unit)))
    (extractTextStyles nodes).
Proof.
  apply Forall_forall. intros t Ht.
  rewrite extractTextStyles_first_seen in Ht.
  apply in_map_iff in Ht. destruct Ht as [style [<- Hin]].
  apply first_seen_incl in Hin. destruct Hin as [Hin _].
  apply text_style_candidates_In in Hin. destruct Hin as [node [Hn [Hty Hst]]].
  split; [apply or_str_nonempty; discriminate|].
  split; [apply or_num_nonzero; discriminate|].
  split; [apply or_num_nonzero; discriminate|].
  exists node, style.
  split; [exact Hn|]. split; [exact Hty|]. split; [exact Hst|].
  split; [reflexivity|].
  unfold toParsedTextStyle. simpl.
  destruct (Style.lineHeight style) as [[n|v u]|] eqn:El; simpl; intros Hz.
  - exfalso. destruct (n =? 0) eqn:E.
    + revert Hz. apply or_num_nonzero. discriminate.
    + apply Z.eqb_neq in E. contradiction.
  - subst v. now exists u.
  - exfalso. revert Hz. apply or_num_nonzero. discriminate.
Qed.

(** X5.  [extractTextStyles] returns the empty sequence exactly when no
    node of the forest is of type TEXT with a style; nodes of another type
    are ignored even when they carry a style, and there are never more
    records than TEXT nodes with a style. *)
Theorem X5_text_styles_empty_iff (nodes : list FigmaNode.t) :
  (extractTextStyles nodes = [] <->
   forall node, In node (preorder nodes) ->
     FigmaNode.type node = "TEXT"%string -> FigmaNode.style node = None)
  /\ (List.length (extractTextStyles nodes)
      <= List.length (text_style_candidates nodes))%nat.
Proof.
  rewrite extractTextStyles_first_seen. split.
  - split.
    + intros Hnil node Hn Hty.
      destruct (FigmaNode.style node) as [style|] eqn:Hst; [|reflexivity].
      exfalso.
      assert (Hc : In style (text_style_candidates nodes)).
      { apply text_style_candidates_In. now exists node. }
      destruct (first_seen_complete textStyleKey string_dec _ [] style Hc)
        as [y [Hy _]]; [intros []|].
      apply (in_map toParsedTextStyle) in Hy. rewrite Hnil in Hy. contradiction.
    + intros Hnone.
      destruct (text_style_candidates nodes) as [|style l] eqn:E; [reflexivity|].
      exfalso.
      assert (Hc : In style (text_style_candidates nodes)) by (rewrite E; now left).
      apply text_style_candidates_In in Hc. destruct Hc as [node [Hn [Hty Hst]]].
      rewrite (Hnone node Hn Hty) in Hst. discriminate.
  - rewrite length_map.
    generalize (@nil string).
    induction (text_style_candidates nodes) as [|x l IH]; intros seen; simpl.
    + constructor.
    + destruct (in_dec string_dec (textStyleKey x) seen); simpl.
      * specialize (IH seen). lia.
      * specialize (IH (seen ++ [textStyleKey x])). lia.
Qed.

Lemma first_seen_NoDup_id {A K : Type} (key : A -> K)
  (dec : forall x y : K, {x = y} + {x <> y}) (l : list A) :
  forall seen, NoDup (seen ++ map key l) -> first_seen key dec seen l = l.
Proof.
  induction l as [|x l IH]; intros seen Hnd; simpl; [reflexivity|].
  simpl in Hnd.
  destruct (in_dec dec (key x) seen) as [Hin|Hnin].
  - exfalso. apply NoDup_remove_2 in Hnd. apply Hnd. apply in_or_app. now left.
  - f_equal. apply IH. rewrite <- app_assoc. exact Hnd.
Qed.

Lemma textStyleKey_is_typographyKey (style : Style.t) :
  names_family_and_size style ->
  textStyleKey style = typographyKey (toParsedTextStyle style).
Proof.
  intros [[f [Hf Hfn]] [n [Hn Hnn]]].
  unfold textStyleKey, typographyKey, toParsedTextStyle. simpl.
  rewrite Hf, Hn. simpl.
  destruct f as [|c f]; [contradiction|]. simpl.
  apply Z.eqb_neq in Hnn. rewrite Hnn. reflexivity.
Qed.

Lemma map_ext_Forall {A B : Type} (f g : A -> B) (l : list A) :
  Forall (fun x => f x = g x) l -> map f l = map g l.
Proof. induction 1 as [|x l Hx _ IH]; simpl; [reflexivity|now rewrite Hx, IH]. Qed.

(** X6.  When every TEXT node's style names a font family that is not
    empty and a font size that is not 0, the records of [extractTextStyles]
    have pairwise different (fontFamily, fontSize, fontWeight) triples, and
    the second deduplication, in [generateTypographyTokens], drops nothing:
    there is one typography token per extracted style, in the same order. *)
Theorem X6_text_styles_unique_when_named (nodes : list FigmaNode.t)
  (Hnamed : Forall names_family_and_size (text_style_candidates nodes)) :
  NoDup (map style_triple (extractTextStyles nodes))
  /\ generateTypographyTokens (extractTextStyles nodes)
     = JS.mapi toTypographyToken (extractTextStyles nodes).
Proof.
  rewrite extractTextStyles_first_seen.
  set (kept := first_seen textStyleKey string_dec [] (text_style_candidates nodes)).
  assert (Hkeys : map typographyKey (map toParsedTextStyle kept)
                  = map textStyleKey kept).
  { rewrite map_map. apply map_ext_Forall. apply Forall_forall.
    intros style Hs. symmetry. apply textStyleKey_is_typographyKey.
    rewrite Forall_forall in Hnamed. apply Hnamed.
    now apply first_seen_incl in Hs. }
  assert (Hnd : NoDup (map typographyKey (map toParsedTextStyle kept))).
  { rewrite Hkeys. apply first_seen_NoDup. }
  split.
  - now apply NoDup_keys_triples.
  - rewrite generateTypographyTokens_first_seen.
    now rewrite first_seen_NoDup_id.
Qed.

Lemma X6_text_styles_unique_when_named_witness :
  NoDup (map style_triple (extractTextStyles [sample_frame]))
  /\ generateTypographyTokens (extractTextStyles [sample_frame])
     = JS.mapi toTypographyToken (extractTextStyles [sample_frame]).
Proof.
  apply (X6_text_styles_unique_when_named [sample_frame]).
  repeat constructor; simpl; eexists; split; try reflexivity; discriminate.
Defined.

(* ================================================================== *)
(** * Token names *)
(* ================================================================== *)

Lemma generateSpacingTokens_mapi (spacing : list Z) :
  generateSpacingTokens spacing
  = JS.mapi spacing_token_of (JS.sort_ascending (JS.spread_Set spacing)).
Proof. reflexivity. Qed.

Lemma generateBorderRadiusTokens_mapi (borderRadius : list Z) :
  generateBorderRadiusTokens borderRadius
  = JS.mapi radius_token_of (JS.sort_ascending (JS.spread_Set borderRadius)).
Proof. reflexivity. Qed.

Lemma mapi_from_In_index {A B : Type} (f : A -> Z -> B) (l : list A) :
  forall i y,
    In y (JS.mapi_from i f l) -> exists x j, In x l /\ i <= j /\ y = f x j.
Proof.
  induction l as [|x l IH]; intros i y Hy; simpl in *; [contradiction|].
  destruct Hy as [<-|Hy].
  - exists x, i. repeat split; [now left|lia].
  - destruct (IH _ _ Hy) as [x' [j [Hin [Hj ->]]]].
    exists x', j. repeat split; [now right|lia].
Qed.

(** Names that determine their index are pairwise different. *)
Lemma mapi_from_NoDup_by_index {A B C : Type} (f : A -> Z -> B) (g : B -> C)
  (l : list A) :
  (forall x y i j, g (f x i) = g (f y j) -> i = j) ->
  forall k, NoDup (map g (JS.mapi_from k f l)).
Proof.
  intros Hinj. induction l as [|x l IH]; intros k; simpl; constructor.
  - intros Hin. apply in_map_iff in Hin. destruct Hin as [b [Hb Hin]].
    apply mapi_from_In_index in Hin. destruct Hin as [y [j [_ [Hj ->]]]].
    apply Hinj in Hb. lia.
  - apply IH.
Qed.

Lemma dec_suffix_inj (a b : Z) (x y : string) :
  hyphen_free x = true -> hyphen_free y = true ->
  (JS.num_to_string a ++ "-" ++ x)%string = (JS.num_to_string b ++ "-" ++ y)%string ->
  a = b /\ x = y.
Proof.
  intros Hx Hy H. apply cut_at_last_hyphen in H; try assumption.
  destruct H as [H ->]. split; [now apply num_to_string_inj|reflexivity].
Qed.

Lemma generateColorName_index (c1 c2 : ParsedColor.t) (i j : Z)
  (l1 l2 : list ParsedColor.t) :
  generateColorName c1 i l1 = generateColorName c2 j l2 -> i = j.
Proof.
  unfold generateColorName.
  assert (Hd : forall a b u v,
             hyphen_free u = true -> hyphen_free v = true ->
             ("neutral-" ++ JS.num_to_string a ++ "-" ++ u)%string
             = ("neutral-" ++ JS.num_to_string b ++ "-" ++ v)%string ->
             a = b /\ u = v).
  { intros a b u v Hu Hv H. simpl in H.
    injection H as H. now apply dec_suffix_inj in H. }
  destruct (JS.lt (brightness c1) JS.d0_3);
    destruct (JS.lt (brightness c2) JS.d0_3);
    destruct (JS.gt (brightness c1) JS.d0_7);
    destruct (JS.gt (brightness c2) JS.d0_7);
    destruct (JS.gt (ParsedColor.r c1) (ParsedColor.g c1)
              && JS.gt (ParsedColor.r c1) (ParsedColor.b c1));
    destruct (JS.gt (ParsedColor.r c2) (ParsedColor.g c2)
              && JS.gt (ParsedColor.r c2) (ParsedColor.b c2));
    destruct (JS.gt (ParsedColor.g c1) (ParsedColor.r c1)
              && JS.gt (ParsedColor.g c1) (ParsedColor.b c1));
    destruct (JS.gt (ParsedColor.g c2) (ParsedColor.r c2)
              && JS.gt (ParsedColor.g c2) (ParsedColor.b c2));
    intros H;
    try discriminate H;
    try (apply (Hd _ _ "dark"%string "dark"%string) in H;
           [lia|reflexivity|reflexivity]);
    try (apply (Hd _ _ "light"%string "light"%string) in H;
           [lia|reflexivity|reflexivity]);
    try (apply (Hd _ _ "dark"%string "light"%string) in H;
           [destruct H as [_ H]; discriminate H|reflexivity|reflexivity]);
    try (apply (Hd _ _ "light"%string "dark"%string) in H;
           [destruct H as [_ H]; discriminate H|reflexivity|reflexivity]);
    simpl in H; injection H as H; apply num_to_string_inj in H; lia.
Qed.

(** X7.  [generateColorTokens] makes one token per colour, in the same
    order, copying the colour's hex into [value] and [hex] and its rgba
    string; the names of the tokens are pairwise different, whatever the
    colours are. *)
Theorem X7_color_tokens_named_apart (colors : list ParsedColor.t) :
  let tokens := generateColorTokens colors in
  NoDup (map ColorToken.name tokens)
  /\ map ColorToken.hex tokens = map ParsedColor.hex colors
  /\ map ColorToken.value tokens = map ParsedColor.hex colors
  /\ map ColorToken.rgba tokens = map ParsedColor.rgba colors.
Proof.
  simpl. unfold generateColorTokens, JS.mapi. split; [|repeat split].
  - apply (mapi_from_NoDup_by_index _ ColorToken.name).
    intros x y i j H. simpl in H. now apply generateColorName_index in H.
  - now apply mapi_from_map.
  - now apply mapi_from_map.
  - now apply mapi_from_map.
Qed.

Lemma mapi_from_NoDup_names {B : Type} (f : Z -> Z -> B) (g : B -> string)
  (vals : list Z) :
  (forall v w i j, g (f v i) = g (f w j) -> i = j \/ v = w) ->
  NoDup vals -> forall k, NoDup (map g (JS.mapi_from k f vals)).
Proof.
  intros Hinj. induction 1 as [|v vals Hv Hnd IH]; intros k; simpl; constructor.
  - intros Hin. apply in_map_iff in Hin. destruct Hin as [b [Hb Hin]].
    apply mapi_from_In_index in Hin. destruct Hin as [w [j [Hw [Hj ->]]]].
    apply Hinj in Hb. destruct Hb as [Hb|Hb]; [lia|]. subst. contradiction.
  - apply IH.
Qed.

Lemma spacing_name_index (v w i j : Z) :
  SpacingToken.name (spacing_token_of v i) = SpacingToken.name (spacing_token_of w j) ->
  i = j \/ v = w.
Proof.
  unfold spacing_token_of. simpl.
  destruct (v =? 0) eqn:Ev; destruct (w =? 0) eqn:Ew.
  - intros _. right. apply Z.eqb_eq in Ev, Ew. congruence.
  - destruct (w <=? 4), (w <=? 8), (w <=? 16), (w <=? 24), (w <=? 32);
      intros H; discriminate H.
  - destruct (v <=? 4), (v <=? 8), (v <=? 16), (v <=? 24), (v <=? 32);
      intros H; discriminate H.
  - destruct (v <=? 4), (v <=? 8), (v <=? 16), (v <=? 24), (v <=? 32),
             (w <=? 4), (w <=? 8), (w <=? 16), (w <=? 24), (w <=? 32);
      intros H; try discriminate H;
      left; simpl in H; injection H as H; now apply num_to_string_inj.
Qed.

Lemma radius_name_index (v w i j : Z) :
  BorderRadiusToken.name (radius_token_of v i)
  = BorderRadiusToken.name (radius_token_of w j) ->
  i = j \/ v = w.
Proof.
  unfold radius_token_of. simpl.
  destruct (v =? 0) eqn:Ev; destruct (w =? 0) eqn:Ew.
  - intros _. right. apply Z.eqb_eq in Ev, Ew. congruence.
  - destruct (w <=? 4), (w <=? 8), (w <=? 16); intros H; discriminate H.
  - destruct (v <=? 4), (v <=? 8), (v <=? 16); intros H; discriminate H.
  - destruct (v <=? 4), (v <=? 8), (v <=? 16), (w <=? 4), (w <=? 8), (w <=? 16);
      intros H; try discriminate H;
      left; simpl in H; injection H as H; now apply num_to_string_inj.
Qed.

(** Two strictly increasing arrays with the same members are equal. *)
Lemma StronglySorted_lt_unique (l1 : list Z) :
  forall l2,
    StronglySorted Z.lt l1 -> StronglySorted Z.lt l2 ->
    (forall x, In x l1 <-> In x l2) -> l1 = l2.
Proof.
  induction l1 as [|a l1 IH]; intros [|b l2] H1 H2 Hin.
  - reflexivity.
  - exfalso. apply (proj2 (Hin b)). now left.
  - exfalso. apply (proj1 (Hin a)). now left.
  - inversion H1 as [|? ? Hs1 Ha]; inversion H2 as [|? ? Hs2 Hb]; subst.
    rewrite Forall_forall in Ha, Hb.
    assert (a = b).
    { destruct (proj1 (Hin a) (or_introl eq_refl)) as [Hab|Hab]; [now symmetry|].
      destruct (proj2 (Hin b) (or_introl eq_refl)) as [Hba|Hba]; [assumption|].
      specialize (Ha b Hba). specialize (Hb a Hab). lia. }
    subst b. f_equal. apply IH; try assumption.
    intros x. split; intros Hx.
    + destruct (proj1 (Hin x) (or_intror Hx)) as [Hxa|Hxa]; [|assumption].
      subst x. specialize (Ha a Hx). lia.
    + destruct (proj2 (Hin x) (or_intror Hx)) as [Hxa|Hxa]; [|assumption].
      subst x. specialize (Hb a Hx). lia.
Qed.

(** In a strictly increasing array an element's position is the number of
    elements below it. *)
Lemma StronglySorted_lt_position (l : list Z) :
  StronglySorted Z.lt l ->
  forall n v, nth_error l n = Some v ->
              n = List.length (filter (fun x => x <? v) l).
Proof.
  induction 1 as [|a l Hs IH Ha]; intros n v Hn.
  - destruct n; discriminate.
  - rewrite Forall_forall in Ha. destruct n as [|n]; simpl in *.
    + injection Hn as ->. rewrite Z.ltb_irrefl.
      assert (Hnone : filter (fun x => x <? v) l = []).
      { clear IH Hs. induction l as [|b l IHl]; [reflexivity|]. simpl.
        assert (v < b) by (apply Ha; now left).
        destruct (b <? v) eqn:E; [apply Z.ltb_lt in E; lia|].
        apply IHl. intros x Hx. apply Ha. now right. }
      now rewrite Hnone.
    + assert (a < v) by (apply Ha; now apply nth_error_In in Hn).
      destruct (a <? v) eqn:E; [|apply Z.ltb_ge in E; lia].
      simpl. f_equal. now apply IH.
Qed.

Lemma Permutation_filter_length (p : Z -> bool) (l1 l2 : list Z) :
  Permutation l1 l2 -> List.length (filter p l1) = List.length (filter p l2).
Proof.
  induction 1 as [|x l1 l2 _ IH|x y l|l1 l2 l3 _ IH1 _ IH2]; simpl.
  - reflexivity.
  - destruct (p x); simpl; now rewrite IH.
  - destruct (p x), (p y); reflexivity.
  - now rewrite IH1.
Qed.

(** X8.  The names of the spacing tokens are pairwise different; the
    tokens depend only on which values occur in the input, not on their
    order or multiplicity; the token at position [n] with value [v] is such
    that [n] is the number of distinct input values below [v]; and the name
    none is given to the value 0 only. *)
Theorem X8_spacing_token_names (spacing : list Z) :
  let tokens := generateSpacingTokens spacing in
  NoDup (map SpacingToken.name tokens)
  /\ (forall spacing',
        (forall v, In v spacing <-> In v spacing') ->
        generateSpacingTokens spacing' = tokens)
  /\ (forall n token,
        nth_error tokens n = Some token ->
        n = List.length (filter (fun x => x <? SpacingToken.value token)
                           (JS.spread_Set spacing)))
  /\ (forall token, In token tokens ->
        (SpacingToken.name token = "none"%string <-> SpacingToken.value token = 0)).
Proof.
  simpl. rewrite generateSpacingTokens_mapi.
  assert (Hs : StronglySorted Z.lt (JS.sort_ascending (JS.spread_Set spacing))).
  { apply sort_ascending_lt, spread_Set_NoDup. }
  split; [|split; [|split]].
  - apply (mapi_from_NoDup_names spacing_token_of SpacingToken.name).
    + apply spacing_name_index.
    + now apply StronglySorted_lt_NoDup.
  - intros spacing' Hsame. rewrite generateSpacingTokens_mapi. f_equal.
    apply StronglySorted_lt_unique.
    + apply sort_ascending_lt, spread_Set_NoDup.
    + exact Hs.
    + intros x. rewrite !sort_ascending_In, !spread_Set_In. symmetry. apply Hsame.
  - intros n token Hn. rewrite mapi_nth_error in Hn.
    destruct (nth_error (JS.sort_ascending (JS.spread_Set spacing)) n) as [v|] eqn:E;
      [|discriminate].
    simpl in Hn. injection Hn as <-. simpl.
    rewrite (Permutation_filter_length _ _ _ (sort_ascending_perm (JS.spread_Set spacing))).
    now apply StronglySorted_lt_position.
  - intros token Ht. apply mapi_from_In_index in Ht.
    destruct Ht as [v [j [_ [_ ->]]]]. unfold spacing_token_of. simpl.
    destruct (v =? 0) eqn:E; [apply Z.eqb_eq in E|apply Z.eqb_neq in E].
    + tauto.
    + split; [|contradiction].
      destruct (v <=? 4), (v <=? 8), (v <=? 16), (v <=? 24), (v <=? 32);
        intros H; discriminate H.
Qed.

Lemma generateBorderRadiusTokens_values (borderRadius : list Z) :
  map BorderRadiusToken.value (generateBorderRadiusTokens borderRadius)
  = JS.sort_ascending (JS.spread_Set borderRadius).
Proof.
  unfold generateBorderRadiusTokens, JS.mapi.
  erewrite mapi_from_map; [apply map_id|]. reflexivity.
Qed.

Lemma radius_token_rule (v index : Z) :
  radius_name_rule v index (BorderRadiusToken.name (radius_token_of v index)).
Proof.
  unfold radius_name_rule, radius_token_of. simpl.
  destruct (v =? 0) eqn:E0; [apply Z.eqb_eq in E0|apply Z.eqb_neq in E0].
  { repeat split; intros; try reflexivity; lia. }
  destruct (v <=? 4) eqn:E4; [apply Z.leb_le in E4|apply Z.leb_gt in E4].
  { repeat split; intros; try reflexivity; lia. }
  destruct (v <=? 8) eqn:E8; [apply Z.leb_le in E8|apply Z.leb_gt in E8].
  { repeat split; intros; try reflexivity; lia. }
  destruct (v <=? 16) eqn:E16; [apply Z.leb_le in E16|apply Z.leb_gt in E16].
  { repeat split; intros; try reflexivity; lia. }
  repeat split; intros; try reflexivity; lia.
Qed.

(** X9.  [generateBorderRadiusTokens] returns one token per distinct input
    value, in strictly increasing order of value; the token at 0-based
    position [n] is named none for the value 0, sm-n up to 4, md-n up to 8,
    lg-n up to 16 and xl-n above; the names are pairwise different. *)
Theorem X9_border_radius_tokens (borderRadius : list Z) :
  let tokens := generateBorderRadiusTokens borderRadius in
  StronglySorted Z.lt (map BorderRadiusToken.value tokens)
  /\ (forall v, In v (map BorderRadiusToken.value tokens) <-> In v borderRadius)
  /\ (forall n token,
        nth_error tokens n = Some token ->
        radius_name_rule (BorderRadiusToken.value token) (Z.of_nat n)
          (BorderRadiusToken.name token))
  /\ NoDup (map BorderRadiusToken.name tokens).
Proof.
  simpl. rewrite generateBorderRadiusTokens_values.
  split; [|split; [|split]].
  - apply sort_ascending_lt, spread_Set_NoDup.
  - intros v. now rewrite sort_ascending_In, spread_Set_In.
  - intros n token Hn. rewrite generateBorderRadiusTokens_mapi, mapi_nth_error in Hn.
    destruct (nth_error _ n) as [v|]; [|discriminate].
    simpl in Hn. injection Hn as <-. apply radius_token_rule.
  - rewrite generateBorderRadiusTokens_mapi.
    apply (mapi_from_NoDup_names radius_token_of BorderRadiusToken.name).
    + apply radius_name_index.
    + apply StronglySorted_lt_NoDup, sort_ascending_lt, spread_Set_NoDup.
Qed.

Lemma fold_push_unique_id (l : list Z) :
  forall arr, NoDup (arr ++ l) -> fold_left JS.push_unique l arr = arr ++ l.
Proof.
  induction l as [|v l IH]; intros arr Hnd; simpl.
  - now rewrite app_nil_r.
  - assert (Hv : JS.includes arr v = false).
    { destruct (JS.includes arr v) eqn:E; [|reflexivity].
      apply includes_true_iff in E. apply NoDup_remove_2 in Hnd.
      exfalso. apply Hnd. apply in_or_app. now left. }
    unfold JS.push_unique at 2. rewrite Hv.
    rewrite IH; rewrite <- app_assoc; [reflexivity|assumption].
Qed.

Lemma sort_ascending_id (l : list Z) :
  StronglySorted Z.lt l -> JS.sort_ascending l = l.
Proof.
  induction 1 as [|x l Hs IH Hx]; simpl; [reflexivity|].
  rewrite IH. destruct l as [|y l]; [reflexivity|]. simpl.
  inversion Hx as [|? ? Hxy _]; subst.
  apply Z.ltb_lt in Hxy. now rewrite Hxy.
Qed.

(** X10.  The border-radius array of a parsed design passes through
    [generateBorderRadiusTokens] unchanged: the synthesizer's own
    deduplication and sort find nothing to do, the token values are the
    array itself, and the token at position [n] is the one for the array's
    [n]-th radius. *)
Theorem X10_parsed_radii_kept (nodes : list FigmaNode.t) :
  let parsed := parseFigmaNodes nodes in
  let tokens := DesignTokens.borderRadius (generateDesignTokens parsed) in
  map BorderRadiusToken.value tokens = ParsedDesign.borderRadius parsed
  /\ tokens = JS.mapi radius_token_of (ParsedDesign.borderRadius parsed).
Proof.
  simpl.
  set (radii := JS.sort_ascending
                  (JS.spread_Set (forEach_traverse extractBorderRadius_visit nodes []))).
  assert (Hs : StronglySorted Z.lt radii).
  { apply sort_ascending_lt, spread_Set_NoDup. }
  assert (Hid : JS.sort_ascending (JS.spread_Set radii) = radii).
  { unfold JS.spread_Set at 1. rewrite fold_push_unique_id.
    - simpl. now apply sort_ascending_id.
    - simpl. now apply StronglySorted_lt_NoDup. }
  split.
  - now rewrite generateBorderRadiusTokens_values.
  - now rewrite generateBorderRadiusTokens_mapi, Hid.
Qed.

(* ================================================================== *)
(** * Hex keys and their decoding *)
(* ================================================================== *)

Lemma hex_byte_parse (n : Z) :
  0 <= n <= 255 ->
  parse_hex_pair (hex_digit (n / 16)) (hex_digit (n mod 16)) = Some n.
Proof.
  intros Hn.
  assert (Hall : forallb
                   (fun k =>
                      match parse_hex_pair (hex_digit (Z.of_nat k / 16))
                              (hex_digit (Z.of_nat k mod 16)) with
                      | Some m => m =? Z.of_nat k
                      | None => false
                      end)
                   (seq 0 256) = true) by (vm_compute; reflexivity).
  rewrite forallb_forall in Hall.
  specialize (Hall (Z.to_nat n)). rewrite Z2Nat.id in Hall by lia.
  destruct (parse_hex_pair (hex_digit (n / 16)) (hex_digit (n mod 16))) as [m|].
  - f_equal. apply Z.eqb_eq. apply Hall. apply in_seq. lia.
  - discriminate Hall. apply in_seq. lia.
Qed.

(** A level over 255, in double precision, rounds back to the level. *)
Lemma level_of_decoded (l : Z) :
  0 <= l <= 255 -> channel_level (JS.of_int l / 255)%float = Some l.
Proof.
  intros Hl.
  assert (Hall : forallb
                   (fun k =>
                      match channel_level (JS.of_int (Z.of_nat k) / 255)%float with
                      | Some m => m =? Z.of_nat k
                      | None => false
                      end)
                   (seq 0 256) = true) by (vm_compute; reflexivity).
  rewrite forallb_forall in Hall.
  specialize (Hall (Z.to_nat l)). rewrite Z2Nat.id in Hall by lia.
  destruct (channel_level (JS.of_int l / 255)%float) as [m|].
  - f_equal. apply Z.eqb_eq. apply Hall. apply in_seq. lia.
  - discriminate Hall. apply in_seq. lia.
Qed.

Lemma hex_bytes_inj (a b c a' b' c' : Z) :
  0 <= a <= 255 -> 0 <= b <= 255 -> 0 <= c <= 255 ->
  0 <= a' <= 255 -> 0 <= b' <= 255 -> 0 <= c' <= 255 ->
  String "#" (hex_byte a ++ hex_byte b ++ hex_byte c)
  = String "#" (hex_byte a' ++ hex_byte b' ++ hex_byte c') ->
  a = a' /\ b = b' /\ c = c'.
Proof.
  intros Ha Hb Hc Ha' Hb' Hc'. unfold hex_byte. simpl. intros H.
  injection H as E1 E2 E3 E4 E5 E6.
  pose proof (hex_byte_parse a Ha) as P1.
  pose proof (hex_byte_parse b Hb) as P2.
  pose proof (hex_byte_parse c Hc) as P3.
  rewrite E1, E2 in P1. rewrite E3, E4 in P2. rewrite E5, E6 in P3.
  rewrite (hex_byte_parse a' Ha') in P1.
  rewrite (hex_byte_parse b' Hb') in P2.
  rewrite (hex_byte_parse c' Hc') in P3.
  repeat split; congruence.
Qed.

Lemma same_key_same_levels (c1 c2 : Color.t) (r1 g1 b1 r2 g2 b2 : Z) :
  has_levels c1 r1 g1 b1 -> has_levels c2 r2 g2 b2 ->
  color_key c1 = color_key c2 <-> r1 = r2 /\ g1 = g2 /\ b1 = b2.
Proof.
  intros [Hr1 [Hg1 [Hb1 [Rr1 [Rg1 Rb1]]]]] [Hr2 [Hg2 [Hb2 [Rr2 [Rg2 Rb2]]]]].
  unfold color_key.
  rewrite (rgbToHex_bytes _ _ _ _ _ _ Hr1 Hg1 Hb1 Rr1 Rg1 Rb1).
  rewrite (rgbToHex_bytes _ _ _ _ _ _ Hr2 Hg2 Hb2 Rr2 Rg2 Rb2).
  split.
  - now apply hex_bytes_inj.
  - intros [-> [-> ->]]. reflexivity.
Qed.

(** X11.  For colours with channels between 0 and 1, two colours get the
    same hex key, the key on which [extractColors] merges colours, exactly
    when their three channels round to the same 8-bit levels. *)
Theorem X11_same_key_same_levels (c1 c2 : Color.t)
  (H1 : normalized_color c1) (H2 : normalized_color c2) :
  color_key c1 = color_key c2 <->
  channel_level (Color.r c1) = channel_level (Color.r c2)
  /\ channel_level (Color.g c1) = channel_level (Color.g c2)
  /\ channel_level (Color.b c1) = channel_level (Color.b c2).
Proof.
  destruct (normalized_has_levels c1 H1) as [r1 [g1 [b1 L1]]].
  destruct (normalized_has_levels c2 H2) as [r2 [g2 [b2 L2]]].
  rewrite (same_key_same_levels c1 c2 _ _ _ _ _ _ L1 L2).
  destruct L1 as [-> [-> [-> _]]], L2 as [-> [-> [-> _]]].
  split.
  - intros [-> [-> ->]]. repeat split.
  - intros [Hr [Hg Hb]]. repeat split; congruence.
Qed.

Lemma X11_same_key_same_levels_witness :
  color_key (Color.mk d0_8 d0_2 d0_2 None)
  = color_key (Color.mk 0x1.9a1cac083126fp-1 d0_2 0x1.978d4fdf3b646p-3
                 (Some 0x1p-1%float)).
Proof.
  apply (X11_same_key_same_levels
           (Color.mk d0_8 d0_2 d0_2 None)
           (Color.mk 0x1.9a1cac083126fp-1 d0_2 0x1.978d4fdf3b646p-3
              (Some 0x1p-1%float))).
  - unfold normalized_color, normalized; simpl; repeat split; reflexivity.
  - unfold normalized_color, normalized; simpl; repeat split; reflexivity.
  - repeat split; reflexivity.
Defined.

Lemma hexToRgb_bytes (lr lg lb : Z) :
  0 <= lr <= 255 -> 0 <= lg <= 255 -> 0 <= lb <= 255 ->
  hexToRgb (String "#" (hex_byte lr ++ hex_byte lg ++ hex_byte lb))
  = Some ((JS.of_int lr / 255)%float, (JS.of_int lg / 255)%float,
          (JS.of_int lb / 255)%float).
Proof.
  intros Hr Hg Hb. unfold hexToRgb, hex_byte. simpl.
  rewrite !hex_byte_parse by assumption. reflexivity.
Qed.

(** A level over 255, in double precision, lies between 0 and 1. *)
Lemma decoded_normalized (l : Z) :
  0 <= l <= 255 -> normalized (JS.of_int l / 255)%float.
Proof.
  intros Hl.
  assert (Hall : forallb
                   (fun k =>
                      JS.le 0 (JS.of_int (Z.of_nat k) / 255)
                      && JS.le (JS.of_int (Z.of_nat k) / 255) 1)
                   (seq 0 256) = true) by (vm_compute; reflexivity).
  rewrite forallb_forall in Hall.
  specialize (Hall (Z.to_nat l)). rewrite Z2Nat.id in Hall by lia.
  apply andb_true_iff. apply Hall, in_seq. lia.
Qed.

(** X12.  Decoding a hex key and encoding the result gives the key back:
    for channels between 0 and 1, [hexToRgb (rgbToHex r g b)] succeeds, each
    decoded channel is the 8-bit level of the original channel divided by
    255 in double precision, the decoded channels lie between 0 and 1 and
    round to the same levels, and their key is the key that was decoded. *)
Theorem X12_hex_round_trip (r g b : float)
  (Hr : normalized r) (Hg : normalized g) (Hb : normalized b) :
  exists lr lg lb r' g' b',
    has_levels (Color.mk r g b None) lr lg lb
    /\ hexToRgb (rgbToHex r g b) = Some (r', g', b')
    /\ r' = (JS.of_int lr / 255)%float
    /\ g' = (JS.of_int lg / 255)%float
    /\ b' = (JS.of_int lb / 255)%float
    /\ normalized r' /\ normalized g' /\ normalized b'
    /\ has_levels (Color.mk r' g' b' None) lr lg lb
    /\ rgbToHex r' g' b' = rgbToHex r g b.
Proof.
  destruct (normalized_has_levels (Color.mk r g b None)) as [lr [lg [lb Hl]]];
    [unfold normalized_color; simpl; tauto|].
  exists lr, lg, lb. do 3 eexists. split; [exact Hl|].
  destruct Hl as [Er [Eg [Eb [Rr [Rg Rb]]]]]. simpl in Er, Eg, Eb.
  rewrite (rgbToHex_bytes _ _ _ _ _ _ Er Eg Eb Rr Rg Rb).
  split; [now apply hexToRgb_bytes|].
  repeat (split; [reflexivity|]).
  repeat (split; [now apply decoded_normalized|]).
  pose proof (level_of_decoded lr Rr) as Lr.
  pose proof (level_of_decoded lg Rg) as Lg.
  pose proof (level_of_decoded lb Rb) as Lb.
  split; [unfold has_levels; simpl; tauto|].
  now apply rgbToHex_bytes.
Qed.

Lemma X12_hex_round_trip_witness :
  exists lr lg lb r' g' b',
    has_levels (Color.mk d0_8 d0_2 d0_2 None) lr lg lb
    /\ hexToRgb (rgbToHex d0_8 d0_2 d0_2) = Some (r', g', b')
    /\ r' = (JS.of_int lr / 255)%float
    /\ g' = (JS.of_int lg / 255)%float
    /\ b' = (JS.of_int lb / 255)%float
    /\ normalized r' /\ normalized g' /\ normalized b'
    /\ has_levels (Color.mk r' g' b' None) lr lg lb
    /\ rgbToHex r' g' b' = rgbToHex d0_8 d0_2 d0_2.
Proof.
  apply (X12_hex_round_trip d0_8 d0_2 d0_2);
    unfold normalized; split; reflexivity.
Defined.

(* ================================================================== *)
(** * The classes of the generated component *)
(* ================================================================== *)

Lemma or_default_nonempty (a d : string) : a <> EmptyString -> or_default a d = a.
Proof. destruct a; [contradiction|reflexivity]. Qed.

Lemma find_exists {A : Type} (p : A -> bool) (l : list A) (x : A) :
  In x l -> p x = true -> exists y, find p l = Some y /\ In y l /\ p y = true.
Proof.
  intros Hin Hp. destruct (find p l) as [y|] eqn:E.
  - exists y. apply find_some in E. tauto.
  - exfalso. apply (find_none _ _ E) in Hin. congruence.
Qed.

Lemma NoDup_map_injective {A B : Type} (f : A -> B) (l : list A) (x y : A) :
  NoDup (map f l) -> In x l -> In y l -> f x = f y -> x = y.
Proof.
  induction l as [|a l IH]; simpl; intros Hnd Hx Hy Hf; [contradiction|].
  inversion Hnd as [|? ? Ha Hl]; subst.
  destruct Hx as [->|Hx], Hy as [->|Hy]; try reflexivity.
  - exfalso. apply Ha. rewrite Hf. now apply in_map.
  - exfalso. apply Ha. rewrite <- Hf. now apply in_map.
  - now apply IH.
Qed.

Lemma generateColorName_nonempty (c : ParsedColor.t) (i : Z) (l : list ParsedColor.t) :
  generateColorName c i l <> EmptyString.
Proof.
  unfold generateColorName.
  destruct (JS.lt _ _); [discriminate|].
  destruct (JS.gt _ _); [discriminate|].
  destruct (_ && _); [discriminate|].
  destruct (_ && _); discriminate.
Qed.

Lemma color_token_name_nonempty (colors : list ParsedColor.t) (token : ColorToken.t) :
  In token (generateColorTokens colors) -> ColorToken.name token <> EmptyString.
Proof.
  intros Hin. apply mapi_from_In_index in Hin.
  destruct Hin as [c [j [_ [_ ->]]]]. simpl. apply generateColorName_nonempty.
Qed.

Lemma spacing_token_name_nonempty (v i : Z) :
  SpacingToken.name (spacing_token_of v i) <> EmptyString.
Proof.
  unfold spacing_token_of. simpl.
  destruct (v =? 0), (v <=? 4), (v <=? 8), (v <=? 16), (v <=? 24), (v <=? 32);
    discriminate.
Qed.

Lemma radius_token_name_nonempty (v i : Z) :
  BorderRadiusToken.name (radius_token_of v i) <> EmptyString.
Proof.
  unfold radius_token_of. simpl.
  destruct (v =? 0), (v <=? 4), (v <=? 8), (v <=? 16); discriminate.
Qed.

(** The token looked up for a value that was given to the generator. *)
Lemma spacing_lookup (vals : list Z) (v : Z) :
  In v vals ->
  exists token,
    In token (generateSpacingTokens vals)
    /\ SpacingToken.value token = v
    /\ spacing_name_for (generateSpacingTokens vals) v = SpacingToken.name token.
Proof.
  intros Hv.
  assert (Hin : In v (map SpacingToken.value (generateSpacingTokens vals))).
  { rewrite generateSpacingTokens_values, sort_ascending_In, spread_Set_In.
    exact Hv. }
  apply in_map_iff in Hin. destruct Hin as [t [Ht Hin]].
  destruct (find_exists (fun s => SpacingToken.value s =? v) _ t Hin)
    as [y [Hf [Hy Hp]]]; [now apply Z.eqb_eq|].
  exists y. apply Z.eqb_eq in Hp. repeat split; try assumption.
  unfold spacing_name_for. rewrite Hf. apply or_default_nonempty.
  rewrite generateSpacingTokens_mapi in Hy. apply mapi_from_In_index in Hy.
  destruct Hy as [w [j [_ [_ ->]]]]. apply spacing_token_name_nonempty.
Qed.

Lemma radius_lookup (vals : list Z) (v : Z) :
  In v vals ->
  exists token,
    In token (generateBorderRadiusTokens vals)
    /\ BorderRadiusToken.value token = v
    /\ radius_name_for (generateBorderRadiusTokens vals) v
       = BorderRadiusToken.name token.
Proof.
  intros Hv.
  assert (Hin : In v (map BorderRadiusToken.value (generateBorderRadiusTokens vals))).
  { rewrite generateBorderRadiusTokens_values, sort_ascending_In, spread_Set_In.
    exact Hv. }
  apply in_map_iff in Hin. destruct Hin as [t [Ht Hin]].
  destruct (find_exists (fun s => BorderRadiusToken.value s =? v) _ t Hin)
    as [y [Hf [Hy Hp]]]; [now apply Z.eqb_eq|].
  exists y. apply Z.eqb_eq in Hp. repeat split; try assumption.
  unfold radius_name_for. rewrite Hf. apply or_default_nonempty.
  rewrite generateBorderRadiusTokens_mapi in Hy. apply mapi_from_In_index in Hy.
  destruct Hy as [w [j [_ [_ ->]]]]. apply radius_token_name_nonempty.
Qed.

Lemma parsed_radius_In (nodes : list FigmaNode.t) (v : Z) :
  In v (ParsedDesign.borderRadius (parseFigmaNodes nodes)) <->
  exists node, In node (preorder nodes) /\ In v (radius_values node).
Proof.
  simpl. rewrite collected_radii, sort_ascending_In, spread_Set_In.
  rewrite fold_push_unique_In, in_flat_map. simpl. tauto.
Qed.

Lemma node_gap_in_values (nodes : list FigmaNode.t) (node : FigmaNode.t) (v : Z) :
  In node (preorder nodes) -> FigmaNode.itemSpacing node = Some v ->
  In v (allSpacingValues (parseFigmaNodes nodes)).
Proof.
  intros Hn Hv. apply allSpacingValues_In. right.
  exists {| ParsedSpacing.padding :=
              if has_padding node then Some (node_padding node) else None;
            ParsedSpacing.margin := None;
            ParsedSpacing.gap := FigmaNode.itemSpacing node |}.
  split.
  - apply extractSpacing_In. exists node. split; [assumption|].
    split; [|reflexivity]. unfold has_spacing. rewrite Hv. apply orb_true_r.
  - right. right. exact Hv.
Qed.

Lemma node_padding_in_values (nodes : list FigmaNode.t) (node : FigmaNode.t) (v : Z) :
  In node (preorder nodes) -> v <> 0 -> In v (sides_values (node_padding node)) ->
  In v (allSpacingValues (parseFigmaNodes nodes)).
Proof.
  intros Hn Hv Hin.
  assert (Hp : has_padding node = true).
  { unfold has_padding. rewrite !orb_true_iff, !negb_true_iff, !Z.eqb_neq.
    unfold sides_values in Hin. simpl in *.
    destruct Hin as [H|[H|[H|[H|[]]]]]; rewrite H; tauto. }
  apply allSpacingValues_In. right.
  exists {| ParsedSpacing.padding :=
              if has_padding node then Some (node_padding node) else None;
            ParsedSpacing.margin := None;
            ParsedSpacing.gap := FigmaNode.itemSpacing node |}.
  split.
  - apply extractSpacing_In. exists node. split; [assumption|].
    split; [|reflexivity]. unfold has_spacing. now rewrite Hp.
  - left. exists (node_padding node). simpl. rewrite Hp. tauto.
Qed.

Lemma push_padding_class_keeps (prefix : string) (side : option Z)
  (tokens : DesignTokens.t) (acc : list string) (x : string) :
  In x acc -> In x (push_padding_class prefix side tokens acc).
Proof.
  intros Hx. unfold push_padding_class. destruct side as [v|]; [|assumption].
  destruct (negb (v =? 0)); [|assumption]. apply in_or_app. now left.
Qed.

Lemma push_padding_class_adds (prefix : string) (v : Z)
  (tokens : DesignTokens.t) (acc : list string) :
  v <> 0 ->
  In (prefix ++ spacing_name_for (DesignTokens.spacing tokens) v)%string
     (push_padding_class prefix (Some v) tokens acc).
Proof.
  intros Hv. unfold push_padding_class. apply Z.eqb_neq in Hv. rewrite Hv. simpl.
  apply in_or_app. right. now left.
Qed.

(** X13.  For a node of the forest the design tokens were generated from,
    the component's class lookups never fall back to md-0: a non-zero item
    spacing, each non-zero padding and a positive single corner radius are
    each the value of a token, and the gap-, pl-, pr-, pt-, pb- and rounded-
    classes carry that token's name. *)
Theorem X13_classes_name_existing_tokens (nodes : list FigmaNode.t)
  (node : FigmaNode.t) (Hn : In node (preorder nodes)) :
  let tokens := generateDesignTokens (parseFigmaNodes nodes) in
  let padding_class (prefix : string) (side : option Z) :=
    forall v, side = Some v -> v <> 0 ->
      exists token,
        In token (DesignTokens.spacing tokens)
        /\ SpacingToken.value token = v
        /\ In (prefix ++ SpacingToken.name token)%string (paddingClasses node tokens) in
  (forall v, FigmaNode.itemSpacing node = Some v -> v <> 0 ->
     exists token,
       In token (DesignTokens.spacing tokens)
       /\ SpacingToken.value token = v
       /\ gapClass node tokens = ("gap-" ++ SpacingToken.name token)%string)
  /\ padding_class "pl-"%string (FigmaNode.paddingLeft node)
  /\ padding_class "pr-"%string (FigmaNode.paddingRight node)
  /\ padding_class "pt-"%string (FigmaNode.paddingTop node)
  /\ padding_class "pb-"%string (FigmaNode.paddingBottom node)
  /\ (forall v, FigmaNode.cornerRadius node = Some (Uniform v) -> 0 < v ->
        exists token,
          In token (DesignTokens.borderRadius tokens)
          /\ BorderRadiusToken.value token = v
          /\ radiusClass node tokens
             = ("rounded-" ++ BorderRadiusToken.name token)%string).
Proof.
  cbv zeta.
  set (tokens := generateDesignTokens (parseFigmaNodes nodes)).
  assert (Hside : forall v, v <> 0 -> In v (sides_values (node_padding node)) ->
            exists token,
              In token (DesignTokens.spacing tokens)
              /\ SpacingToken.value token = v
              /\ spacing_name_for (DesignTokens.spacing tokens) v
                 = SpacingToken.name token).
  { intros v Hv Hin. apply spacing_lookup.
    now apply (node_padding_in_values nodes node). }
  split; [|split; [|split; [|split; [|split]]]].
  - intros v Hv Hnz.
    destruct (spacing_lookup (allSpacingValues (parseFigmaNodes nodes)) v)
      as [token [Ht [Hval Hname]]]; [now apply (node_gap_in_values nodes node)|].
    exists token. repeat split; try assumption.
    unfold gapClass. rewrite Hv. apply Z.eqb_neq in Hnz. rewrite Hnz.
    rewrite <- Hname. reflexivity.
  - intros v Hs Hnz. destruct (Hside v Hnz) as [token [Ht [Hval Hname]]].
    { unfold sides_values, node_padding. simpl. rewrite Hs. simpl. tauto. }
    exists token. repeat split; try assumption.
    unfold paddingClasses. rewrite Hs, <- Hname.
    do 3 apply push_padding_class_keeps. now apply push_padding_class_adds.
  - intros v Hs Hnz. destruct (Hside v Hnz) as [token [Ht [Hval Hname]]].
    { unfold sides_values, node_padding. simpl. rewrite Hs. simpl. tauto. }
    exists token. repeat split; try assumption.
    unfold paddingClasses. rewrite Hs, <- Hname.
    do 2 apply push_padding_class_keeps. now apply push_padding_class_adds.
  - intros v Hs Hnz. destruct (Hside v Hnz) as [token [Ht [Hval Hname]]].
    { unfold sides_values, node_padding. simpl. rewrite Hs. simpl. tauto. }
    exists token. repeat split; try assumption.
    unfold paddingClasses. rewrite Hs, <- Hname.
    apply push_padding_class_keeps. now apply push_padding_class_adds.
  - intros v Hs Hnz. destruct (Hside v Hnz) as [token [Ht [Hval Hname]]].
    { unfold sides_values, node_padding. simpl. rewrite Hs. simpl. tauto. }
    exists token. repeat split; try assumption.
    unfold paddingClasses. rewrite Hs, <- Hname.
    now apply push_padding_class_adds.
  - intros v Hr Hpos.
    destruct (radius_lookup (ParsedDesign.borderRadius (parseFigmaNodes nodes)) v)
      as [token [Ht [Hval Hname]]].
    { apply parsed_radius_In. exists node. split; [assumption|].
      unfold radius_values. rewrite Hr. now left. }
    exists token. repeat split; try assumption.
    unfold radiusClass. rewrite Hr.
    apply Z.gtb_lt in Hpos. rewrite Hpos. rewrite <- Hname. reflexivity.
Qed.

Lemma X13_classes_name_existing_tokens_witness :
  exists token,
    In token (DesignTokens.spacing (generateDesignTokens (parseFigmaNodes [sample_card])))
    /\ SpacingToken.value token = 8
    /\ gapClass sample_card (generateDesignTokens (parseFigmaNodes [sample_card]))
       = ("gap-" ++ SpacingToken.name token)%string.
Proof.
  apply (X13_classes_name_existing_tokens [sample_card] sample_card).
  - simpl. now left.
  - reflexivity.
  - discriminate.
Defined.

Lemma matches_own_hex (c : Color.t) (token : ColorToken.t) :
  normalized_color c ->
  ColorToken.hex token = color_key c -> matches_bgColor c token = true.
Proof.
  intros Hc Hhex.
  destruct (normalized_has_levels c Hc) as [lr [lg [lb Hl]]].
  destruct Hc as [Nr [Ng Nb]].
  destruct Hl as [Er [Eg [Eb [Rr [Rg Rb]]]]].
  unfold matches_bgColor. rewrite Hhex. unfold color_key.
  rewrite (rgbToHex_bytes _ _ _ _ _ _ Er Eg Eb Rr Rg Rb).
  rewrite hexToRgb_bytes by assumption.
  rewrite (close_to_own_level _ _ Nr Er Rr), (close_to_own_level _ _ Ng Eg Rg),
    (close_to_own_level _ _ Nb Eb Rb).
  reflexivity.
Qed.

Lemma first_fill_is_candidate (nodes : list FigmaNode.t) (node : FigmaNode.t)
  (fill : Paint.t) (rest : list Paint.t) (c : Color.t) :
  In node (preorder nodes) ->
  FigmaNode.fills node = Some (fill :: rest) ->
  Paint.type fill = "SOLID"%string -> Paint.color fill = Some c ->
  In c (color_candidates nodes).
Proof.
  intros Hn Hf Hty Hc. unfold color_candidates. apply in_flat_map.
  exists node. split; [assumption|].
  unfold node_color_candidates. rewrite Hf. apply in_or_app. left.
  simpl. rewrite Hc, Hty. now left.
Qed.

(** X14.  When the first fill of a node of the forest is SOLID with
    channels between 0 and 1, the component's background class is never the
    fallback: it is [bg-] followed by the name of a colour token generated
    from the forest, the first one whose decoded hex passes the 0.01
    tolerance test against the fill on every channel, the test being made in
    double precision as the source makes it. *)
Theorem X14_background_class (nodes : list FigmaNode.t) (node : FigmaNode.t)
  (fill : Paint.t) (rest : list Paint.t) (c : Color.t)
  (Hn : In node (preorder nodes))
  (Hfills : FigmaNode.fills node = Some (fill :: rest))
  (Hsolid : Paint.type fill = "SOLID"%string)
  (Hcolor : Paint.color fill = Some c)
  (Hnorm : normalized_color c) :
  let tokens := generateDesignTokens (parseFigmaNodes nodes) in
  exists token r g b,
    In token (DesignTokens.colors tokens)
    /\ bgClass node tokens = ("bg-" ++ ColorToken.name token)%string
    /\ find (matches_bgColor c) (DesignTokens.colors tokens) = Some token
    /\ hexToRgb (ColorToken.hex token) = Some (r, g, b)
    /\ JS.lt (PrimFloat.abs (r - Color.r c)) JS.d0_01 = true
    /\ JS.lt (PrimFloat.abs (g - Color.g c)) JS.d0_01 = true
    /\ JS.lt (PrimFloat.abs (b - Color.b c)) JS.d0_01 = true.
Proof.
  simpl.
  pose proof (first_fill_is_candidate _ _ _ _ _ Hn Hfills Hsolid Hcolor) as Hcand.
  destruct (first_seen_complete color_key string_dec _ [] c Hcand)
    as [y [Hy Hk]]; [intros []|].
  assert (Hpc : In (toParsedColor y) (extractColors nodes)).
  { rewrite extractColors_first_seen. now apply in_map. }
  apply In_nth_error in Hpc. destruct Hpc as [n Hnth].
  pose proof (generateColorTokens_nth (extractColors nodes) n) as Htok.
  rewrite Hnth in Htok. simpl in Htok. apply nth_error_In in Htok.
  destruct (find_exists (matches_bgColor c) _ _ Htok) as [token [Hf [Hin Hm]]].
  { apply matches_own_hex; [assumption|]. simpl. exact Hk. }
  unfold matches_bgColor in Hm.
  destruct (hexToRgb (ColorToken.hex token)) as [[[r g] b]|] eqn:Eh; [|discriminate].
  rewrite !andb_true_iff in Hm. destruct Hm as [[Hr Hg] Hb].
  exists token, r, g, b. repeat split; try assumption.
  unfold bgClass, bgColor. rewrite Hfills, Hcolor. simpl. rewrite Hf.
  rewrite or_default_nonempty; [reflexivity|].
  now apply (color_token_name_nonempty (extractColors nodes)).
Qed.

Lemma X14_background_class_witness :
  exists token r g b,
    In token (DesignTokens.colors (generateDesignTokens (parseFigmaNodes [sample_frame])))
    /\ bgClass sample_frame (generateDesignTokens (parseFigmaNodes [sample_frame]))
       = ("bg-" ++ ColorToken.name token)%string
    /\ find (matches_bgColor (Color.mk (59 / 255) (130 / 255) (246 / 255) (Some 1%float)))
         (DesignTokens.colors (generateDesignTokens (parseFigmaNodes [sample_frame])))
       = Some token
    /\ hexToRgb (ColorToken.hex token) = Some (r, g, b)
    /\ JS.lt (PrimFloat.abs (r - 59 / 255)) JS.d0_01 = true
    /\ JS.lt (PrimFloat.abs (g - 130 / 255)) JS.d0_01 = true
    /\ JS.lt (PrimFloat.abs (b - 246 / 255)) JS.d0_01 = true.
Proof.
  apply (X14_background_class [sample_frame] sample_frame
           (Paint.mk "SOLID"
              (Some (Color.mk (59 / 255) (130 / 255) (246 / 255) (Some 1%float)))
              None) []
           (Color.mk (59 / 255) (130 / 255) (246 / 255) (Some 1%float))).
  - simpl. now left.
  - reflexivity.
  - reflexivity.
  - reflexivity.
  - unfold normalized_color, normalized; simpl; repeat split; reflexivity.
Defined.

(* ================================================================== *)
(** * The component name *)
(* ================================================================== *)

Lemma strip_non_alnum_all (s : string) :
  string_all is_alnum (strip_non_alnum s) = true.
Proof.
  induction s as [|c s IH]; simpl; [reflexivity|].
  destruct (is_alnum c) eqn:E; simpl; [now rewrite E|assumption].
Qed.

Lemma alnum_not_hyphen (c : ascii) : is_alnum c = true -> Ascii.eqb c "-" = false.
Proof.
  intros H. destruct (Ascii.eqb c "-") eqn:E; [|reflexivity].
  apply Ascii.eqb_eq in E. subst. discriminate H.
Qed.

Lemma camel_after_hyphen_alnum (s : string) :
  string_all is_alnum s = true -> camel_after_hyphen s = s.
Proof.
  induction s as [|c s IH]; [reflexivity|].
  intros H. simpl in H. apply andb_true_iff in H. destruct H as [Hc Hs].
  simpl. destruct s as [|d s']; [reflexivity|].
  rewrite (alnum_not_hyphen c Hc). simpl andb. cbv iota.
  now rewrite (IH Hs).
Qed.

Lemma upper_of_lower (c : ascii) :
  is_lower c = true ->
  is_upper (JS.upper_ascii c) = true /\ is_lower (JS.upper_ascii c) = false.
Proof.
  destruct c as [[] [] [] [] [] [] [] []]; intros H;
    try discriminate H; split; reflexivity.
Qed.

Lemma upper_first_lower_alnum (s : string) :
  string_all is_alnum s = true -> string_all is_alnum (upper_first_lower s) = true.
Proof.
  destruct s as [|c s]; [reflexivity|]. simpl. intros H.
  destruct (is_lower c) eqn:E; [|exact H].
  apply andb_true_iff in H. destruct H as [_ Hs]. simpl. rewrite Hs.
  apply upper_of_lower in E. destruct E as [E _].
  unfold is_alnum. rewrite E. now rewrite orb_true_r.
Qed.

(** X15.  The component name is the node name with every character other
    than an ASCII letter or digit removed and a leading lower-case letter
    turned into upper case, or Component when nothing is left; the
    hyphen-to-camel-case replacement never changes it, since no hyphen
    survives the first replacement.  So the name is never empty, consists
    of letters and digits only, and never starts with a lower-case letter
    (it may start with a digit). *)
Theorem X15_component_name (node : FigmaNode.t) :
  let stripped := strip_non_alnum (FigmaNode.name node) in
  componentName node = or_default (upper_first_lower stripped) "Component"
  /\ componentName node <> EmptyString
  /\ string_all is_alnum (componentName node) = true
  /\ (forall c rest, componentName node = String c rest -> is_lower c = false)
  /\ (stripped = EmptyString -> componentName node = "Component"%string)
  /\ (stripped <> EmptyString -> componentName node = upper_first_lower stripped).
Proof.
  simpl. unfold componentName.
  pose proof (strip_non_alnum_all (FigmaNode.name node)) as Hall.
  set (s := strip_non_alnum (FigmaNode.name node)) in *.
  rewrite (camel_after_hyphen_alnum (upper_first_lower s))
    by now apply upper_first_lower_alnum.
  pose proof (upper_first_lower_alnum s Hall) as Hup.
  split; [reflexivity|].
  destruct s as [|c s']; simpl in *.
  - repeat split; try discriminate; try reflexivity.
    + intros c rest H. injection H as <- _. reflexivity.
    + intros H. contradiction.
  - destruct (is_lower c) eqn:E; simpl.
    + repeat split; try discriminate; try assumption.
      intros c0 rest H. injection H as <- _. now apply upper_of_lower in E.
    + repeat split; try discriminate; try assumption.
      intros c0 rest H. injection H as <- _. exact E.
Qed.

(* ================================================================== *)
(** * Values of the spacing tokens of a forest *)
(* ================================================================== *)

Lemma auto_layout_In (nodes : list FigmaNode.t) (l : ParsedAutoLayout.t) :
  In l (extractAutoLayoutInfo nodes) ->
  exists node,
    In node (preorder nodes)
    /\ has_auto_layout node = true
    /\ ParsedAutoLayout.padding l = node_padding node
    /\ ParsedAutoLayout.spacing l = number_or_zero (FigmaNode.itemSpacing node).
Proof.
  rewrite extractAutoLayoutInfo_flat, in_flat_map.
  intros [node [Hn Hl]]. exists node. split; [assumption|].
  rewrite extractAutoLayoutInfo_visit_record in Hl.
  destruct (has_auto_layout node); [|contradiction].
  destruct Hl as [<-|[]]. simpl. tauto.
Qed.

(** X16.  A value other than 0 is the value of a spacing token of a forest
    exactly when it is the item spacing or one of the four paddings of some
    node of the forest; the auto-layout records add no value of their own
    except 0. *)
Theorem X16_nonzero_spacing_values (nodes : list FigmaNode.t) (v : Z) (Hv : v <> 0) :
  let tokens := DesignTokens.spacing (generateDesignTokens (parseFigmaNodes nodes)) in
  In v (map SpacingToken.value tokens) <->
  exists node,
    In node (preorder nodes)
    /\ (FigmaNode.itemSpacing node = Some v
        \/ In v (sides_values (node_padding node))).
Proof.
  simpl. rewrite generateSpacingTokens_values, sort_ascending_In, spread_Set_In.
  split.
  - intros Hin. apply allSpacingValues_In in Hin.
    destruct Hin as [[l [Hl Hin]]|[s [Hs Hin]]].
    + simpl in Hl. apply auto_layout_In in Hl.
      destruct Hl as [node [Hn [_ [Hp Hsp]]]]. exists node. split; [assumption|].
      destruct Hin as [Hin|Hin].
      * right. rewrite Hp in Hin. exact Hin.
      * left. rewrite Hsp in Hin.
        destruct (FigmaNode.itemSpacing node) as [w|]; simpl in *; congruence.
    + simpl in Hs. pose proof (extractSpacing_margin _ _ Hs) as Hm.
      apply extractSpacing_In in Hs. destruct Hs as [node [Hn [_ ->]]].
      exists node. split; [assumption|]. simpl in *.
      destruct Hin as [[p [Hp Hin]]|[[m [Hmm _]]|Hg]]; [|discriminate|now left].
      right. destruct (has_padding node); [|discriminate].
      injection Hp as <-. exact Hin.
  - intros [node [Hn [Hg|Hp]]].
    + now apply (node_gap_in_values nodes node).
    + now apply (node_padding_in_values nodes node).
Qed.

Lemma X16_nonzero_spacing_values_witness :
  In 16 (map SpacingToken.value
           (DesignTokens.spacing (generateDesignTokens (parseFigmaNodes [sample_card])))).
Proof.
  apply (X16_nonzero_spacing_values [sample_card] 16).
  - discriminate.
  - exists sample_card. split; [simpl; now left|]. right. simpl. tauto.
Defined.

(* ================================================================== *)
(** * Converted paints *)
(* ================================================================== *)

Lemma paints_of_convertPaints (convert : ApiPaint.t -> list Paint.t)
  (arr : option (list ApiPaint.t)) :
  paints_of (convertPaints convert arr)
  = flat_map convert (match arr with Some l => l | None => [] end).
Proof. destruct arr as [[|x l]|]; reflexivity. Qed.

Lemma solid_colors_paints (field : option (list Paint.t)) :
  Forall (fun p => Paint.type p = "SOLID"%string /\ Paint.color p <> None)
    (paints_of field) ->
  List.length (solid_colors field) = List.length (paints_of field).
Proof.
  destruct field as [l|]; [|reflexivity]. simpl.
  induction 1 as [|p l [Hty Hc] _ IH]; [reflexivity|].
  simpl. rewrite length_app, IH.
  destruct (Paint.color p); [|contradiction]. now rewrite Hty.
Qed.

Lemma effect_colors_paints (field : option (list Paint.t)) :
  Forall (fun p => Paint.color p <> None) (paints_of field) ->
  List.length (effect_colors field) = List.length (paints_of field).
Proof.
  destruct field as [l|]; [|reflexivity]. simpl.
  induction 1 as [|p l Hc _ IH]; [reflexivity|].
  simpl. rewrite length_app, IH.
  destruct (Paint.color p); [reflexivity|contradiction].
Qed.

Lemma convertFill_solid (x : ApiPaint.t) (p : Paint.t) :
  In p (convertFill x) ->
  Paint.type p = "SOLID"%string
  /\ exists c a, Paint.color p = Some c /\ Color.a c = Some a.
Proof.
  unfold convertFill. destruct (ApiPaint.color x) as [c|]; [|contradiction].
  destruct (String.eqb (ApiPaint.type x) "SOLID") eqn:E; [|contradiction].
  apply String.eqb_eq in E. intros [<-|[]]. simpl.
  split; [exact E|]. eexists. eexists. split; reflexivity.
Qed.

Lemma convertStroke_solid (x : ApiPaint.t) (p : Paint.t) :
  In p (convertStroke x) ->
  Paint.type p = "SOLID"%string
  /\ exists c a, Paint.color p = Some c /\ Color.a c = Some a.
Proof.
  unfold convertStroke. destruct (ApiPaint.color x) as [c|]; [|contradiction].
  destruct (String.eqb (ApiPaint.type x) "SOLID") eqn:E; [|contradiction].
  apply String.eqb_eq in E. intros [<-|[]]. simpl.
  split; [exact E|]. eexists. eexists. split; reflexivity.
Qed.

Lemma convertEffect_color (x : ApiPaint.t) (p : Paint.t) :
  In p (convertEffect x) ->
  ApiPaint.visible x <> Some false
  /\ exists c a, Paint.color p = Some c /\ Color.a c = Some a.
Proof.
  unfold convertEffect.
  destruct (ApiPaint.visible x) as [[|]|], (ApiPaint.color x) as [c|];
    try contradiction; intros [<-|[]]; simpl;
    (split; [discriminate|eexists; eexists; split; reflexivity]).
Qed.

(** X17.  The fills and strokes that the API converter hands on are all of
    type SOLID and the effects all carry a colour, each colour with a
    defined alpha; so the colour extractor takes a candidate from every
    converted paint, one per paint.  An effect marked invisible is never
    converted. *)
Theorem X17_converted_paints_are_candidates
  (fills strokes effects : option (list ApiPaint.t)) :
  let defined_alpha (p : Paint.t) :=
    exists c a, Paint.color p = Some c /\ Color.a c = Some a in
  Forall (fun p => Paint.type p = "SOLID"%string /\ defined_alpha p)
    (paints_of (convertFills fills) ++ paints_of (convertStrokes strokes))
  /\ Forall defined_alpha (paints_of (convertEffects effects))
  /\ List.length (solid_colors (convertFills fills))
     = List.length (paints_of (convertFills fills))
  /\ List.length (solid_colors (convertStrokes strokes))
     = List.length (paints_of (convertStrokes strokes))
  /\ List.length (effect_colors (convertEffects effects))
     = List.length (paints_of (convertEffects effects))
  /\ (forall effect, ApiPaint.visible effect = Some false ->
        convertEffect effect = []).
Proof.
  cbv zeta.
  assert (Hf : Forall (fun p => Paint.type p = "SOLID"%string
                               /\ exists c a, Paint.color p = Some c
                                               /\ Color.a c = Some a)
                 (paints_of (convertFills fills))).
  { unfold convertFills. rewrite paints_of_convertPaints. apply Forall_forall.
    intros p Hp. apply in_flat_map in Hp. destruct Hp as [x [_ Hp]].
    now apply convertFill_solid in Hp. }
  assert (Hs : Forall (fun p => Paint.type p = "SOLID"%string
                               /\ exists c a, Paint.color p = Some c
                                               /\ Color.a c = Some a)
                 (paints_of (convertStrokes strokes))).
  { unfold convertStrokes. rewrite paints_of_convertPaints. apply Forall_forall.
    intros p Hp. apply in_flat_map in Hp. destruct Hp as [x [_ Hp]].
    now apply convertStroke_solid in Hp. }
  assert (He : Forall (fun p => exists c a, Paint.color p = Some c
                                            /\ Color.a c = Some a)
                 (paints_of (convertEffects effects))).
  { unfold convertEffects. rewrite paints_of_convertPaints. apply Forall_forall.
    intros p Hp. apply in_flat_map in Hp. destruct Hp as [x [_ Hp]].
    now apply convertEffect_color in Hp. }
  split; [apply Forall_app; now split|]. split; [exact He|].
  split; [|split; [|split]].
  - apply solid_colors_paints. eapply Forall_impl; [|exact Hf].
    intros p [Hty [c [a [Hc _]]]]. split; [assumption|congruence].
  - apply solid_colors_paints. eapply Forall_impl; [|exact Hs].
    intros p [Hty [c [a [Hc _]]]]. split; [assumption|congruence].
  - apply effect_colors_paints. eapply Forall_impl; [|exact He].
    intros p [c [a [Hc _]]]. congruence.
  - intros effect Hv. unfold convertEffect. now rewrite Hv.
Qed.

(* ================================================================== *)
(** * Reach of the traversal *)
(* ================================================================== *)

Lemma preorder_node_self (node : FigmaNode.t) : In node (preorder_node node).
Proof. destruct node; simpl; now left. Qed.

Lemma preorder_node_child (p : FigmaNode.t) (cs : list FigmaNode.t) (c x : FigmaNode.t) :
  FigmaNode.children p = Some cs -> In c cs -> In x (preorder_node c) ->
  In x (preorder_node p).
Proof.
  intros Hcs Hc Hx. destruct p; simpl in *. subst. right.
  apply in_flat_map. now exists c.
Qed.

Lemma preorder_node_trans (a : FigmaNode.t) :
  forall b c, In b (preorder_node a) -> In c (preorder_node b) ->
              In c (preorder_node a).
Proof.
  induction a as [a IH] using FigmaNode_forall_ind.
  intros b c Hb Hc.
  destruct a as [? ? ? ch ? ? ? ? ? ? ? ? ? ? ? ?]. simpl in *.
  destruct Hb as [<-|Hb]; [exact Hc|].
  right. destruct ch as [cs|]; [|contradiction].
  apply in_flat_map in Hb. destruct Hb as [k [Hk Hb]].
  apply in_flat_map. exists k. split; [assumption|].
  specialize (IH cs eq_refl). rewrite Forall_forall in IH.
  now apply (IH k Hk b c).
Qed.

(** X18.  Every traversal of the extraction engine acts on each root and,
    recursively, on every child of every node it reaches, whatever the
    node's type, once per occurrence and parents before children: walking a
    forest is the left fold of the per-node action over the pre-order
    listing, which contains the roots and is closed under children. *)
Theorem X18_traversal_reaches_all_nodes {S : Type} (visit : FigmaNode.t -> S -> S)
  (nodes : list FigmaNode.t) (s : S) :
  forEach_traverse visit nodes s
  = fold_left (fun acc node => visit node acc) (preorder nodes) s
  /\ (forall root, In root nodes -> In root (preorder nodes))
  /\ (forall parent cs child,
        In parent (preorder nodes) ->
        FigmaNode.children parent = Some cs -> In child cs ->
        In child (preorder nodes))
  /\ (forall root rest, nodes = root :: rest ->
        exists tail, preorder nodes = root :: tail).
Proof.
  split; [apply forEach_traverse_preorder|]. split; [|split].
  - intros root Hr. apply in_flat_map. exists root. split; [assumption|].
    apply preorder_node_self.
  - intros parent cs child Hp Hcs Hc. unfold preorder in *.
    apply in_flat_map in Hp. destruct Hp as [root [Hr Hp]].
    apply in_flat_map. exists root. split; [assumption|].
    apply (preorder_node_trans root parent child Hp).
    apply (preorder_node_child parent cs child child Hcs Hc).
    apply preorder_node_self.
  - intros root rest ->. unfold preorder. simpl.
    destruct root. simpl. eexists. reflexivity.
Qed.

(* ================================================================== *)
(** * When no colour is found *)
(* ================================================================== *)

Lemma solid_colors_In (field : option (list Paint.t)) (c : Color.t) :
  In c (solid_colors field) <->
  exists l p, field = Some l /\ In p l
              /\ Paint.type p = "SOLID"%string /\ Paint.color p = Some c.
Proof.
  destruct field as [l|]; simpl.
  - rewrite in_flat_map. split.
    + intros [p [Hp Hc]]. exists l, p.
      destruct (Paint.color p) as [c'|]; [|contradiction].
      destruct (String.eqb (Paint.type p) "SOLID") eqn:E; [|contradiction].
      apply String.eqb_eq in E. destruct Hc as [->|[]]. tauto.
    + intros [l' [p [Hl [Hp [Hty Hc]]]]]. injection Hl as <-.
      exists p. split; [assumption|]. rewrite Hc, Hty. now left.
  - split; [contradiction|]. intros [l [p [H _]]]. discriminate.
Qed.

Lemma effect_colors_In (field : option (list Paint.t)) (c : Color.t) :
  In c (effect_colors field) <->
  exists l p, field = Some l /\ In p l /\ Paint.color p = Some c.
Proof.
  destruct field as [l|]; simpl.
  - rewrite in_flat_map. split.
    + intros [p [Hp Hc]]. exists l, p.
      destruct (Paint.color p) as [c'|]; [|contradiction].
      destruct Hc as [->|[]]. tauto.
    + intros [l' [p [Hl [Hp Hc]]]]. injection Hl as <-.
      exists p. split; [assumption|]. rewrite Hc. now left.
  - split; [contradiction|]. intros [l [p [H _]]]. discriminate.
Qed.

(** X19.  [extractColors] returns the empty sequence exactly when no node
    of the forest has a fill or stroke of type SOLID with a colour, nor an
    effect with a colour; a fill or stroke of another type (a gradient, an
    image) never contributes, even when it carries a colour. *)
Theorem X19_colors_empty_iff (nodes : list FigmaNode.t) :
  extractColors nodes = [] <->
  forall node, In node (preorder nodes) ->
    (forall l p, FigmaNode.fills node = Some l \/ FigmaNode.strokes node = Some l ->
       In p l -> Paint.type p = "SOLID"%string -> Paint.color p = None)
    /\ (forall l p, FigmaNode.effects node = Some l -> In p l -> Paint.color p = None).
Proof.
  rewrite extractColors_first_seen. split.
  - intros Hnil node Hn.
    assert (Hno : forall c, ~ In c (node_color_candidates node)).
    { intros c Hc.
      assert (Hcand : In c (color_candidates nodes)).
      { apply in_flat_map. now exists node. }
      destruct (first_seen_complete color_key string_dec _ [] c Hcand)
        as [y [Hy _]]; [intros []|].
      apply (in_map toParsedColor) in Hy. rewrite Hnil in Hy. contradiction. }
    unfold node_color_candidates in Hno. split.
    + intros l p Hl Hp Hty.
      destruct (Paint.color p) as [c|] eqn:Hc; [|reflexivity].
      exfalso. apply (Hno c). destruct Hl as [Hl|Hl].
      * apply in_or_app. left. apply solid_colors_In. now exists l, p.
      * apply in_or_app. right. apply in_or_app. left.
        apply solid_colors_In. now exists l, p.
    + intros l p Hl Hp.
      destruct (Paint.color p) as [c|] eqn:Hc; [|reflexivity].
      exfalso. apply (Hno c). apply in_or_app. right. apply in_or_app. right.
      apply effect_colors_In. now exists l, p.
  - intros Hnone.
    destruct (color_candidates nodes) as [|c l] eqn:E; [reflexivity|].
    exfalso.
    assert (Hc : In c (color_candidates nodes)) by (rewrite E; now left).
    apply in_flat_map in Hc. destruct Hc as [node [Hn Hc]].
    destruct (Hnone node Hn) as [Hfs He].
    unfold node_color_candidates in Hc.
    apply in_app_or in Hc. destruct Hc as [Hc|Hc].
    + apply solid_colors_In in Hc. destruct Hc as [l' [p [Hl [Hp [Hty Hcol]]]]].
      rewrite (Hfs l' p (or_introl Hl) Hp Hty) in Hcol. discriminate.
    + apply in_app_or in Hc. destruct Hc as [Hc|Hc].
      * apply solid_colors_In in Hc. destruct Hc as [l' [p [Hl [Hp [Hty Hcol]]]]].
        rewrite (Hfs l' p (or_intror Hl) Hp Hty) in Hcol. discriminate.
      * apply effect_colors_In in Hc. destruct Hc as [l' [p [Hl [Hp Hcol]]]].
        rewrite (He l' p Hl Hp) in Hcol. discriminate.
Qed.
